(** * Maximal-Assignment-C: the three assignment solvers over the linked matrix

    A shallow embedding of [matrix_core.c], [matrix_io.c], [greedy.c],
    [backtrack.c] and [hungarian.c].

    - C [int] values are [Z] with two's-complement wrap-around written out
      ([CInt]); signed overflow is undefined in C and the model takes the
      result a mainstream compiler produces.
    - The heap holds the [MatrixElement] cells.  A chain of elements linked by
      [nextCol] is the list of their addresses, a chain of row nodes linked by
      [nextRow] is the list of the rows; no solver ever relinks a chain.
    - [malloc]/[calloc] of a non-negative count succeeds; a negative count,
      converted to [size_t], makes the allocation return NULL.
    - Arrays are lists read with a default and written with stdpp's insert, so
      an out-of-range access reads 0/false and writes nothing, and a read
      through a dangling or NULL element pointer gives 0.  These defaults
      matter only where the C code has undefined behaviour; a well-formed
      matrix ([wf_matrix]) keeps the solvers away from it.
    - [free] is left out: nothing reads a cell after it is released. *)

From stdpp Require Import prelude.
From Stdlib Require Import ZArith Lia.

Local Open Scope Z_scope.

(** ** C integers *)

Module CInt.
Definition INT_MIN : Z := -2147483648.
Definition INT_MAX : Z := 2147483647.
Definition wrap (z : Z) : Z := (z + 2147483648) `mod` 4294967296 - 2147483648.
Definition add (a b : Z) : Z := wrap (a + b).
Definition sub (a b : Z) : Z := wrap (a - b).
Definition neg (a : Z) : Z := wrap (- a).
Definition mul (a b : Z) : Z := wrap (a * b).
(** the sum a C loop [sum += v] accumulates over the values, from [acc] *)
Definition sum_from (acc : Z) (vs : list Z) : Z := foldl add acc vs.
End CInt.

(** ** error_codes.h *)

Definition SUCCESS : Z := 0.
Definition MEMORY_ALLOCATION_FAILURE : Z := -1.
Definition INVALID_MATRIX_OR_INDICES : Z := -4.

(** ** matrix_core.h: the linked matrix *)

Record MatrixElement := { value : Z; column : Z }.

Abbreviation ptr := nat (only parsing).
Abbreviation Heap := (list MatrixElement) (only parsing).

Record MatrixRowNode := { row : list ptr }.

Record Matrix := { head : list MatrixRowNode; width : Z; height : Z }.

(** [p->value] and [p->column]; a dangling or NULL [p] reads 0. *)
Definition elem_value (h : Heap) (p : ptr) : Z := default 0 (value <$> h !! p).
Definition elem_column (h : Heap) (p : ptr) : Z := default 0 (column <$> h !! p).
Definition value_at (h : Heap) (p : option ptr) : Z := from_option (elem_value h) 0 p.

(** [p->value = v] *)
Definition set_value (h : Heap) (p : ptr) (v : Z) : Heap :=
  alter (λ e, {| value := v; column := column e |}) p h.

(** [malloc(sizeof(MatrixElement))] followed by the initialisation of the
    fields: the new cell lives at the first unused address. *)
Definition new_element (h : Heap) (v c : Z) : Heap * ptr :=
  (h ++ [{| value := v; column := c |}], length h).

(** int and bool arrays *)
Definition rd (a : list Z) (i : nat) : Z := default 0 (a !! i).
Definition rdb (a : list bool) (i : nat) : bool := default false (a !! i).
Definition calloc {A} (zero : A) (n : Z) : option (list A) :=
  if n <? 0 then None else Some (replicate (Z.to_nat n) zero).

Definition GetRowNode (matrix : option Matrix) (rowIndex : Z) : option MatrixRowNode :=
  match matrix with
  | None => None
  | Some m =>
      if (rowIndex <? 0) || (height m <=? rowIndex) then None
      else head m !! Z.to_nat rowIndex
  end.

Definition GetElementCol (rowNode : option MatrixRowNode) (colIndex : Z) : option ptr :=
  match rowNode with
  | None => None
  | Some rn => if colIndex <? 0 then None else row rn !! Z.to_nat colIndex
  end.

(** [GetElementCol(GetRowNode(matrix, r), c)] and its [->value] *)
Definition cell_ptr (m : Matrix) (r c : nat) : option ptr :=
  GetElementCol (GetRowNode (Some m) (Z.of_nat r)) (Z.of_nat c).
Definition cell (h : Heap) (m : Matrix) (r c : nat) : Z := value_at h (cell_ptr m r c).

(** The matrix [CreateMatrixFromFile] builds from the rows of a file:
    [CreateMatrix] allocates the rows one after the other, the element in
    position [c] of a row carries [column = c], and the values are then
    written cell by cell. *)
Fixpoint fill_row (h : Heap) (c : nat) (vs : list Z) : Heap * list ptr :=
  match vs with
  | [] => (h, [])
  | v :: vs' =>
      let '(h1, p) := new_element h v (Z.of_nat c) in
      let '(h2, ps) := fill_row h1 (S c) vs' in
      (h2, p :: ps)
  end.

Fixpoint fill_rows (h : Heap) (rows : list (list Z)) : Heap * list MatrixRowNode :=
  match rows with
  | [] => (h, [])
  | vs :: rows' =>
      let '(h1, ps) := fill_row h 0 vs in
      let '(h2, rns) := fill_rows h1 rows' in
      (h2, {| row := ps |} :: rns)
  end.

Definition matrix_of_rows (w : Z) (rows : list (list Z)) : Heap * Matrix :=
  let '(h, rns) := fill_rows [] rows in
  (h, {| head := rns; width := w; height := Z.of_nat (length rows) |}).

(** A matrix as [CreateMatrix] and the loader leave it: positive dimensions,
    [height] rows of [width] allocated elements, and the element in position
    [c] of its row has [column = c]. *)
Definition wf_row (h : Heap) (w : Z) (rn : MatrixRowNode) : bool :=
  bool_decide (Z.of_nat (length (row rn)) = w)
  && forallb (λ '(c, p), bool_decide (column <$> h !! p = Some (Z.of_nat c)))
             (imap pair (row rn)).

Definition wf_matrix (h : Heap) (m : Matrix) : bool :=
  (0 <? width m) && (0 <? height m)
  && bool_decide (Z.of_nat (length (head m)) = height m)
  && forallb (wf_row h (width m)) (head m).

(** ** What a solver hands back *)

Record SelectedElement := { sel_row : Z; sel_col : Z; sel_value : Z }.

Inductive Outcome (A : Type) : Type :=
| Success (out : A)      (* [return SUCCESS], the output parameters written *)
| Failure (code : Z)     (* an error code returned before any output *)
| Exits (code : Z)       (* the process is ended by [exit(code)] *)
| NullDereference        (* the code reads through a NULL matrix *)
| OutOfFuel.             (* the loop did not finish within the given fuel *)
Arguments Success {A} out.
Arguments Failure {A} code.
Arguments Exits {A} code.
Arguments NullDereference {A}.
Arguments OutOfFuel {A}.

Definition return_solution {A} (o : Outcome A) : option A :=
  match o with
  | Success out => Some out
  | _ => None
  end.

(** The sum and the cells chosen.  [GreedyAlgorithm] and [HungarianAlgorithm]
    store only the chosen values ([maxSelection], [chosenElements]); the model
    keeps with each value the row and column of the cell it was read from. *)
Record Solution := { sum : Z; selection : list SelectedElement }.

Definition values (sel : list SelectedElement) : list Z := sel_value <$> sel.

(** ** greedy.c *)

Record GreedyState := {
  g_maxSum : Z;
  g_maxSelection : list SelectedElement;
  g_usedRows : list Z;
  g_usedColumns : list Z
}.

(** The inner [while (currentElement != NULL)]: the running maximum and the
    element that holds it. *)
Fixpoint greedy_scan (h : Heap) (usedRows usedColumns : list Z) (rowIndex : nat)
    (elems : list ptr) (maxElementValue : Z) (maxElement : option ptr) : Z * option ptr :=
  match elems with
  | [] => (maxElementValue, maxElement)
  | currentElement :: next =>
      if (rd usedRows rowIndex =? 0)
         && (rd usedColumns (Z.to_nat (elem_column h currentElement)) =? 0)
         && (elem_value h currentElement >? maxElementValue)
      then greedy_scan h usedRows usedColumns rowIndex next
             (elem_value h currentElement) (Some currentElement)
      else greedy_scan h usedRows usedColumns rowIndex next maxElementValue maxElement
  end.

(** One turn of the outer [while (currentRow != NULL)]. *)
Definition greedy_row (h : Heap) (currentRow : MatrixRowNode) (rowIndex : nat)
    (st : GreedyState) : GreedyState :=
  match snd (greedy_scan h (g_usedRows st) (g_usedColumns st) rowIndex
               (row currentRow) CInt.INT_MIN None) with
  | Some maxElement =>
      {| g_maxSum := CInt.add (g_maxSum st) (elem_value h maxElement);
         g_maxSelection := g_maxSelection st ++
           [{| sel_row := Z.of_nat rowIndex;
               sel_col := elem_column h maxElement;
               sel_value := elem_value h maxElement |}];
         g_usedRows := <[rowIndex := 1]> (g_usedRows st);
         g_usedColumns := <[Z.to_nat (elem_column h maxElement) := 1]> (g_usedColumns st) |}
  | None => st
  end.

Fixpoint greedy_rows (h : Heap) (rows : list MatrixRowNode) (rowIndex : nat)
    (st : GreedyState) : GreedyState :=
  match rows with
  | [] => st
  | currentRow :: nextRow =>
      greedy_rows h nextRow (S rowIndex) (greedy_row h currentRow rowIndex st)
  end.

Definition GreedyAlgorithm (h : Heap) (matrix : option Matrix) : Outcome Solution :=
  match matrix with
  | None => Failure INVALID_MATRIX_OR_INDICES
  | Some m =>
      if width m <=? 0 then Failure INVALID_MATRIX_OR_INDICES
      else match calloc 0 (height m), calloc 0 (width m) with
           | Some usedRows, Some usedColumns =>
               let st := greedy_rows h (head m) 0%nat
                           {| g_maxSum := 0; g_maxSelection := [];
                              g_usedRows := usedRows; g_usedColumns := usedColumns |} in
               Success {| sum := g_maxSum st; selection := g_maxSelection st |}
           | _, _ => Failure MEMORY_ALLOCATION_FAILURE
           end
  end.

(** ** backtrack.c *)

(** The objects the pointers of [ExploreParams] point to; every call of
    [Explore] shares them. *)
Record ExploreState := {
  maxSum : Z;
  selectionValues : list SelectedElement;
  selectionCount : Z;
  usedRows : list Z;
  usedColumns : list Z
}.

(** The body of the loop of [CopySelectedValues]; the entries written are
    [selectionValues[0 .. selectionCount-1]]. *)
Fixpoint copy_selected (h : Heap) (m : Matrix) (usedCols : list Z) (idxs : list nat)
    (written : list SelectedElement) : list SelectedElement :=
  match idxs with
  | [] => written
  | i :: idxs' =>
      if rd usedCols i =? 0 then copy_selected h m usedCols idxs' written
      else
        let colIndex := rd usedCols i - 1 in
        let currentElement := GetElementCol (GetRowNode (Some m) (Z.of_nat i)) colIndex in
        copy_selected h m usedCols idxs'
          (written ++ [{| sel_row := Z.of_nat i; sel_col := colIndex;
                          sel_value := value_at h currentElement |}])
  end.

Definition CopySelectedValues (h : Heap) (m : Matrix) (st : ExploreState) : ExploreState :=
  let written := copy_selected h m (usedColumns st) (seq 0 (Z.to_nat (height m))) [] in
  {| maxSum := maxSum st;
     selectionValues := written;
     selectionCount := Z.of_nat (length written);
     usedRows := usedRows st;
     usedColumns := usedColumns st |}.

Definition set_maxSum (v : Z) (st : ExploreState) : ExploreState :=
  {| maxSum := v; selectionValues := selectionValues st;
     selectionCount := selectionCount st;
     usedRows := usedRows st; usedColumns := usedColumns st |}.

Definition set_used (r : nat) (rv : Z) (c : nat) (cv : Z) (st : ExploreState) : ExploreState :=
  {| maxSum := maxSum st; selectionValues := selectionValues st;
     selectionCount := selectionCount st;
     usedRows := <[r := rv]> (usedRows st);
     usedColumns := <[c := cv]> (usedColumns st) |}.

(** [Explore]: the recursion consumes one unit of fuel per row; the test
    [currentRow == height] comes first, as in the source. *)
Fixpoint Explore (fuel : nat) (h : Heap) (m : Matrix) (currentRow : nat) (currentSum : Z)
    (st : ExploreState) : ExploreState :=
  if Z.of_nat currentRow =? height m then
    if currentSum >? maxSum st
    then CopySelectedValues h m (set_maxSum currentSum st)
    else st
  else
    match fuel with
    | O => st
    | S fuel' =>
        foldl (λ st (i : nat),
                 if (rd (usedRows st) currentRow =? 0) && (rd (usedColumns st) i =? 0) then
                   let st1 := set_used currentRow 1 i (Z.of_nat currentRow + 1) st in
                   let st2 := Explore fuel' h m (S currentRow)
                                (CInt.add currentSum (cell h m currentRow i)) st1 in
                   set_used currentRow 0 i 0 st2
                 else st)
              st (seq 0 (Z.to_nat (width m)))
    end.

(** [BacktrackAlgorithm].  After the two [calloc]s comes the third
    allocation, [malloc(maxPossibleSelections * sizeof(SelectedElement))] with
    [int maxPossibleSelections = matrix->height * matrix->width]: a product
    that wraps below zero is a negative count, and the allocation returns
    NULL.  The buffer itself is [selectionValues], kept as the list of the
    entries written so far. *)
Definition BacktrackAlgorithm (h : Heap) (matrix : option Matrix) : Outcome Solution :=
  match matrix with
  | None => Failure INVALID_MATRIX_OR_INDICES
  | Some m =>
      if (width m <=? 0) || (height m <=? 0) then Failure INVALID_MATRIX_OR_INDICES
      else match calloc 0 (height m), calloc 0 (width m) with
           | Some usedRows0, Some usedColumns0 =>
               let maxPossibleSelections := CInt.mul (height m) (width m) in
               if maxPossibleSelections <? 0 then Failure MEMORY_ALLOCATION_FAILURE
               else
                 let st := Explore (Z.to_nat (height m)) h m 0%nat 0
                             {| maxSum := 0; selectionValues := []; selectionCount := 0;
                                usedRows := usedRows0; usedColumns := usedColumns0 |} in
                 Success {| sum := maxSum st; selection := selectionValues st |}
           | _, _ => Failure MEMORY_ALLOCATION_FAILURE
           end
  end.

(** ** hungarian.c *)

(** [for (rowNode ...) for (element ...)] with a body that writes the heap *)
Definition for_each_element (body : Heap → ptr → Heap) (h : Heap) (m : Matrix) : Heap :=
  foldl (λ h rowNode, foldl body h (row rowNode)) h (head m).

(** [for (row < numRows) for (col < numCols)] *)
Definition for_each_index {A} (numRows numCols : Z) (body : A → nat → nat → A) (a : A) : A :=
  foldl (λ a row, foldl (λ a col, body a row col) a (seq 0 (Z.to_nat numCols)))
        a (seq 0 (Z.to_nat numRows)).

Definition NegateAllElements (h : Heap) (m : Matrix) : Heap :=
  for_each_element (λ h element, set_value h element (CInt.neg (elem_value h element))) h m.

(** [minValue = element->value < minValue ? element->value : minValue] *)
Definition min_step (h : Heap) (minValue : Z) (element : ptr) : Z :=
  if elem_value h element <? minValue then elem_value h element else minValue.

Definition subtract_at (minValue : Z) (h : Heap) (element : ptr) : Heap :=
  set_value h element (CInt.sub (elem_value h element) minValue).

Definition MakeMatrixNonnegative (h : Heap) (m : Matrix) : Heap :=
  let minValue :=
    foldl (λ mn rowNode, foldl (min_step h) mn (row rowNode)) CInt.INT_MAX (head m) in
  if minValue <? 0 then for_each_element (subtract_at minValue) h m else h.

Definition SubtractRowMinima (h : Heap) (m : Matrix) : Heap :=
  foldl (λ h rowNode,
           let minRowValue := foldl (min_step h) CInt.INT_MAX (row rowNode) in
           foldl (subtract_at minRowValue) h (row rowNode))
        h (head m).

Definition SubtractColumnMinima (h : Heap) (m : Matrix) : Heap :=
  foldl (λ h (col : nat),
           let minColValue :=
             foldl (λ mn rowNode,
                      match GetElementCol (Some rowNode) (Z.of_nat col) with
                      | Some element => min_step h mn element
                      | None => mn
                      end) CInt.INT_MAX (head m) in
           foldl (λ h rowNode,
                    match GetElementCol (Some rowNode) (Z.of_nat col) with
                    | Some element => subtract_at minColValue h element
                    | None => h
                    end) h (head m))
        h (seq 0 (Z.to_nat (width m))).

(** The marking pass of [IsOptimalSolution] over the elements of one row;
    [rowIdx] is what [GetRowIndex] returns for the row node. *)
Fixpoint optimal_scan (h : Heap) (rowIdx : nat) (elems : list ptr)
    (coveredRows coveredCols : list Z) : list Z * list Z :=
  match elems with
  | [] => (coveredRows, coveredCols)
  | element :: next =>
      let colIdx := Z.to_nat (elem_column h element) in
      if (elem_value h element =? 0) && (rd coveredRows rowIdx =? 0)
         && (rd coveredCols colIdx =? 0)
      then optimal_scan h rowIdx next (<[rowIdx := 1]> coveredRows) (<[colIdx := 1]> coveredCols)
      else optimal_scan h rowIdx next coveredRows coveredCols
  end.

Fixpoint optimal_rows (h : Heap) (rows : list MatrixRowNode) (rowIdx : nat)
    (coveredRows coveredCols : list Z) : list Z * list Z :=
  match rows with
  | [] => (coveredRows, coveredCols)
  | rowNode :: nextRow =>
      let '(cr, cc) := optimal_scan h rowIdx (row rowNode) coveredRows coveredCols in
      optimal_rows h nextRow (S rowIdx) cr cc
  end.

(** [for (i < n) if (covered[i]) num++] *)
Definition count_covered (covered : list Z) (n : Z) : Z :=
  foldl (λ num i, if rd covered i =? 0 then num else num + 1) 0 (seq 0 (Z.to_nat n)).

Definition IsOptimalSolution (h : Heap) (m : Matrix) : bool :=
  let numRows := height m in
  let numCols := width m in
  let '(coveredRows, coveredCols) :=
    optimal_rows h (head m) 0%nat (default [] (calloc 0 numRows)) (default [] (calloc 0 numCols)) in
  (count_covered coveredRows numRows =? numRows) || (count_covered coveredCols numCols =? numCols).

Definition CoverZeros (h : Heap) (m : Matrix) (coveredRows coveredCols : list bool)
    : list bool * list bool :=
  let numRows := height m in
  let numCols := width m in
  for_each_index numRows numCols
    (λ '(cr, cc) row col,
       if negb (rdb cr row) && negb (rdb cc col) && (cell h m row col =? 0) then
         let multipleZerosInColumn :=
           existsb (λ r, negb (r =? row)%nat && (cell h m r col =? 0))
                   (seq 0 (Z.to_nat numRows)) in
         let multipleZerosInRow :=
           existsb (λ c, negb (c =? col)%nat && (cell h m row c =? 0))
                   (seq 0 (Z.to_nat numCols)) in
         if multipleZerosInColumn then (cr, <[col := true]> cc)
         else if multipleZerosInRow then (<[row := true]> cr, cc)
         else (cr, cc)
       else (cr, cc))
    (coveredRows, coveredCols).

Definition CreateAdditionalZeros (h : Heap) (m : Matrix) (coveredRows coveredCols : list bool)
    : Heap :=
  let numRows := height m in
  let numCols := width m in
  let minUncovered :=
    for_each_index numRows numCols
      (λ mn row col,
         if negb (rdb coveredRows row) && negb (rdb coveredCols col) then
           match cell_ptr m row col with
           | Some element => min_step h mn element
           | None => mn
           end
         else mn) CInt.INT_MAX in
  let h1 :=
    for_each_index numRows numCols
      (λ h row col,
         if negb (rdb coveredRows row) && negb (rdb coveredCols col) then
           match cell_ptr m row col with
           | Some element => subtract_at minUncovered h element
           | None => h
           end
         else h) h in
  for_each_index numRows numCols
    (λ h row col,
       if rdb coveredRows row && rdb coveredCols col then
         match cell_ptr m row col with
         | Some element => set_value h element (CInt.add (elem_value h element) minUncovered)
         | None => h
         end
       else h) h1.

(** [CopyMatrix]: every element of the original is copied into a newly
    allocated one. *)
Fixpoint copy_row (h : Heap) (elems : list ptr) : Heap * list ptr :=
  match elems with
  | [] => (h, [])
  | originalElement :: next =>
      let '(h1, newElement) :=
        new_element h (elem_value h originalElement) (elem_column h originalElement) in
      let '(h2, rest) := copy_row h1 next in
      (h2, newElement :: rest)
  end.

Fixpoint copy_rows (h : Heap) (rows : list MatrixRowNode) : Heap * list MatrixRowNode :=
  match rows with
  | [] => (h, [])
  | originalRow :: nextRow =>
      let '(h1, newRow) := copy_row h (row originalRow) in
      let '(h2, rest) := copy_rows h1 nextRow in
      (h2, {| row := newRow |} :: rest)
  end.

Definition CopyMatrix (h : Heap) (originalMatrix : Matrix) : Heap * Matrix :=
  let '(h', rows) := copy_rows h (head originalMatrix) in
  (h', {| head := rows; width := width originalMatrix; height := height originalMatrix |}).

(** [ExtractFinalSolution]; [assignments] is the length of [e_chosen]. *)
Record ExtractState := {
  e_sum : Z;
  e_chosen : list SelectedElement;
  e_coveredCols : list bool
}.

(** The inner [for (col ...)], left by [break] at the first hit. *)
Fixpoint extract_scan (h : Heap) (originalMatrix finalMatrix : Matrix) (row : nat)
    (cols : list nat) (st : ExtractState) : ExtractState :=
  match cols with
  | [] => st
  | col :: cols' =>
      if (cell h finalMatrix row col =? 0) && negb (rdb (e_coveredCols st) col) then
        let assignmentValue := cell h originalMatrix row col in
        {| e_sum := CInt.add (e_sum st) assignmentValue;
           e_chosen := e_chosen st ++
             [{| sel_row := Z.of_nat row; sel_col := Z.of_nat col;
                 sel_value := assignmentValue |}];
           e_coveredCols := <[col := true]> (e_coveredCols st) |}
      else extract_scan h originalMatrix finalMatrix row cols' st
  end.

Definition extract_rows (h : Heap) (originalMatrix finalMatrix : Matrix)
    (rows : list nat) (st : ExtractState) : ExtractState :=
  foldl (λ st row,
           extract_scan h originalMatrix finalMatrix row
             (seq 0 (Z.to_nat (width originalMatrix))) st)
        st rows.

Definition ExtractFinalSolution (h : Heap) (originalMatrix finalMatrix : Matrix)
    : Outcome Solution :=
  let numRows := height originalMatrix in
  let numCols := width originalMatrix in
  match calloc false numCols with
  | None => Failure MEMORY_ALLOCATION_FAILURE
  | Some coveredCols =>
      if numRows <? 0 then Failure MEMORY_ALLOCATION_FAILURE
      else
        let st := extract_rows h originalMatrix finalMatrix (seq 0 (Z.to_nat numRows))
                    {| e_sum := 0; e_chosen := []; e_coveredCols := coveredCols |} in
        Success {| sum := e_sum st; selection := e_chosen st |}
  end.

(** The body of [while (!IsOptimalSolution(matrixCopy))]. *)
Definition hungarian_iteration (matrixCopy : Matrix)
    (st : Heap * list bool * list bool) : Heap * list bool * list bool :=
  let '(h, coveredRows, coveredCols) := st in
  let '(coveredRows', coveredCols') := CoverZeros h matrixCopy coveredRows coveredCols in
  (CreateAdditionalZeros h matrixCopy coveredRows' coveredCols', coveredRows', coveredCols').

Fixpoint hungarian_loop (fuel : nat) (matrixCopy : Matrix)
    (st : Heap * list bool * list bool) : option Heap :=
  if IsOptimalSolution st.1.1 matrixCopy then Some st.1.1
  else match fuel with
       | O => None
       | S fuel' => hungarian_loop fuel' matrixCopy (hungarian_iteration matrixCopy st)
       end.

(** The four passes that precede the loop. *)
Definition reduce (h : Heap) (matrixCopy : Matrix) : Heap :=
  SubtractColumnMinima
    (SubtractRowMinima
       (MakeMatrixNonnegative (NegateAllElements h matrixCopy) matrixCopy) matrixCopy)
    matrixCopy.

(** [HungarianAlgorithm]; the heap it leaves is part of the result.
    [FreeMatrix(matrixCopy)] releases cells nobody reads again and is left out. *)
Definition HungarianAlgorithm (fuel : nat) (h : Heap) (matrix : option Matrix)
    : Outcome (Solution * Heap) :=
  match matrix with
  | None => NullDereference
  | Some m =>
      let '(h0, matrixCopy) := CopyMatrix h m in
      let numRows := height matrixCopy in
      let numCols := width matrixCopy in
      let h1 := reduce h0 matrixCopy in
      match calloc false numRows, calloc false numCols with
      | Some coveredRows, Some coveredCols =>
          match hungarian_loop fuel matrixCopy (h1, coveredRows, coveredCols) with
          | None => OutOfFuel
          | Some h2 =>
              match ExtractFinalSolution h2 m matrixCopy with
              | Success sol => Success (sol, h2)
              | Failure code => Exits code
              | Exits code => Exits code
              | NullDereference => NullDereference
              | OutOfFuel => OutOfFuel
              end
          end
      | _, _ => Failure MEMORY_ALLOCATION_FAILURE
      end
  end.

(** What the caller of [HungarianAlgorithm] receives through [chosenElements]
    and [result]. *)
Definition hungarian_solution (fuel : nat) (h : Heap) (matrix : option Matrix)
    : Outcome Solution :=
  match HungarianAlgorithm fuel h matrix with
  | Success (sol, _) => Success sol
  | Failure code => Failure code
  | Exits code => Exits code
  | NullDereference => NullDereference
  | OutOfFuel => OutOfFuel
  end.

(** ** What the solvers are measured against *)

(** Rows pairwise distinct, columns pairwise distinct, no more cells than the
    smaller dimension. *)
Definition valid_selection (m : Matrix) (sel : list SelectedElement) : Prop :=
  NoDup (sel_row <$> sel) ∧ NoDup (sel_col <$> sel)
  ∧ Z.of_nat (length sel) ≤ Z.min (width m) (height m).

(** A choice of cells of [m], given by their positions: inside the matrix, no
    row and no column taken twice. *)
Definition exclusive (m : Matrix) (cells : list (nat * nat)) : Prop :=
  NoDup (fst <$> cells) ∧ NoDup (snd <$> cells)
  ∧ Forall (λ rc, Z.of_nat rc.1 < height m ∧ Z.of_nat rc.2 < width m) cells.

Definition cells_sum (h : Heap) (m : Matrix) (cells : list (nat * nat)) : Z :=
  foldr (λ rc s, cell h m rc.1 rc.2 + s) 0 cells.

(** [s] is the largest sum of an exclusive choice of min(H,W) cells. *)
Definition is_max_sum (h : Heap) (m : Matrix) (s : Z) : Prop :=
  (∃ cells, exclusive m cells
            ∧ Z.of_nat (length cells) = Z.min (height m) (width m)
            ∧ cells_sum h m cells = s)
  ∧ ∀ cells, exclusive m cells
             → Z.of_nat (length cells) = Z.min (height m) (width m)
             → cells_sum h m cells ≤ s.

(** Every address a matrix reaches. *)
Definition pointers (m : Matrix) : list ptr := head m ≫= row.

(** The state of the greedy solver when it reaches row [r]. *)
Definition greedy_before (h : Heap) (m : Matrix) (r : nat) : GreedyState :=
  greedy_rows h (take r (head m)) 0%nat
    {| g_maxSum := 0; g_maxSelection := [];
       g_usedRows := default [] (calloc 0 (height m));
       g_usedColumns := default [] (calloc 0 (width m)) |}.

(** ** Matrices used in the examples *)

Definition m_1x1 := matrix_of_rows 1 [[5]].
Definition m_neg := matrix_of_rows 1 [[-5]].
Definition m_2x2 := matrix_of_rows 2 [[1; 2]; [3; 4]].
Definition m_diag := matrix_of_rows 3 [[9; 1; 1]; [1; 9; 1]; [1; 1; 9]].
Definition m_tall := matrix_of_rows 1 [[5]; [3]].
Definition m_wide := matrix_of_rows 2 [[1; 2]].
Definition m_cycle := matrix_of_rows 3 [[0; 10; 0]; [0; 0; 10]; [10; 0; 0]].
Definition m_stuck := matrix_of_rows 3 [[1; 1; 0]; [1; 0; 0]; [0; 0; 1]].
Definition m_intmin := matrix_of_rows 2 [[5; 5]; [CInt.INT_MIN; CInt.INT_MIN]].
(** what [DeleteRow] leaves of a 1x1 matrix, and a matrix with no cell at all *)
Definition m_norow : Matrix := {| head := []; width := 1; height := 0 |}.
Definition m_empty : Matrix := {| head := []; width := 0; height := 0 |}.

(** ** Well-formedness and loop invariants, as propositions *)

Definition row_ok (h : Heap) (w : Z) (rn : MatrixRowNode) : Prop :=
  Z.of_nat (length (row rn)) = w
  ∧ ∀ c p, row rn !! c = Some p → column <$> h !! p = Some (Z.of_nat c).

Record well_formed (h : Heap) (m : Matrix) : Prop := {
  wf_width : 0 < width m;
  wf_height : 0 < height m;
  wf_rows : Z.of_nat (length (head m)) = height m;
  wf_row_ok : Forall (row_ok h (width m)) (head m)
}.

(** The greedy solver before row [rowIndex]: the chosen cells lie above, in
    marked columns, and repeat neither a row nor a column. *)
Record greedy_inv (w : Z) (rowIndex : nat) (st : GreedyState) : Prop := {
  gi_cells : Forall (λ e, 0 ≤ sel_row e < Z.of_nat rowIndex
                          ∧ 0 ≤ sel_col e < w
                          ∧ rd (g_usedColumns st) (Z.to_nat (sel_col e)) ≠ 0)
                    (g_maxSelection st);
  gi_rows : NoDup (sel_row <$> g_maxSelection st);
  gi_cols : NoDup (sel_col <$> g_maxSelection st);
  gi_length : length (g_usedColumns st) = Z.to_nat w
}.

(** The column marks when [Explore] is entered at row [k]: a marked column
    holds the row that took it, plus one, and no two columns hold the same
    row. *)
Record explore_inv (k : nat) (usedCols : list Z) : Prop := {
  ei_range : ∀ c, rd usedCols c = 0 ∨ 1 ≤ rd usedCols c ≤ Z.of_nat k;
  ei_distinct : ∀ c c', rd usedCols c ≠ 0 → rd usedCols c = rd usedCols c' → c = c'
}.

(** The extraction before row [r]: the chosen cells lie above, in claimed
    columns, repeat neither a row nor a column, and add up to the sum. *)
Record extract_inv (w : Z) (r : nat) (st : ExtractState) : Prop := {
  xi_cells : Forall (λ e, 0 ≤ sel_row e < Z.of_nat r
                          ∧ 0 ≤ sel_col e < w
                          ∧ rdb (e_coveredCols st) (Z.to_nat (sel_col e)) = true)
                    (e_chosen st);
  xi_rows : NoDup (sel_row <$> e_chosen st);
  xi_cols : NoDup (sel_col <$> e_chosen st);
  xi_length : length (e_coveredCols st) = Z.to_nat w;
  xi_sum : e_sum st = CInt.sum_from 0 (values (e_chosen st))
}.

(** [h'] differs from [h] at most in the [value] of the cells at [ps]. *)
Definition modifies (ps : list ptr) (h h' : Heap) : Prop :=
  length h' = length h
  ∧ (∀ q, column <$> h' !! q = column <$> h !! q)
  ∧ (∀ q, q ∉ ps → h' !! q = h !! q).

(** The cell [CopyMatrix] allocates for the element at [p]. *)
Definition clone (h : Heap) (p : ptr) : MatrixElement :=
  {| value := elem_value h p; column := elem_column h p |}.

(** The marking pass of [IsOptimalSolution] and the extraction, both before
    row [r] of the final matrix [f]: they have covered the same columns, and
    each has covered as many rows and columns as the extraction has chosen
    cells. *)
Record cover_sim (f : Matrix) (r : nat) (cr cc : list Z) (st : ExtractState) : Prop := {
  cs_rows_len : length cr = Z.to_nat (height f);
  cs_cols_len : length cc = Z.to_nat (width f);
  cs_cov_len : length (e_coveredCols st) = Z.to_nat (width f);
  cs_below : ∀ i, (r ≤ i)%nat → rd cr i = 0;
  cs_cols : ∀ c, rd cc c ≠ 0 ↔ rdb (e_coveredCols st) c = true;
  cs_count_rows : count_covered cr (height f) = Z.of_nat (length (e_chosen st));
  cs_count_cols : count_covered cc (width f) = Z.of_nat (length (e_chosen st))
}.

(** The sum of the cells (k, cols[0]), (k+1, cols[1]), ... *)
Fixpoint path_sum (h : Heap) (m : Matrix) (k : nat) (cols : list nat) : Z :=
  match cols with
  | [] => 0
  | c :: cols' => cell h m k c + path_sum h m (S k) cols'
  end.

(** [cols] gives each of the rows [k .. H-1] a free column of its own. *)
Definition completion (m : Matrix) (usedCols : list Z) (k : nat) (cols : list nat) : Prop :=
  length cols = (Z.to_nat (height m) - k)%nat
  ∧ NoDup cols
  ∧ Forall (λ c, Z.of_nat c < width m ∧ rd usedCols c = 0) cols.

(** No sum of cells taken from distinct rows leaves the range of [int]. *)
Definition bounded_cells (h : Heap) (m : Matrix) (B : Z) : Prop :=
  (∀ r c, - B ≤ cell h m r c ≤ B) ∧ height m * B ≤ CInt.INT_MAX.

(** ** matrix_core.c and matrix_io.c: building and editing a matrix

    These functions relink the chains and write the fields of the [Matrix]
    itself; in the model they hand back the matrix they leave behind. *)

Definition DEFAULT_MATRIX_VALUE : Z := 0.
Definition OUT_OF_BOUNDS : Z := -8.
Definition CANNOT_OPEN_FILE : Z := -5.

Definition CreateMatrixElement (h : Heap) (v c : Z) : Heap * ptr := new_element h v c.

(** The loop of [InitializeRow]; a NULL chain is the empty list. *)
Fixpoint initialize_cols (h : Heap) (cols : list nat) : Heap * list ptr :=
  match cols with
  | [] => (h, [])
  | col :: cols' =>
      let '(h1, newElement) := CreateMatrixElement h DEFAULT_MATRIX_VALUE (Z.of_nat col) in
      let '(h2, rest) := initialize_cols h1 cols' in
      (h2, newElement :: rest)
  end.

Definition InitializeRow (h : Heap) (w : Z) : Heap * list ptr :=
  if w <=? 0 then (h, []) else initialize_cols h (seq 0 (Z.to_nat w)).

Definition InitializeRowNode (h : Heap) (w : Z) : Heap * option MatrixRowNode :=
  match InitializeRow h w with
  | (h', []) => (h', None)
  | (h', rowElements) => (h', Some {| row := rowElements |})
  end.

(** The loop of [CreateMatrix] over the rows still to create. *)
Fixpoint create_rows (h : Heap) (w : Z) (n : nat) : Heap * option (list MatrixRowNode) :=
  match n with
  | O => (h, Some [])
  | S n' =>
      match InitializeRowNode h w with
      | (h1, None) => (h1, None)
      | (h1, Some newRowNode) =>
          match create_rows h1 w n' with
          | (h2, Some rest) => (h2, Some (newRowNode :: rest))
          | (h2, None) => (h2, None)
          end
      end
  end.

Definition CreateMatrix (h : Heap) (w ht : Z) : Z * Heap * option Matrix :=
  if (w <=? 0) || (ht <=? 0) then (INVALID_MATRIX_OR_INDICES, h, None)
  else match create_rows h w (Z.to_nat ht) with
       | (h', Some rows) => (SUCCESS, h', Some {| head := rows; width := w; height := ht |})
       | (h', None) => (MEMORY_ALLOCATION_FAILURE, h', None)
       end.

(** [ReplaceValueAtPosition] walks [row] links and then [col] links without
    looking for NULL. *)
Definition ReplaceValueAtPosition (h : Heap) (m : Matrix) (r c v : Z) : Outcome Heap :=
  if (r <? 0) || (height m <=? r) || (c <? 0) || (width m <=? c) then Failure OUT_OF_BOUNDS
  else match head m !! Z.to_nat r with
       | None => NullDereference
       | Some currentRowNode =>
           match row currentRowNode !! Z.to_nat c with
           | None => NullDereference
           | Some currentElement => Success (set_value h currentElement v)
           end
       end.

Definition AddElementToRow (h : Heap) (rowHead : list ptr) (v c : Z) : Heap * list ptr :=
  let '(h', newElement) := new_element h v c in
  (h', rowHead ++ [newElement]).

(** The loop of [InsertRow] that fills the new row. *)
Fixpoint insert_row_cols (h : Heap) (newRow : list Z) (cols : list nat) (rowHead : list ptr)
    : Heap * list ptr :=
  match cols with
  | [] => (h, rowHead)
  | col :: cols' =>
      let '(h1, rowHead1) := AddElementToRow h rowHead (rd newRow col) (Z.of_nat col) in
      insert_row_cols h1 newRow cols' rowHead1
  end.

Definition InsertRow (h : Heap) (m : Matrix) (newRow : list Z) (sizeArray : Z)
    : Z * Heap * Matrix :=
  if width m =? sizeArray then
    let '(h', newRowElements) :=
      insert_row_cols h newRow (seq 0 (Z.to_nat (width m))) [] in
    (SUCCESS, h',
     {| head := {| row := newRowElements |} :: head m;
        width := width m; height := height m + 1 |})
  else (OUT_OF_BOUNDS, h, m).

(** The loop of [InsertColumn]; [i] counts the steps of [newColumn++]. *)
Fixpoint insert_column_rows (h : Heap) (newColumn : list Z) (newColumnIndex : Z) (i : nat)
    (rows : list MatrixRowNode) : Heap * list MatrixRowNode :=
  match rows with
  | [] => (h, [])
  | currentRowNode :: nextRow =>
      let '(h1, rowElements) :=
        AddElementToRow h (row currentRowNode) (rd newColumn i) newColumnIndex in
      let '(h2, rest) := insert_column_rows h1 newColumn newColumnIndex (S i) nextRow in
      (h2, {| row := rowElements |} :: rest)
  end.

Definition InsertColumn (h : Heap) (m : Matrix) (newColumn : list Z) (sizeArray : Z)
    : Z * Heap * Matrix :=
  if height m =? sizeArray then
    let '(h', rows) := insert_column_rows h newColumn (width m) 0 (head m) in
    (SUCCESS, h', {| head := rows; width := width m + 1; height := height m |})
  else (OUT_OF_BOUNDS, h, m).

(** [DeleteRow] unlinks the row node; the cells it frees are never read
    again. *)
Definition DeleteRow (m : Matrix) (rowIndex : Z) : Outcome Matrix :=
  if (rowIndex <? 0) || (height m <=? rowIndex) then Failure OUT_OF_BOUNDS
  else match head m !! Z.to_nat rowIndex with
       | None => NullDereference
       | Some _ =>
           Success {| head := delete (Z.to_nat rowIndex) (head m);
                      width := width m; height := height m - 1 |}
       end.

(** [DeleteColumn] unlinks, in every row that is long enough, the element in
    position [colIndex]; the [column] field of the elements behind it is left
    as it is. *)
Definition DeleteColumn (matrix : option Matrix) (colIndex : Z) : Outcome Matrix :=
  match matrix with
  | None => Failure OUT_OF_BOUNDS
  | Some m =>
      if (colIndex <? 0) || (width m <=? colIndex) then Failure OUT_OF_BOUNDS
      else Success {| head := (λ rn, {| row := delete (Z.to_nat colIndex) (row rn) |}) <$> head m;
                      width := width m - 1; height := height m |}
  end.

(** The column tag of the element in position [c] of row [r]. *)
Definition cell_column (h : Heap) (m : Matrix) (r c : nat) : option Z :=
  cell_ptr m r c ≫= λ p, column <$> h !! p.


(** ** matrix_io.c: [GetMatrixSizeFromFile]

    The file is the list of the bytes [fgetc] returns before EOF, or nothing
    when [fopen] fails. *)

Definition NEWLINE : Z := 10.     (* '\n' *)
Definition SEPARATOR : Z := 59.   (* ';' *)

(** The first loop: up to EOF or the first newline, counting separators;
    what is left of the file is handed to the second loop. *)
Fixpoint count_columns (file : list Z) (colCount : Z) : Z * list Z :=
  match file with
  | [] => (colCount, [])
  | c :: rest =>
      if c =? NEWLINE then (colCount, rest)
      else count_columns rest (if c =? SEPARATOR then colCount + 1 else colCount)
  end.

(** The second loop: up to EOF, counting newlines. *)
Fixpoint count_rows (file : list Z) (rowCount : Z) : Z :=
  match file with
  | [] => rowCount
  | c :: rest => count_rows rest (if c =? NEWLINE then rowCount + 1 else rowCount)
  end.

(** The return code and, on success, [*width] and [*height]. *)
Definition GetMatrixSizeFromFile (file : option (list Z)) : Z * option (Z * Z) :=
  match file with
  | None => (CANNOT_OPEN_FILE, None)
  | Some bytes =>
      let '(colCount, rest) := count_columns bytes 0 in
      (SUCCESS, Some (colCount + 1, count_rows rest 0 + 1))
  end.

(** A text file: each line followed by a newline. *)
Definition file_of_lines (lines : list (list Z)) : list Z :=
  lines ≫= λ line, line ++ [NEWLINE].

Definition separators (line : list Z) : Z :=
  Z.of_nat (length (filter (λ c, c = SEPARATOR) line)).


(** The number of columns below [w] that no row has taken. *)
Definition free_columns (usedCols : list Z) (w : nat) : nat :=
  length (filter (λ c, rd usedCols c = 0) (seq 0 w)).


(** The cells (k, cols[0]), (k+1, cols[1]), ... as the solvers record them. *)
Definition path_cells (h : Heap) (m : Matrix) (k : nat) (cols : list nat)
    : list SelectedElement :=
  imap (λ i c, {| sel_row := Z.of_nat (k + i); sel_col := Z.of_nat c;
                  sel_value := cell h m (k + i) c |}) cols.

(** The column of each row holds the largest cell of that row among the
    columns the rows above have left free. *)
Definition row_maxima (h : Heap) (m : Matrix) (cols : list nat) : Prop :=
  ∀ r c c', cols !! r = Some c → Z.of_nat c' < width m → c' ∉ take r cols →
            cell h m r c' ≤ cell h m r c.

(** The greedy solver before row [r] when every row so far found a cell:
    row [i] took column [cols[i]]. *)
Record greedy_full (h : Heap) (m : Matrix) (r : nat) (st : GreedyState)
    (cols : list nat) : Prop := {
  gf_len : length cols = r;
  gf_sel : g_maxSelection st = path_cells h m 0 cols;
  gf_nodup : NoDup cols;
  gf_range : Forall (λ c, Z.of_nat c < width m) cols;
  gf_marks : ∀ c, rd (g_usedColumns st) c ≠ 0 ↔ c ∈ cols;
  gf_rows : ∀ i, (r ≤ i)%nat → rd (g_usedRows st) i = 0;
  gf_uclen : length (g_usedColumns st) = Z.to_nat (width m);
  gf_sum : g_maxSum st = path_sum h m 0 cols;
  gf_choice : row_maxima h m cols
}.


(** ** hungarian.c: the reduction passes, element by element *)

(** The elements [GetElementCol] finds in column [col], one row after the
    other. *)
Definition column_ptrs (m : Matrix) (col : nat) : list ptr :=
  omap (λ rowNode, GetElementCol (Some rowNode) (Z.of_nat col)) (head m).

(** What [SubtractRowMinima] does with the rows and [SubtractColumnMinima]
    with the columns: for one group of elements after the other, find the
    minimum of the group, then subtract it from each of its elements. *)
Definition subtract_minima (groups : list (list ptr)) (h : Heap) : Heap :=
  foldl (λ h g, foldl (subtract_at (foldl (min_step h) CInt.INT_MAX g)) h g) h groups.


(** The entry [ExtractFinalSolution] records for the cell at [rc]. *)
Definition selected_cell (h : Heap) (m : Matrix) (rc : nat * nat) : SelectedElement :=
  {| sel_row := Z.of_nat rc.1; sel_col := Z.of_nat rc.2; sel_value := cell h m rc.1 rc.2 |}.

(** The sum of [g] over the indices in [l]. *)
Definition sum_over (g : nat → Z) (l : list nat) : Z := foldr (λ x s, g x + s) 0 l.


(** A zero that is alone in its row and alone in its column. *)
Definition isolated_zero (h : Heap) (m : Matrix) (r0 c0 : nat) : Prop :=
  Z.of_nat r0 < height m ∧ Z.of_nat c0 < width m
  ∧ cell h m r0 c0 = 0
  ∧ (∀ r, Z.of_nat r < height m → cell h m r c0 = 0 → r = r0)
  ∧ (∀ c, Z.of_nat c < width m → cell h m r0 c = 0 → c = c0).


(** The elements a pass [for (row) for (col) if (cond) ...] over the cells of
    [m] touches, in the order it meets them. *)
Definition visited_ptrs (m : Matrix) (cond : nat → nat → bool) : list ptr :=
  seq 0 (Z.to_nat (height m)) ≫= λ row,
    omap (λ col, if cond row col then cell_ptr m row col else None)
         (seq 0 (Z.to_nat (width m))).


(** No cell of [cells] in a row above [r] lies in column [c]. *)
Definition column_free (cells : list (nat * nat)) (r c : nat) : Prop :=
  ∀ r' c', (r', c') ∈ cells → (r' < r)%nat → c' ≠ c.

(** [(r, c)] is the first zero of row [r] of the final matrix, from the
    left, in a column no row above has taken. *)
Definition leftmost_free_zero (h : Heap) (final orig : Matrix) (cells : list (nat * nat))
    (r c : nat) : Prop :=
  Z.of_nat c < width orig ∧ cell h final r c = 0 ∧ column_free cells r c
  ∧ ∀ c', (c' < c)%nat → ¬ (cell h final r c' = 0 ∧ column_free cells r c').

(** The extraction before row [r]: the cells chosen so far, row by row. *)
Record extract_first (h : Heap) (orig final : Matrix) (r : nat) (st : ExtractState)
    (cells : list (nat * nat)) : Prop := {
  xf_chosen : e_chosen st = selected_cell h orig <$> cells;
  xf_sum : e_sum st = CInt.sum_from 0 (values (e_chosen st));
  xf_below : Forall (λ rc, (rc.1 < r)%nat ∧ Z.of_nat rc.2 < width orig) cells;
  xf_sorted : ∀ i j rc1 rc2, cells !! i = Some rc1 → cells !! j = Some rc2 →
                             (i < j)%nat → (rc1.1 < rc2.1)%nat;
  xf_length : length (e_coveredCols st) = Z.to_nat (width orig);
  xf_covered : ∀ c, rdb (e_coveredCols st) c = true ↔ c ∈ cells.*2;
  xf_first : ∀ r' c, (r' < r)%nat →
                     ((r', c) ∈ cells ↔ leftmost_free_zero h final orig cells r' c)
}.


(** ** backtrack.c: the placement behind the recorded selection *)

(** The column marks after the rows [k], [k+1], ... took the columns
    [cols]. *)
Fixpoint mark_path (usedCols : list Z) (k : nat) (cols : list nat) : list Z :=
  match cols with
  | [] => usedCols
  | c :: cols' => mark_path (<[c := Z.of_nat k + 1]> usedCols) (S k) cols'
  end.

(** The row that took column [c] in the placement [cols], if any. *)
Fixpoint row_of (cols : list nat) (c : nat) : option nat :=
  match cols with
  | [] => None
  | x :: cols' => if decide (x = c) then Some 0%nat else S <$> row_of cols' c
  end.

(** The cells of a placement with rows and columns exchanged: for every
    column [c] below the height that a row [r] took, the cell in row [c] and
    column [r]. *)
Definition transposed (h : Heap) (m : Matrix) (cols : list nat) : list SelectedElement :=
  omap (λ c, (λ r, selected_cell h m (c, r)) <$> row_of cols c)
       (seq 0 (Z.to_nat (height m))).


(** ** matrix_io.c: [PopulateMatrixFromFile]

    The file is given as the loops see it: nothing when [fopen] fails;
    otherwise, for each line [fgets] delivers, the values [atoi] returns for
    the tokens [strtok_s] cuts out of that line. *)

Definition NULL_POINTER : Z := -9.

(** [row], [col] and the matrix cells live across the lines. *)
Record PopulateState := { p_heap : Heap; p_row : Z; p_col : Z }.

(** The inner [while (token != NULL)]; [Failure code] is the early
    [return code]. *)
Fixpoint populate_tokens (m : Matrix) (tokens : list Z) (st : PopulateState)
    : Outcome PopulateState :=
  match tokens with
  | [] => Success st
  | value :: rest =>
      if (height m <=? p_row st) || (width m <=? p_col st) then Failure OUT_OF_BOUNDS
      else
        match ReplaceValueAtPosition (p_heap st) m (p_row st) (p_col st) value with
        | NullDereference => NullDereference
        | replaced =>
            let h' := match replaced with Success h' => h' | _ => p_heap st end in
            let col := p_col st + 1 in
            if col =? width m
            then populate_tokens m rest {| p_heap := h'; p_row := p_row st + 1; p_col := 0 |}
            else populate_tokens m rest {| p_heap := h'; p_row := p_row st; p_col := col |}
        end
  end.

(** The outer [while (fgets(...))]. *)
Fixpoint populate_lines (m : Matrix) (lines : list (list Z)) (st : PopulateState)
    : Outcome PopulateState :=
  match lines with
  | [] => Success st
  | line :: rest =>
      match populate_tokens m line st with
      | Success st' => populate_lines m rest st'
      | failed => failed
      end
  end.

Definition PopulateMatrixFromFile (h : Heap) (matrix : option Matrix)
    (file : option (list (list Z))) : Outcome Heap :=
  match matrix with
  | None => Failure NULL_POINTER
  | Some m =>
      match file with
      | None => Failure CANNOT_OPEN_FILE
      | Some lines =>
          match populate_lines m lines {| p_heap := h; p_row := 0; p_col := 0 |} with
          | Success st => Success (p_heap st)
          | Failure code => Failure code
          | Exits code => Exits code
          | NullDereference => NullDereference
          | OutOfFuel => OutOfFuel
          end
      end
  end.

(** The loops of [PopulateMatrixFromFile] after the tokens [done]: the
    counters stand behind the last token, the tokens lie in the matrix row by
    row, and the cells behind them are those of [h0]. *)
Record populate_inv (h0 : Heap) (m : Matrix) (st : PopulateState) (done : list Z)
    : Prop := {
  pi_wf : well_formed (p_heap st) m;
  pi_col : 0 ≤ p_col st < width m;
  pi_row : 0 ≤ p_row st;
  pi_bound : p_row st < height m ∨ (p_row st = height m ∧ p_col st = 0);
  pi_count : Z.of_nat (length done) = p_row st * width m + p_col st;
  pi_written : ∀ r c v, Z.of_nat c < width m →
                        done !! (r * Z.to_nat (width m) + c)%nat = Some v →
                        cell (p_heap st) m r c = v;
  pi_rest : ∀ r c, Z.of_nat c < width m →
                   (length done ≤ r * Z.to_nat (width m) + c)%nat →
                   cell (p_heap st) m r c = cell h0 m r c
}.


(** * Properties *)

(** ** Arrays and accessors *)

Lemma rd_insert (a : list Z) (i j : nat) (v : Z) :
  rd (<[i := v]> a) j = if decide (i = j ∧ (i < length a)%nat) then v else rd a j.
Proof.
  unfold rd. rewrite list_lookup_insert.
  destruct (decide (i = j ∧ (i < length a)%nat)) as [[-> Hlt]|Hn]; [done|].
  reflexivity.
Qed.

Lemma rdb_insert (a : list bool) (i j : nat) (v : bool) :
  rdb (<[i := v]> a) j = if decide (i = j ∧ (i < length a)%nat) then v else rdb a j.
Proof.
  unfold rdb. rewrite list_lookup_insert.
  destruct (decide (i = j ∧ (i < length a)%nat)) as [[-> Hlt]|Hn]; [done|].
  reflexivity.
Qed.

Lemma wf_row_spec h w rn : wf_row h w rn = true → row_ok h w rn.
Proof.
  unfold wf_row. intros [Hlen Hcols]%andb_true_iff.
  apply bool_decide_eq_true in Hlen. split; [done|].
  intros c p Hp.
  rewrite forallb_forall in Hcols.
  specialize (Hcols (c, p)). simpl in Hcols.
  eapply bool_decide_eq_true_1, Hcols, list_elem_of_In.
  by apply (elem_of_lookup_imap_2 pair).
Qed.

Lemma wf_matrix_spec h m : wf_matrix h m = true → well_formed h m.
Proof.
  unfold wf_matrix. intros [[[Hw Hh]%andb_true_iff Hlen]%andb_true_iff Hrows]%andb_true_iff.
  apply Z.ltb_lt in Hw, Hh. apply bool_decide_eq_true in Hlen.
  split; try done.
  apply Forall_forall. intros rn Hrn.
  rewrite forallb_forall in Hrows.
  apply wf_row_spec, Hrows, list_elem_of_In, Hrn.
Qed.

Lemma cell_ptr_lookup m r c rn :
  Z.of_nat (length (head m)) = height m →
  head m !! r = Some rn → cell_ptr m r c = row rn !! c.
Proof.
  intros Hlen Hr. unfold cell_ptr, GetRowNode, GetElementCol.
  apply lookup_lt_Some in Hr as Hlt.
  destruct (Z.ltb_spec (Z.of_nat r) 0); [lia|].
  destruct (Z.leb_spec (height m) (Z.of_nat r)); [lia|]. simpl.
  rewrite Nat2Z.id, Hr.
  destruct (Z.ltb_spec (Z.of_nat c) 0); [lia|].
  by rewrite Nat2Z.id.
Qed.

Lemma elem_column_ok h p c : column <$> h !! p = Some c → elem_column h p = c.
Proof. unfold elem_column. by intros ->. Qed.

Lemma bounded_NoDup_length (l : list Z) (n : Z) :
  0 ≤ n → NoDup l → Forall (λ x, 0 ≤ x < n) l → Z.of_nat (length l) ≤ n.
Proof.
  intros Hn Hnd Hall.
  assert (l ⊆+ seqZ 0 n) as Hsub.
  { apply NoDup_submseteq; [done|]. intros x Hx.
    rewrite Forall_forall in Hall. apply elem_of_seqZ. specialize (Hall x Hx). lia. }
  apply submseteq_length in Hsub. rewrite length_seqZ in Hsub. lia.
Qed.

Lemma sum_from_snoc acc vs v :
  CInt.sum_from acc (vs ++ [v]) = CInt.add (CInt.sum_from acc vs) v.
Proof. unfold CInt.sum_from. by rewrite foldl_app. Qed.

(** ** greedy.c *)

(** What the scan of a row returns: either what it started from, or an
    element of the row that passed the three tests. *)
Lemma greedy_scan_spec h ur uc ri elems mv me :
  greedy_scan h ur uc ri elems mv me = (mv, me)
  ∨ ∃ p, p ∈ elems
         ∧ greedy_scan h ur uc ri elems mv me = (elem_value h p, Some p)
         ∧ mv < elem_value h p
         ∧ rd uc (Z.to_nat (elem_column h p)) = 0.
Proof.
  revert mv me. induction elems as [|p elems IH]; intros mv me; simpl; [by left|].
  destruct (rd ur ri =? 0) eqn:Hr; simpl; [|
    destruct (IH mv me) as [?|(q & ? & ? & ? & ?)]; [by left|];
    right; exists q; split_and!; try done; by apply list_elem_of_further].
  destruct (Z.eqb_spec (rd uc (Z.to_nat (elem_column h p))) 0) as [Hc|Hc]; simpl; [|
    destruct (IH mv me) as [?|(q & ? & ? & ? & ?)]; [by left|];
    right; exists q; split_and!; try done; by apply list_elem_of_further].
  destruct (Z.gtb_spec (elem_value h p) mv) as [Hv|Hv]; [|
    destruct (IH mv me) as [?|(q & ? & ? & ? & ?)]; [by left|];
    right; exists q; split_and!; try done; by apply list_elem_of_further].
  right. destruct (IH (elem_value h p) (Some p)) as [Heq|(q & Hq & Heq & Hlt & Hfree)].
  - exists p. split_and!; [apply list_elem_of_here | done | lia | done].
  - exists q. split_and!; [by apply list_elem_of_further | done | lia | done].
Qed.

Lemma greedy_row_unchanged h rn ri st :
  snd (greedy_scan h (g_usedRows st) (g_usedColumns st) ri (row rn) CInt.INT_MIN None) = None →
  greedy_row h rn ri st = st.
Proof. unfold greedy_row. by intros ->. Qed.

Lemma greedy_inv_weaken w ri st : greedy_inv w ri st → greedy_inv w (S ri) st.
Proof.
  intros [Hc Hr Hk Hl]. split; try done.
  eapply Forall_impl; [exact Hc|]. simpl. intros e ?. lia.
Qed.

Lemma greedy_row_inv h w rn ri st :
  row_ok h w rn → greedy_inv w ri st → greedy_inv w (S ri) (greedy_row h rn ri st).
Proof.
  intros [Hlen Hcol] Hinv.
  destruct (greedy_scan_spec h (g_usedRows st) (g_usedColumns st) ri (row rn)
              CInt.INT_MIN None) as [Heq|(p & Hp & Heq & _ & Hfree)].
  { rewrite greedy_row_unchanged; [by apply greedy_inv_weaken | by rewrite Heq]. }
  apply list_elem_of_lookup in Hp as [c Hc].
  pose proof (lookup_lt_Some _ _ _ Hc) as Hlt.
  rewrite (elem_column_ok _ _ _ (Hcol _ _ Hc)), Nat2Z.id in Hfree.
  destruct Hinv as [Hcells Hrows Hcols Hlength].
  unfold greedy_row. rewrite Heq. simpl.
  rewrite (elem_column_ok _ _ _ (Hcol _ _ Hc)), Nat2Z.id.
  split; simpl.
  - apply Forall_app. split.
    + eapply Forall_impl; [exact Hcells|]. simpl. intros e (? & ? & Hused).
      split_and!; try lia. rewrite rd_insert. case_decide; [lia | done].
    + apply Forall_singleton. simpl. split_and!; try lia.
      rewrite Nat2Z.id, rd_insert. case_decide; [lia|]. lia.
  - rewrite fmap_app. apply NoDup_app. split_and!; [done| |apply NoDup_singleton].
    intros x Hx. simpl. rewrite list_elem_of_singleton.
    apply list_elem_of_fmap in Hx as (e & -> & He).
    rewrite Forall_forall in Hcells. specialize (Hcells e He). lia.
  - rewrite fmap_app. apply NoDup_app. split_and!; [done| |apply NoDup_singleton].
    intros x Hx. simpl. rewrite list_elem_of_singleton.
    apply list_elem_of_fmap in Hx as (e & -> & He).
    rewrite Forall_forall in Hcells. destruct (Hcells e He) as (_ & _ & Hused).
    intros Heqc. rewrite Heqc, Nat2Z.id in Hused. done.
  - by rewrite length_insert.
Qed.

Lemma greedy_rows_inv h w rows ri st :
  Forall (row_ok h w) rows → greedy_inv w ri st →
  greedy_inv w (ri + length rows) (greedy_rows h rows ri st).
Proof.
  revert ri st. induction rows as [|rn rows IH]; intros ri st Hok Hinv; simpl.
  { by rewrite Nat.add_0_r. }
  apply Forall_cons in Hok as [Hrn Hrows].
  replace (ri + S (length rows))%nat with (S ri + length rows)%nat by lia.
  apply IH; [done|]. by apply greedy_row_inv.
Qed.

Lemma greedy_inv_valid m st :
  0 < width m → 0 < height m →
  greedy_inv (width m) (Z.to_nat (height m)) st → valid_selection m (g_maxSelection st).
Proof.
  intros Hw Hh [Hcells Hrows Hcols _]. split_and!; try done.
  apply Z.min_glb.
  - rewrite <- (length_fmap sel_col). apply bounded_NoDup_length; [lia|done|].
    apply Forall_fmap. eapply Forall_impl; [exact Hcells|]. simpl. intros e ?. lia.
  - rewrite <- (length_fmap sel_row). apply bounded_NoDup_length; [lia|done|].
    apply Forall_fmap. eapply Forall_impl; [exact Hcells|]. simpl. intros e ?. lia.
Qed.

Lemma calloc_Some {A} (zero : A) n :
  0 ≤ n → calloc zero n = Some (replicate (Z.to_nat n) zero).
Proof. intros Hn. unfold calloc. destruct (Z.ltb_spec n 0); [lia | done]. Qed.

(** On a well-formed matrix the greedy solver returns, and what it returns
    is a valid selection. *)
Lemma GreedyAlgorithm_valid h m :
  well_formed h m →
  ∃ sol, GreedyAlgorithm h (Some m) = Success sol ∧ valid_selection m (selection sol).
Proof.
  intros [Hw Hh Hlen Hrows]. unfold GreedyAlgorithm.
  destruct (Z.leb_spec (width m) 0); [lia|].
  rewrite !calloc_Some by lia.
  eexists. split; [reflexivity|]. simpl.
  apply greedy_inv_valid; try done.
  replace (Z.to_nat (height m)) with (0 + length (head m))%nat by lia.
  apply greedy_rows_inv; [done|].
  split; simpl; [constructor|constructor|constructor|].
  by rewrite length_replicate.
Qed.

(** The running sum is the sum of the values stored so far. *)
Lemma greedy_row_sum h rn ri st :
  g_maxSum st = CInt.sum_from 0 (values (g_maxSelection st)) →
  g_maxSum (greedy_row h rn ri st)
  = CInt.sum_from 0 (values (g_maxSelection (greedy_row h rn ri st))).
Proof.
  intros Hsum. unfold greedy_row.
  destruct (snd _) as [p|]; [|done]. simpl.
  unfold values in *. rewrite fmap_app. simpl. rewrite sum_from_snoc. by rewrite <- Hsum.
Qed.

Lemma greedy_rows_sum h rows ri st :
  g_maxSum st = CInt.sum_from 0 (values (g_maxSelection st)) →
  g_maxSum (greedy_rows h rows ri st)
  = CInt.sum_from 0 (values (g_maxSelection (greedy_rows h rows ri st))).
Proof.
  revert ri st. induction rows as [|rn rows IH]; intros ri st Hsum; simpl; [done|].
  apply IH. by apply greedy_row_sum.
Qed.

Lemma GreedyAlgorithm_sum h matrix sol :
  GreedyAlgorithm h matrix = Success sol →
  sum sol = CInt.sum_from 0 (values (selection sol)).
Proof.
  unfold GreedyAlgorithm. destruct matrix as [m|]; [|done].
  destruct (width m <=? 0); [done|].
  destruct (calloc 0 (height m)) as [ur|]; [|done].
  destruct (calloc 0 (width m)) as [uc|]; [|done].
  intros [= <-]. simpl. by apply greedy_rows_sum.
Qed.

Lemma greedy_rows_app h rows1 rows2 ri st :
  greedy_rows h (rows1 ++ rows2) ri st
  = greedy_rows h rows2 (ri + length rows1) (greedy_rows h rows1 ri st).
Proof.
  revert ri st. induction rows1 as [|rn rows1 IH]; intros ri st; simpl.
  { by rewrite Nat.add_0_r. }
  rewrite IH. f_equal. lia.
Qed.

(** Every cell the rows from [ri] on add lies in one of these rows and holds
    more than [INT_MIN]. *)
Lemma greedy_rows_new h rows ri st e :
  e ∈ g_maxSelection (greedy_rows h rows ri st) →
  e ∈ g_maxSelection st
  ∨ (Z.of_nat ri ≤ sel_row e < Z.of_nat (ri + length rows) ∧ CInt.INT_MIN < sel_value e).
Proof.
  revert ri st. induction rows as [|rn rows IH]; intros ri st He; simpl in *; [by left|].
  apply IH in He as [He|He]; [|right; lia].
  unfold greedy_row in He.
  destruct (greedy_scan_spec h (g_usedRows st) (g_usedColumns st) ri (row rn)
              CInt.INT_MIN None) as [Heq|(p & Hp & Heq & Hlt & Hfree)];
    rewrite Heq in He; simpl in He; [by left|].
  apply elem_of_app in He as [He|He]; [by left|].
  apply list_elem_of_singleton in He as ->. simpl. right. lia.
Qed.

(** C10: the greedy solver never selects a cell that holds INT_MIN, and a row
    whose free columns all hold INT_MIN contributes no cell, whether or not a
    column is still free. *)
Theorem greedy_never_selects_INT_MIN h m sol :
  GreedyAlgorithm h (Some m) = Success sol →
  (∀ e, e ∈ selection sol → sel_value e ≠ CInt.INT_MIN)
  ∧ (∀ r rn,
       head m !! r = Some rn →
       (∀ p, p ∈ row rn →
             rd (g_usedColumns (greedy_before h m r)) (Z.to_nat (elem_column h p)) = 0 →
             elem_value h p = CInt.INT_MIN) →
       ∀ e, e ∈ selection sol → sel_row e ≠ Z.of_nat r).
Proof.
  unfold GreedyAlgorithm.
  destruct (width m <=? 0); [done|].
  destruct (calloc 0 (height m)) as [ur|] eqn:Hur; [|done].
  destruct (calloc 0 (width m)) as [uc|] eqn:Huc; [|done].
  intros [= <-]. simpl. split.
  - intros e He. apply greedy_rows_new in He as [He|He]; simpl in He.
    + by apply elem_of_nil in He.
    + lia.
  - intros r rn Hr Hrow e He.
    unfold greedy_before in Hrow. rewrite Hur, Huc in Hrow. simpl in Hrow.
    rewrite <- (take_drop_middle _ _ _ Hr), greedy_rows_app in He. simpl in He.
    pose proof (lookup_lt_Some _ _ _ Hr) as Hlt.
    rewrite length_take, Nat.min_l in He by lia. simpl in He.
    set (st := greedy_rows h (take r (head m)) 0 _) in *.
    rewrite greedy_row_unchanged in He.
    + apply greedy_rows_new in He as [He|He]; [|lia].
      apply greedy_rows_new in He as [He|He]; simpl in He.
      * by apply elem_of_nil in He.
      * rewrite length_take in He. lia.
    + destruct (greedy_scan_spec h (g_usedRows st) (g_usedColumns st) r (row rn)
                  CInt.INT_MIN None) as [Heq|(p & Hp & Heq & Hgt & Hfree)];
        [by rewrite Heq|].
      specialize (Hrow p Hp Hfree). lia.
Qed.

Lemma greedy_never_selects_INT_MIN_witness :
  (∀ e, e ∈ [{| sel_row := 0; sel_col := 0; sel_value := 5 |}] →
        sel_value e ≠ CInt.INT_MIN)
  ∧ (∀ e, e ∈ [{| sel_row := 0; sel_col := 0; sel_value := 5 |}] → sel_row e ≠ 1).
Proof.
  destruct (greedy_never_selects_INT_MIN m_intmin.1 m_intmin.2
              {| sum := 5; selection := [{| sel_row := 0; sel_col := 0; sel_value := 5 |}] |}
              eq_refl) as [Hvalue Hrow].
  split; [exact Hvalue|].
  apply (Hrow 1%nat {| row := [2%nat; 3%nat] |} eq_refl).
  intros p Hp Hfree.
  apply elem_of_cons in Hp as [->|Hp]; [vm_compute in Hfree; discriminate|].
  apply list_elem_of_singleton in Hp as ->. reflexivity.
Defined.

(** ** backtrack.c *)

Lemma Explore_unfold fuel h m currentRow currentSum st :
  Explore fuel h m currentRow currentSum st =
  if Z.of_nat currentRow =? height m then
    if currentSum >? maxSum st
    then CopySelectedValues h m (set_maxSum currentSum st)
    else st
  else
    match fuel with
    | O => st
    | S fuel' =>
        foldl (λ st (i : nat),
                 if (rd (usedRows st) currentRow =? 0) && (rd (usedColumns st) i =? 0) then
                   let st1 := set_used currentRow 1 i (Z.of_nat currentRow + 1) st in
                   let st2 := Explore fuel' h m (S currentRow)
                                (CInt.add currentSum (cell h m currentRow i)) st1 in
                   set_used currentRow 0 i 0 st2
                 else st)
              st (seq 0 (Z.to_nat (width m)))
    end.
Proof. by destruct fuel. Qed.

Lemma rd_nonzero_lt (a : list Z) i : rd a i ≠ 0 → (i < length a)%nat.
Proof.
  unfold rd. intros Hnz. apply lookup_lt_is_Some.
  destruct (a !! i); [by eexists | done].
Qed.

Lemma insert_restore (a : list Z) i v : rd a i = 0 → <[i := 0]> (<[i := v]> a) = a.
Proof.
  intros Hz. rewrite list_insert_insert_eq. apply list_insert_id'.
  intros Hlt. apply lookup_lt_is_Some in Hlt as [x Hx].
  unfold rd in Hz. rewrite Hx in Hz. simpl in Hz. by subst.
Qed.

Lemma copy_selected_app h m uc idxs written :
  copy_selected h m uc idxs written = written ++ copy_selected h m uc idxs [].
Proof.
  revert written. induction idxs as [|i idxs IH]; intros written; simpl.
  { by rewrite app_nil_r. }
  destruct (rd uc i =? 0); [done|].
  rewrite IH, (IH [_]). by rewrite app_assoc.
Qed.

Lemma copy_selected_rows h m uc idxs :
  sel_row <$> copy_selected h m uc idxs []
  = Z.of_nat <$> filter (λ i, rd uc i ≠ 0) idxs.
Proof.
  induction idxs as [|i idxs IH]; simpl; [done|].
  rewrite filter_cons. destruct (Z.eqb_spec (rd uc i) 0) as [Hz|Hz].
  - by rewrite decide_False by (intros ?; done).
  - rewrite decide_True by done.
    rewrite copy_selected_app, fmap_app, IH. done.
Qed.

Lemma copy_selected_cols h m uc idxs :
  sel_col <$> copy_selected h m uc idxs []
  = (λ i, rd uc i - 1) <$> filter (λ i, rd uc i ≠ 0) idxs.
Proof.
  induction idxs as [|i idxs IH]; simpl; [done|].
  rewrite filter_cons. destruct (Z.eqb_spec (rd uc i) 0) as [Hz|Hz].
  - by rewrite decide_False by (intros ?; done).
  - rewrite decide_True by done.
    rewrite copy_selected_app, fmap_app, IH. done.
Qed.

(** Whatever [CopySelectedValues] writes from distinct marks is a valid
    selection. *)
Lemma copy_selected_valid h m k uc :
  0 < width m → 0 < height m →
  explore_inv k uc → length uc = Z.to_nat (width m) →
  valid_selection m (copy_selected h m uc (seq 0 (Z.to_nat (height m))) []).
Proof.
  intros Hw Hh [Hrange Hdist] Hlen.
  assert (NoDup (filter (λ i, rd uc i ≠ 0) (seq 0 (Z.to_nat (height m))))) as Hnd
    by apply NoDup_filter, NoDup_seq.
  assert (NoDup (sel_row <$> copy_selected h m uc (seq 0 (Z.to_nat (height m))) [])) as Hrows.
  { rewrite copy_selected_rows. by apply (NoDup_fmap_2 Z.of_nat). }
  split_and!; [done| |].
  - rewrite copy_selected_cols. apply NoDup_fmap_2_strong; [|done].
    intros i j Hi _ Heq. apply list_elem_of_filter in Hi as [Hi _].
    apply Hdist; [done|lia].
  - rewrite <- (length_fmap sel_row).
    apply bounded_NoDup_length; [lia|done|].
    rewrite copy_selected_rows. apply Forall_fmap, Forall_forall.
    intros i [Hnz Hi]%list_elem_of_filter. simpl.
    apply elem_of_seq in Hi. apply rd_nonzero_lt in Hnz. lia.
Qed.

Lemma explore_inv_mark k uc i :
  explore_inv k uc → rd uc i = 0 →
  explore_inv (S k) (<[i := Z.of_nat k + 1]> uc).
Proof.
  intros [Hrange Hdist] Hfree. split.
  - intros c. rewrite rd_insert. case_decide; [lia|].
    destruct (Hrange c); [by left | right; lia].
  - intros c c'. rewrite !rd_insert.
    repeat case_decide; intros Hnz Heq.
    + destruct_and!. congruence.
    + destruct (Hrange c'); lia.
    + destruct (Hrange c); lia.
    + by apply Hdist.
Qed.

(** [Explore] restores the marks it sets, and whatever it leaves in
    [selectionValues] is a valid selection. *)
Lemma Explore_inv h m :
  0 < width m → 0 < height m →
  ∀ fuel k currentSum st,
    explore_inv k (usedColumns st) →
    length (usedColumns st) = Z.to_nat (width m) →
    valid_selection m (selectionValues st) →
    usedRows (Explore fuel h m k currentSum st) = usedRows st
    ∧ usedColumns (Explore fuel h m k currentSum st) = usedColumns st
    ∧ valid_selection m (selectionValues (Explore fuel h m k currentSum st)).
Proof.
  intros Hw Hh fuel.
  induction fuel as [|fuel IH]; intros k currentSum st Hinv Hlen Hvalid;
    rewrite Explore_unfold.
  - destruct (_ =? height m); [|done].
    destruct (_ >? _); [|done]. simpl. split_and!; try done.
    by eapply copy_selected_valid.
  - destruct (_ =? height m).
    { destruct (_ >? _); [|done]. simpl. split_and!; try done.
      by eapply copy_selected_valid. }
    generalize (seq 0 (Z.to_nat (width m))). intros cols.
    match goal with |- context [foldl ?f _ _] => set (body := f) end.
    assert (∀ st' i,
              usedRows st' = usedRows st → usedColumns st' = usedColumns st →
              valid_selection m (selectionValues st') →
              usedRows (body st' i) = usedRows st
              ∧ usedColumns (body st' i) = usedColumns st
              ∧ valid_selection m (selectionValues (body st' i))) as Hbody.
    { intros st' i Hur Huc Hv. unfold body.
      destruct (Z.eqb_spec (rd (usedRows st') k) 0) as [Hr|]; simpl; [|done].
      destruct (Z.eqb_spec (rd (usedColumns st') i) 0) as [Hc|]; simpl; [|done].
      destruct (IH (S k) (CInt.add currentSum (cell h m k i))
                  (set_used k 1 i (Z.of_nat k + 1) st')) as (-> & -> & Hv'); simpl.
      - apply explore_inv_mark; [by rewrite Huc | done].
      - by rewrite length_insert, Huc.
      - done.
      - rewrite !insert_restore by done. done. }
    clearbody body.
    assert (∀ st',
              usedRows st' = usedRows st → usedColumns st' = usedColumns st →
              valid_selection m (selectionValues st') →
              usedRows (foldl body st' cols) = usedRows st
              ∧ usedColumns (foldl body st' cols) = usedColumns st
              ∧ valid_selection m (selectionValues (foldl body st' cols))) as Hloop.
    { induction cols as [|i cols IHc]; intros st' Hur Huc Hv; simpl; [done|].
      destruct (Hbody st' i Hur Huc Hv) as (? & ? & ?). by apply IHc. }
    by apply Hloop.
Qed.

(** The fuel [BacktrackAlgorithm] passes is enough: with at least one unit
    per remaining row, [Explore] does not depend on the fuel. *)
Lemma Explore_fuel h m fuel1 fuel2 k currentSum st :
  (Z.to_nat (height m) - k ≤ fuel1)%nat → (Z.to_nat (height m) - k ≤ fuel2)%nat →
  Z.of_nat k ≤ height m →
  Explore fuel1 h m k currentSum st = Explore fuel2 h m k currentSum st.
Proof.
  revert fuel2 k currentSum st.
  induction fuel1 as [|fuel1 IH]; intros fuel2 k currentSum st H1 H2 Hk;
    rewrite !Explore_unfold;
    destruct (Z.eqb_spec (Z.of_nat k) (height m)) as [Heq|Hne]; try done; try lia.
  destruct fuel2 as [|fuel2]; [lia|].
  generalize (seq 0 (Z.to_nat (width m))). intros cols. revert st.
  induction cols as [|i cols IHc]; intros st; simpl; [done|].
  rewrite (IH fuel2 (S k)) by lia. apply IHc.
Qed.

(** A product of positive dimensions that fits in [int] is a count the third
    allocation of [BacktrackAlgorithm] accepts. *)
Lemma mul_fits a b :
  0 < a → 0 < b → a * b ≤ CInt.INT_MAX → (CInt.mul a b <? 0) = false.
Proof.
  unfold CInt.INT_MAX, CInt.mul, CInt.wrap. intros Ha Hb Hab.
  apply Z.ltb_ge. rewrite Z.mod_small; nia.
Qed.

(** What the exhaustive solver returns, when it returns, is a valid
    selection. *)
Lemma BacktrackAlgorithm_valid h m sol :
  BacktrackAlgorithm h (Some m) = Success sol → valid_selection m (selection sol).
Proof.
  unfold BacktrackAlgorithm.
  destruct (Z.leb_spec (width m) 0); [done|].
  destruct (Z.leb_spec (height m) 0); [done|]. simpl.
  rewrite !calloc_Some by lia.
  destruct (CInt.mul _ _ <? 0); [done|].
  intros [= <-]. simpl.
  apply Explore_inv; simpl; try done.
  - split.
    + intros c. left. unfold rd. destruct (replicate _ _ !! c) eqn:Hc; [|done].
      by apply lookup_replicate in Hc as [-> _].
    + intros c c' Hnz. exfalso. apply Hnz. unfold rd.
      destruct (replicate _ _ !! c) eqn:Hc; [|done].
      by apply lookup_replicate in Hc as [-> _].
  - by rewrite length_replicate.
  - split_and!; simpl; [constructor|constructor|lia].
Qed.

(** On positive dimensions whose product fits in [int] the exhaustive solver
    returns. *)
Lemma BacktrackAlgorithm_returns h m :
  0 < width m → 0 < height m → height m * width m ≤ CInt.INT_MAX →
  ∃ sol, BacktrackAlgorithm h (Some m) = Success sol.
Proof.
  intros Hw Hh Hfit. unfold BacktrackAlgorithm.
  destruct (Z.leb_spec (width m) 0); [lia|].
  destruct (Z.leb_spec (height m) 0); [lia|]. simpl.
  rewrite !calloc_Some by lia.
  rewrite mul_fits by done. by eexists.
Qed.

(** When the product of the dimensions wraps below zero the third allocation
    fails, and the solver with it. *)
Lemma BacktrackAlgorithm_allocation_fails h m :
  0 < width m → 0 < height m → CInt.mul (height m) (width m) < 0 →
  BacktrackAlgorithm h (Some m) = Failure MEMORY_ALLOCATION_FAILURE.
Proof.
  intros Hw Hh Hneg. unfold BacktrackAlgorithm.
  destruct (Z.leb_spec (width m) 0); [lia|].
  destruct (Z.leb_spec (height m) 0); [lia|]. simpl.
  rewrite !calloc_Some by lia.
  by destruct (Z.ltb_spec (CInt.mul (height m) (width m)) 0); [|lia].
Qed.

(** ** hungarian.c: extraction *)

(** The scan of a row either claims nothing or claims one column that was
    free and holds a zero of the final matrix. *)
Lemma extract_scan_spec h orig final r cols st :
  extract_scan h orig final r cols st = st
  ∨ ∃ c, c ∈ cols ∧ rdb (e_coveredCols st) c = false ∧ cell h final r c = 0
         ∧ extract_scan h orig final r cols st
           = {| e_sum := CInt.add (e_sum st) (cell h orig r c);
                e_chosen := e_chosen st ++
                  [{| sel_row := Z.of_nat r; sel_col := Z.of_nat c;
                      sel_value := cell h orig r c |}];
                e_coveredCols := <[c := true]> (e_coveredCols st) |}.
Proof.
  induction cols as [|c cols IH]; simpl; [by left|].
  destruct (Z.eqb_spec (cell h final r c) 0) as [Hz|Hz]; simpl.
  - destruct (rdb (e_coveredCols st) c) eqn:Hcov; simpl.
    + destruct IH as [?|(c' & ? & ?)]; [by left|].
      right. exists c'. split; [by apply list_elem_of_further | done].
    + right. exists c. split_and!; try done. apply list_elem_of_here.
  - destruct IH as [?|(c' & ? & ?)]; [by left|].
    right. exists c'. split; [by apply list_elem_of_further | done].
Qed.

Lemma extract_inv_weaken w r st : extract_inv w r st → extract_inv w (S r) st.
Proof.
  intros [Hc ? ? ? ?]. split; try done.
  eapply Forall_impl; [exact Hc|]. simpl. intros e (? & ? & ?).
  split_and!; try done; lia.
Qed.

Lemma extract_scan_inv h orig final r st :
  extract_inv (width orig) r st →
  extract_inv (width orig) (S r)
    (extract_scan h orig final r (seq 0 (Z.to_nat (width orig))) st).
Proof.
  intros Hinv.
  destruct (extract_scan_spec h orig final r (seq 0 (Z.to_nat (width orig))) st)
    as [->|(c & Hc & Hfree & _ & ->)]; [by apply extract_inv_weaken|].
  apply elem_of_seq in Hc.
  destruct Hinv as [Hcells Hrows Hcols Hlength Hsum].
  split; simpl.
  - apply Forall_app. split.
    + eapply Forall_impl; [exact Hcells|]. simpl. intros e (? & ? & Hused).
      split_and!; try lia. rewrite rdb_insert. by case_decide.
    + apply Forall_singleton. simpl. split_and!; try lia.
      rewrite Nat2Z.id, rdb_insert. case_decide; [done|lia].
  - rewrite fmap_app. apply NoDup_app. split_and!; [done| |apply NoDup_singleton].
    intros x Hx. simpl. rewrite list_elem_of_singleton.
    apply list_elem_of_fmap in Hx as (e & -> & He).
    rewrite Forall_forall in Hcells. specialize (Hcells e He). lia.
  - rewrite fmap_app. apply NoDup_app. split_and!; [done| |apply NoDup_singleton].
    intros x Hx. simpl. rewrite list_elem_of_singleton.
    apply list_elem_of_fmap in Hx as (e & -> & He).
    rewrite Forall_forall in Hcells. destruct (Hcells e He) as (_ & _ & Hused).
    intros Heqc. rewrite Heqc, Nat2Z.id in Hused. congruence.
  - by rewrite length_insert.
  - unfold values in *. rewrite fmap_app. simpl. by rewrite sum_from_snoc, <- Hsum.
Qed.

Lemma extract_rows_inv h orig final n r st :
  extract_inv (width orig) r st →
  extract_inv (width orig) (r + n) (extract_rows h orig final (seq r n) st).
Proof.
  revert r st. induction n as [|n IH]; intros r st Hinv; simpl.
  { by rewrite Nat.add_0_r. }
  replace (r + S n)%nat with (S r + n)%nat by lia.
  apply IH. by apply extract_scan_inv.
Qed.

Lemma extract_inv_valid m r st :
  0 ≤ width m → Z.of_nat r ≤ height m →
  extract_inv (width m) r st → valid_selection m (e_chosen st).
Proof.
  intros Hw Hh [Hcells Hrows Hcols _ _]. split_and!; try done.
  apply Z.min_glb.
  - rewrite <- (length_fmap sel_col). apply bounded_NoDup_length; [lia|done|].
    apply Forall_fmap. eapply Forall_impl; [exact Hcells|]. simpl. intros e ?. lia.
  - rewrite <- (length_fmap sel_row). apply bounded_NoDup_length; [lia|done|].
    apply Forall_fmap. eapply Forall_impl; [exact Hcells|]. simpl. intros e ?. lia.
Qed.

Lemma extract_init_inv w : 0 ≤ w →
  extract_inv w 0 {| e_sum := 0; e_chosen := [];
                     e_coveredCols := replicate (Z.to_nat w) false |}.
Proof.
  intros Hw. split; simpl; [constructor|constructor|constructor| |done].
  by rewrite length_replicate.
Qed.

(** The extraction never fails once its two arrays are allocated; it hands
    back a valid selection and the sum of its values. *)
Lemma ExtractFinalSolution_valid h orig final :
  0 ≤ width orig → 0 ≤ height orig →
  ∃ sol, ExtractFinalSolution h orig final = Success sol
         ∧ valid_selection orig (selection sol)
         ∧ sum sol = CInt.sum_from 0 (values (selection sol)).
Proof.
  intros Hw Hh. unfold ExtractFinalSolution.
  rewrite calloc_Some by done.
  destruct (Z.ltb_spec (height orig) 0); [lia|].
  eexists. split; [reflexivity|]. simpl.
  pose proof (extract_rows_inv h orig final (Z.to_nat (height orig)) 0 _
                (extract_init_inv (width orig) Hw)) as Hinv.
  split; [eapply extract_inv_valid; [done| |exact Hinv]; lia|].
  by destruct Hinv.
Qed.

Lemma ExtractFinalSolution_outcome h orig final :
  (∃ sol, ExtractFinalSolution h orig final = Success sol)
  ∨ ExtractFinalSolution h orig final = Failure MEMORY_ALLOCATION_FAILURE.
Proof.
  unfold ExtractFinalSolution.
  destruct (calloc false (width orig)); [|by right].
  destruct (height orig <? 0); [by right|]. left. by eexists.
Qed.

Lemma CopyMatrix_dims h m : width (CopyMatrix h m).2 = width m ∧ height (CopyMatrix h m).2 = height m.
Proof. unfold CopyMatrix. by destruct (copy_rows h (head m)). Qed.

(** What [HungarianAlgorithm] returns was produced by the extraction from
    some heap in which the copy passed the optimality test. *)
Lemma HungarianAlgorithm_Success fuel h m sol h' :
  HungarianAlgorithm fuel h (Some m) = Success (sol, h') →
  0 ≤ width m ∧ 0 ≤ height m
  ∧ hungarian_loop fuel (CopyMatrix h m).2
      (reduce (CopyMatrix h m).1 (CopyMatrix h m).2,
       replicate (Z.to_nat (height m)) false,
       replicate (Z.to_nat (width m)) false) = Some h'
  ∧ ExtractFinalSolution h' m (CopyMatrix h m).2 = Success sol.
Proof.
  unfold HungarianAlgorithm.
  destruct (CopyMatrix_dims h m) as [Hcw Hch].
  destruct (CopyMatrix h m) as [h0 copy]. simpl in *. rewrite Hcw, Hch.
  unfold calloc.
  destruct (Z.ltb_spec (height m) 0); [done|].
  destruct (Z.ltb_spec (width m) 0); [done|].
  destruct (hungarian_loop _ _ _) as [h2|]; [|done].
  destruct (ExtractFinalSolution h2 m copy) as [sol'| | | |] eqn:Hex; try done.
  intros [= -> ->]. done.
Qed.

Lemma HungarianAlgorithm_valid fuel h m sol h' :
  HungarianAlgorithm fuel h (Some m) = Success (sol, h') →
  valid_selection m (selection sol) ∧ sum sol = CInt.sum_from 0 (values (selection sol)).
Proof.
  intros (Hw & Hh & _ & Hex)%HungarianAlgorithm_Success.
  destruct (ExtractFinalSolution_valid h' m (CopyMatrix h m).2 Hw Hh) as (sol' & Hex' & ?).
  rewrite Hex in Hex'. by injection Hex' as ->.
Qed.

(** ** The three solvers return valid selections *)

(** C4: on a well-formed matrix the greedy solver returns a selection with
    pairwise distinct rows, pairwise distinct columns and at most min(W,H)
    cells; so does the exhaustive solver when the product of the dimensions,
    the count of its third allocation, fits in [int], and whatever it returns
    with SUCCESS is such a selection; and so is what the Hungarian solver
    returns whenever it returns. *)
Theorem selections_are_valid h m :
  wf_matrix h m = true →
  (∃ sol, GreedyAlgorithm h (Some m) = Success sol ∧ valid_selection m (selection sol))
  ∧ ((height m * width m ≤ CInt.INT_MAX →
      ∃ sol, BacktrackAlgorithm h (Some m) = Success sol
             ∧ valid_selection m (selection sol))
     ∧ (∀ sol, BacktrackAlgorithm h (Some m) = Success sol →
               valid_selection m (selection sol)))
  ∧ (∀ fuel sol h', HungarianAlgorithm fuel h (Some m) = Success (sol, h') →
                    valid_selection m (selection sol)).
Proof.
  intros Hwf%wf_matrix_spec. split_and!.
  - by apply GreedyAlgorithm_valid.
  - intros Hfit. destruct Hwf as [Hw Hh _ _].
    destruct (BacktrackAlgorithm_returns h m Hw Hh Hfit) as [sol Hsol].
    exists sol. split; [done|]. by eapply BacktrackAlgorithm_valid.
  - intros sol Hsol. by eapply BacktrackAlgorithm_valid.
  - intros fuel sol h' Hrun. by apply HungarianAlgorithm_valid in Hrun as [? _].
Qed.

Lemma selections_are_valid_witness :
  valid_selection m_2x2.2
    [{| sel_row := 0; sel_col := 1; sel_value := 2 |};
     {| sel_row := 1; sel_col := 0; sel_value := 3 |}]
  ∧ valid_selection m_2x2.2
      [{| sel_row := 0; sel_col := 0; sel_value := 1 |};
       {| sel_row := 1; sel_col := 1; sel_value := 4 |}]
  ∧ valid_selection m_2x2.2
      [{| sel_row := 0; sel_col := 0; sel_value := 1 |};
       {| sel_row := 1; sel_col := 1; sel_value := 4 |}].
Proof.
  destruct (selections_are_valid m_2x2.1 m_2x2.2 eq_refl)
    as ((g & Hg & Vg) & (Eb & _) & Vh).
  destruct Eb as (b & Hb & Vb); [by vm_compute|].
  vm_compute in Hg. injection Hg as <-.
  vm_compute in Hb. injection Hb as <-.
  split_and!; [exact Vg | exact Vb |].
  eapply (Vh 0%nat {| sum := 5; selection := _ |}). vm_compute. reflexivity.
Defined.

(** ** The optimum *)

Lemma exclusive_single m r c :
  Z.of_nat r < height m → Z.of_nat c < width m → exclusive m [(r, c)].
Proof.
  intros Hr Hc. split_and!; simpl; [apply NoDup_singleton..|].
  by apply Forall_singleton.
Qed.

Lemma m_tall_max : is_max_sum m_tall.1 m_tall.2 5.
Proof.
  split.
  - exists [(0, 0)%nat]. split_and!; [by apply exclusive_single|done|done].
  - intros cells (_ & _ & Hin) Hlen. change (Z.of_nat (length cells) = 1) in Hlen.
    destruct cells as [|[r c] [|? ?]]; simpl in Hlen; try lia.
    apply Forall_singleton in Hin as [Hr Hc]. simpl in Hr, Hc.
    change (height m_tall.2) with 2 in Hr. change (width m_tall.2) with 1 in Hc.
    assert (c = 0%nat) as -> by lia.
    destruct r as [|[|r]]; [by vm_compute..|lia].
Qed.

Lemma m_wide_max : is_max_sum m_wide.1 m_wide.2 2.
Proof.
  split.
  - exists [(0, 1)%nat]. split_and!; [by apply exclusive_single|done|done].
  - intros cells (_ & _ & Hin) Hlen. change (Z.of_nat (length cells) = 1) in Hlen.
    destruct cells as [|[r c] [|? ?]]; simpl in Hlen; try lia.
    apply Forall_singleton in Hin as [Hr Hc]. simpl in Hr, Hc.
    change (height m_wide.2) with 1 in Hr. change (width m_wide.2) with 2 in Hc.
    assert (r = 0%nat) as -> by lia.
    destruct c as [|[|c]]; [by vm_compute..|lia].
Qed.

Lemma m_neg_max : is_max_sum m_neg.1 m_neg.2 (-5).
Proof.
  split.
  - exists [(0, 0)%nat]. split_and!; [by apply exclusive_single|done|done].
  - intros cells (_ & _ & Hin) Hlen. change (Z.of_nat (length cells) = 1) in Hlen.
    destruct cells as [|[r c] [|? ?]]; simpl in Hlen; try lia.
    apply Forall_singleton in Hin as [Hr Hc]. simpl in Hr, Hc.
    change (height m_neg.2) with 1 in Hr. change (width m_neg.2) with 1 in Hc.
    assert (r = 0%nat) as -> by lia. assert (c = 0%nat) as -> by lia.
    by vm_compute.
Qed.

(** C1 at H > W: on the 2x1 matrix [[5],[3]] the largest sum of one cell is 5
    and the exhaustive solver returns 0 with an empty selection: it never
    reaches [currentRow == height], because row 1 finds the only column
    taken. *)
Theorem backtrack_misses_maximum :
  wf_matrix m_tall.1 m_tall.2 = true
  ∧ is_max_sum m_tall.1 m_tall.2 5
  ∧ BacktrackAlgorithm m_tall.1 (Some m_tall.2) = Success {| sum := 0; selection := [] |}.
Proof. split_and!; [done | apply m_tall_max | by vm_compute]. Qed.

(** The same solver on [[-5]]: the optimum is -5, and the result is 0 with an
    empty selection, because [maxSum] starts at 0 and is replaced only by a
    strictly larger sum. *)
Lemma negative_matrix_backtrack_returns_zero :
  wf_matrix m_neg.1 m_neg.2 = true
  ∧ is_max_sum m_neg.1 m_neg.2 (-5)
  ∧ BacktrackAlgorithm m_neg.1 (Some m_neg.2) = Success {| sum := 0; selection := [] |}.
Proof. split_and!; [done | apply m_neg_max | by vm_compute]. Qed.

(** C2: on the 1x2 matrix [[1,2]] the Hungarian solver returns 1 and the
    exhaustive solver the optimum 2, whatever the fuel. *)
Theorem hungarian_differs_from_backtrack fuel :
  wf_matrix m_wide.1 m_wide.2 = true
  ∧ is_max_sum m_wide.1 m_wide.2 2
  ∧ hungarian_solution fuel m_wide.1 (Some m_wide.2)
    = Success {| sum := 1;
                 selection := [{| sel_row := 0; sel_col := 0; sel_value := 1 |}] |}
  ∧ sum <$> return_solution (BacktrackAlgorithm m_wide.1 (Some m_wide.2)) = Some 2.
Proof.
  split_and!; [done | apply m_wide_max | | by vm_compute].
  destruct fuel; by vm_compute.
Qed.

(** The two also differ on [[-5]], where the Hungarian solver is the one that
    returns the optimum. *)
Lemma negative_matrix_hungarian_and_backtrack fuel :
  hungarian_solution fuel m_neg.1 (Some m_neg.2)
  = Success {| sum := -5;
               selection := [{| sel_row := 0; sel_col := 0; sel_value := -5 |}] |}
  ∧ sum <$> return_solution (BacktrackAlgorithm m_neg.1 (Some m_neg.2)) = Some 0.
Proof. split; [destruct fuel|]; by vm_compute. Qed.

(** C3: on [[5],[3]] the greedy solver returns 5 and the exhaustive solver 0. *)
Theorem greedy_exceeds_backtrack :
  wf_matrix m_tall.1 m_tall.2 = true
  ∧ GreedyAlgorithm m_tall.1 (Some m_tall.2)
    = Success {| sum := 5;
                 selection := [{| sel_row := 0; sel_col := 0; sel_value := 5 |}] |}
  ∧ BacktrackAlgorithm m_tall.1 (Some m_tall.2) = Success {| sum := 0; selection := [] |}
  ∧ ¬ (5 ≤ 0).
Proof. split_and!; [done | by vm_compute | by vm_compute | lia]. Qed.

(** The same order on a square matrix whose second row holds INT_MIN only:
    the greedy solver keeps its one cell, every complete assignment is
    negative. *)
Lemma square_matrix_greedy_above_backtrack :
  wf_matrix m_intmin.1 m_intmin.2 = true
  ∧ sum <$> return_solution (GreedyAlgorithm m_intmin.1 (Some m_intmin.2)) = Some 5
  ∧ sum <$> return_solution (BacktrackAlgorithm m_intmin.1 (Some m_intmin.2)) = Some 0.
Proof. split_and!; by vm_compute. Qed.

(** C5 for the exhaustive solver: on [[1,2]] it returns the sum 2 with an
    empty selection, and on the 3x3 matrix whose optimum is the cycle
    (0,1),(1,2),(2,0) it returns 30 with the three cells (0,2),(1,0),(2,1),
    which hold 0: [CopySelectedValues] reads [usedColumns], indexed by column,
    as if it were indexed by row. *)
Theorem backtrack_selection_sum_differs :
  wf_matrix m_wide.1 m_wide.2 = true
  ∧ BacktrackAlgorithm m_wide.1 (Some m_wide.2) = Success {| sum := 2; selection := [] |}
  ∧ CInt.sum_from 0 (values []) ≠ 2
  ∧ wf_matrix m_cycle.1 m_cycle.2 = true
  ∧ BacktrackAlgorithm m_cycle.1 (Some m_cycle.2)
    = Success {| sum := 30;
                 selection := [{| sel_row := 0; sel_col := 2; sel_value := 0 |};
                               {| sel_row := 1; sel_col := 0; sel_value := 0 |};
                               {| sel_row := 2; sel_col := 1; sel_value := 0 |}] |}
  ∧ CInt.sum_from 0 [0; 0; 0] ≠ 30.
Proof. split_and!; by vm_compute. Qed.

(** The other two solvers do return the sum of the values they store. *)
Lemma greedy_hungarian_selection_sum h matrix :
  (∀ sol, GreedyAlgorithm h matrix = Success sol →
          sum sol = CInt.sum_from 0 (values (selection sol)))
  ∧ (∀ fuel sol, hungarian_solution fuel h matrix = Success sol →
                 sum sol = CInt.sum_from 0 (values (selection sol))).
Proof.
  split; [apply GreedyAlgorithm_sum|].
  intros fuel sol. unfold hungarian_solution.
  destruct matrix as [m|]; [|done].
  destruct (HungarianAlgorithm fuel h (Some m)) as [[sol' h']| | | |] eqn:Hrun; try done.
  intros [= ->]. by apply HungarianAlgorithm_valid in Hrun as [_ ?].
Qed.

(** ** The input check *)

Lemma BacktrackAlgorithm_invalid h matrix :
  BacktrackAlgorithm h matrix = Failure INVALID_MATRIX_OR_INDICES
  ↔ match matrix with
    | None => True
    | Some m => width m ≤ 0 ∨ height m ≤ 0
    end.
Proof.
  unfold BacktrackAlgorithm. destruct matrix as [m|]; [|done].
  destruct (Z.leb_spec (width m) 0), (Z.leb_spec (height m) 0); simpl;
    try (split; [lia|done]).
  rewrite !calloc_Some by lia.
  destruct (CInt.mul _ _ <? 0); (split; [done|lia]).
Qed.

Lemma GreedyAlgorithm_invalid h matrix :
  GreedyAlgorithm h matrix = Failure INVALID_MATRIX_OR_INDICES
  ↔ match matrix with
    | None => True
    | Some m => width m ≤ 0
    end.
Proof.
  unfold GreedyAlgorithm. destruct matrix as [m|]; [|done].
  destruct (Z.leb_spec (width m) 0); [done|].
  rewrite (calloc_Some 0 (width m)) by lia.
  destruct (calloc 0 (height m)); split; (done || lia).
Qed.

Lemma HungarianAlgorithm_never_invalid fuel h matrix :
  HungarianAlgorithm fuel h matrix ≠ Failure INVALID_MATRIX_OR_INDICES.
Proof.
  unfold HungarianAlgorithm. destruct matrix as [m|]; [|done].
  destruct (CopyMatrix h m) as [h0 copy].
  destruct (calloc false (height copy)); [|done].
  destruct (calloc false (width copy)); [|done].
  destruct (hungarian_loop _ _ _); [|done].
  by destruct (ExtractFinalSolution _ _ _).
Qed.

(** C6: a matrix with a positive width and no row, as [DeleteRow] leaves it,
    is accepted by the greedy solver, which checks the width only; the
    Hungarian solver checks nothing: it accepts the matrix without any cell
    and reads through a NULL matrix. *)
Theorem invalid_matrix_not_rejected :
  (height m_norow ≤ 0 ∧ GreedyAlgorithm [] (Some m_norow) = Success {| sum := 0; selection := [] |})
  ∧ (width m_empty ≤ 0 ∧ ∀ fuel, hungarian_solution fuel [] (Some m_empty)
                                 = Success {| sum := 0; selection := [] |})
  ∧ (∀ fuel h, HungarianAlgorithm fuel h None = NullDereference)
  ∧ BacktrackAlgorithm [] (Some m_norow) = Failure INVALID_MATRIX_OR_INDICES.
Proof.
  split_and!; try done.
  intros fuel. destruct fuel; by vm_compute.
Qed.

(** ** The loop of the Hungarian solver *)

Lemma hungarian_loop_stuck fuel copy st :
  IsOptimalSolution st.1.1 copy = false →
  hungarian_iteration copy st = st →
  hungarian_loop fuel copy st = None.
Proof.
  intros Hopt Hfix. induction fuel as [|fuel IH]; simpl; rewrite Hopt; [done|].
  by rewrite Hfix.
Qed.

Lemma HungarianAlgorithm_OutOfFuel fuel h m :
  0 ≤ width m → 0 ≤ height m →
  hungarian_loop fuel (CopyMatrix h m).2
    (reduce (CopyMatrix h m).1 (CopyMatrix h m).2,
     replicate (Z.to_nat (height m)) false,
     replicate (Z.to_nat (width m)) false) = None →
  HungarianAlgorithm fuel h (Some m) = OutOfFuel.
Proof.
  intros Hw Hh. unfold HungarianAlgorithm.
  destruct (CopyMatrix_dims h m) as [Hcw Hch].
  destruct (CopyMatrix h m) as [h0 copy]. simpl in *. rewrite Hcw, Hch.
  rewrite !calloc_Some by done. by intros ->.
Qed.

(** C7: on [[1,1,0],[1,0,0],[0,0,1]] the loop never ends.  After the four
    passes the copy is [[0,0,1],[0,1,1],[1,1,0]]; the first cover pass covers
    column 0 and row 0 and leaves the zero at (2,2) uncovered, so the smallest
    uncovered value is 0 and the augmentation changes nothing; from then on
    every iteration finds the same state, and the optimality test, which
    matches row 0 with column 0, never succeeds. *)
Theorem hungarian_loop_diverges fuel :
  wf_matrix m_stuck.1 m_stuck.2 = true
  ∧ HungarianAlgorithm fuel m_stuck.1 (Some m_stuck.2) = OutOfFuel.
Proof.
  split; [done|]. apply HungarianAlgorithm_OutOfFuel; [done..|].
  remember (CopyMatrix m_stuck.1 m_stuck.2) as cp eqn:Hcp.
  vm_compute in Hcp. subst cp. cbn [fst snd].
  destruct fuel as [|fuel]; [by vm_compute|].
  match goal with
  | |- hungarian_loop (S fuel) ?c ?st = None =>
      change (hungarian_loop (S fuel) c st)
        with (if IsOptimalSolution st.1.1 c then Some st.1.1
              else hungarian_loop fuel c (hungarian_iteration c st));
      assert (IsOptimalSolution st.1.1 c = false) as -> by (by vm_compute)
  end.
  apply hungarian_loop_stuck; by vm_compute.
Qed.

(** ** hungarian.c: what the passes write *)

Lemma modifies_refl ps h : modifies ps h h.
Proof. by split_and!. Qed.

Lemma modifies_trans ps h1 h2 h3 :
  modifies ps h1 h2 → modifies ps h2 h3 → modifies ps h1 h3.
Proof.
  intros (Hl1 & Hc1 & Hf1) (Hl2 & Hc2 & Hf2). split_and!.
  - by rewrite Hl2.
  - intros q. by rewrite Hc2.
  - intros q Hq. by rewrite Hf2, Hf1.
Qed.

Lemma set_value_modifies ps h p v : p ∈ ps → modifies ps h (set_value h p v).
Proof.
  intros Hp. unfold set_value. split_and!.
  - apply length_alter.
  - intros q. destruct (decide (p = q)) as [->|Hne].
    + rewrite list_lookup_alter_eq. by destruct (h !! q).
    + by rewrite list_lookup_alter_ne.
  - intros q Hq. apply list_lookup_alter_ne. by intros ->.
Qed.

Lemma modifies_foldl {B} ps (body : Heap → B → Heap) (l : list B) :
  (∀ h b, b ∈ l → modifies ps h (body h b)) →
  ∀ h, modifies ps h (foldl body h l).
Proof.
  induction l as [|b l IH]; intros Hbody h; simpl; [apply modifies_refl|].
  eapply modifies_trans; [apply Hbody, list_elem_of_here|].
  apply IH. intros h' b' Hb'. by apply Hbody, list_elem_of_further.
Qed.

Lemma elem_of_pointers m rn p : rn ∈ head m → p ∈ row rn → p ∈ pointers m.
Proof. intros Hrn Hp. unfold pointers. apply list_elem_of_bind. eauto. Qed.

Lemma GetElementCol_elem rn c p : GetElementCol (Some rn) c = Some p → p ∈ row rn.
Proof.
  unfold GetElementCol. destruct (c <? 0); [done|].
  intros Hp. apply list_elem_of_lookup. eauto.
Qed.

Lemma cell_ptr_pointers m r c p : cell_ptr m r c = Some p → p ∈ pointers m.
Proof.
  unfold cell_ptr, GetRowNode.
  destruct (_ || _); [done|].
  destruct (head m !! _) as [rn|] eqn:Hrn; [|done].
  intros Hp%GetElementCol_elem. eapply elem_of_pointers; [|done].
  apply list_elem_of_lookup. eauto.
Qed.

Lemma for_each_element_modifies m body :
  (∀ h p, p ∈ pointers m → modifies (pointers m) h (body h p)) →
  ∀ h, modifies (pointers m) h (for_each_element body h m).
Proof.
  intros Hbody h. unfold for_each_element.
  apply modifies_foldl. intros h1 rn Hrn.
  apply modifies_foldl. intros h2 p Hp.
  eapply Hbody, elem_of_pointers; done.
Qed.

Lemma for_each_index_modifies ps numRows numCols body :
  (∀ h r c, modifies ps h (body h r c)) →
  ∀ h, modifies ps h (for_each_index numRows numCols body h).
Proof.
  intros Hbody h. unfold for_each_index.
  apply modifies_foldl. intros h1 r _.
  apply modifies_foldl. intros h2 c _. apply Hbody.
Qed.

Lemma subtract_at_modifies ps mv h p : p ∈ ps → modifies ps h (subtract_at mv h p).
Proof. apply set_value_modifies. Qed.

Lemma NegateAllElements_modifies h m : modifies (pointers m) h (NegateAllElements h m).
Proof.
  apply for_each_element_modifies. intros h' p Hp. by apply set_value_modifies.
Qed.

Lemma MakeMatrixNonnegative_modifies h m :
  modifies (pointers m) h (MakeMatrixNonnegative h m).
Proof.
  unfold MakeMatrixNonnegative. destruct (_ <? 0); [|apply modifies_refl].
  apply for_each_element_modifies. intros h' p Hp. by apply subtract_at_modifies.
Qed.

Lemma SubtractRowMinima_modifies h m : modifies (pointers m) h (SubtractRowMinima h m).
Proof.
  unfold SubtractRowMinima. apply modifies_foldl. intros h1 rn Hrn.
  apply modifies_foldl. intros h2 p Hp.
  eapply subtract_at_modifies, elem_of_pointers; done.
Qed.

Lemma SubtractColumnMinima_modifies h m :
  modifies (pointers m) h (SubtractColumnMinima h m).
Proof.
  unfold SubtractColumnMinima. apply modifies_foldl. intros h1 col _.
  apply modifies_foldl. intros h2 rn Hrn.
  destruct (GetElementCol (Some rn) (Z.of_nat col)) as [p|] eqn:Hp;
    [|apply modifies_refl].
  eapply subtract_at_modifies, elem_of_pointers; [done|].
  by eapply GetElementCol_elem.
Qed.

Lemma reduce_modifies h m : modifies (pointers m) h (reduce h m).
Proof.
  unfold reduce.
  eapply modifies_trans; [apply NegateAllElements_modifies|].
  eapply modifies_trans; [apply MakeMatrixNonnegative_modifies|].
  eapply modifies_trans; [apply SubtractRowMinima_modifies|].
  apply SubtractColumnMinima_modifies.
Qed.

Lemma CreateAdditionalZeros_modifies h m cr cc :
  modifies (pointers m) h (CreateAdditionalZeros h m cr cc).
Proof.
  unfold CreateAdditionalZeros.
  eapply modifies_trans; apply for_each_index_modifies; intros h' r c; cbv beta.
  - destruct (_ && _); [|apply modifies_refl].
    destruct (cell_ptr m r c) as [p|] eqn:Hp; [|apply modifies_refl].
    eapply subtract_at_modifies, cell_ptr_pointers, Hp.
  - destruct (_ && _); [|apply modifies_refl].
    destruct (cell_ptr m r c) as [p|] eqn:Hp; [|apply modifies_refl].
    eapply set_value_modifies, cell_ptr_pointers, Hp.
Qed.

Lemma hungarian_iteration_modifies copy st :
  modifies (pointers copy) st.1.1 (hungarian_iteration copy st).1.1.
Proof.
  destruct st as [[h cr] cc]. unfold hungarian_iteration.
  destruct (CoverZeros h copy cr cc) as [cr' cc']. simpl.
  apply CreateAdditionalZeros_modifies.
Qed.

Lemma hungarian_loop_modifies fuel copy st h' :
  hungarian_loop fuel copy st = Some h' →
  modifies (pointers copy) st.1.1 h' ∧ IsOptimalSolution h' copy = true.
Proof.
  revert st. induction fuel as [|fuel IH]; intros st; simpl.
  - destruct (IsOptimalSolution st.1.1 copy) eqn:Hopt; [|done].
    intros [= <-]. split; [apply modifies_refl | done].
  - destruct (IsOptimalSolution st.1.1 copy) eqn:Hopt.
    + intros [= <-]. split; [apply modifies_refl | done].
    + intros [Hm ?]%IH. split; [|done].
      eapply modifies_trans; [apply hungarian_iteration_modifies | exact Hm].
Qed.

(** ** hungarian.c: the clone *)

Lemma clone_allocated h p e : h !! p = Some e → clone h p = e.
Proof. unfold clone, elem_value, elem_column. intros ->. by destruct e. Qed.

Lemma clone_app h news p : (p < length h)%nat → clone (h ++ news) p = clone h p.
Proof.
  intros Hp. unfold clone, elem_value, elem_column. by rewrite lookup_app_l.
Qed.

Lemma copy_row_spec h elems :
  Forall (λ p, (p < length h)%nat) elems →
  copy_row h elems = (h ++ (clone h <$> elems), seq (length h) (length elems)).
Proof.
  revert h. induction elems as [|p elems IH]; intros h Hall; simpl.
  { by rewrite app_nil_r. }
  apply Forall_cons in Hall as [Hp Hall].
  unfold new_element. fold (clone h p).
  rewrite IH.
  - rewrite length_app. simpl. rewrite Nat.add_1_r, <- app_assoc. simpl.
    do 3 f_equal. apply Forall_fmap_ext_1.
    eapply Forall_impl; [exact Hall|]. intros q Hq. by apply clone_app.
  - eapply Forall_impl; [exact Hall|]. intros q Hq. rewrite length_app. simpl in *. lia.
Qed.

(** Row [r] of the copy is a block of new cells, one per element of row [r]
    of the original and equal to it. *)
Lemma copy_rows_spec h rows :
  Forall (λ rn, Forall (λ p, (p < length h)%nat) (row rn)) rows →
  (∃ news, (copy_rows h rows).1 = h ++ news)
  ∧ length (copy_rows h rows).2 = length rows
  ∧ ∀ r rn rn',
      rows !! r = Some rn → (copy_rows h rows).2 !! r = Some rn' →
      ∃ base, (length h ≤ base)%nat
              ∧ row rn' = seq base (length (row rn))
              ∧ ∀ c p, row rn !! c = Some p →
                       (copy_rows h rows).1 !! (base + c)%nat = Some (clone h p).
Proof.
  revert h. induction rows as [|rn rows IH]; intros h Hall; simpl.
  { split_and!; [exists []; by rewrite app_nil_r | done | done]. }
  apply Forall_cons in Hall as [Hrn Hall].
  rewrite (copy_row_spec _ _ Hrn).
  set (h1 := h ++ (clone h <$> row rn)).
  assert (length h ≤ length h1)%nat as Hle by (unfold h1; rewrite length_app; lia).
  destruct (IH h1) as ((news & Hnews) & Hlen & Hrows).
  { eapply Forall_impl; [exact Hall|]. intros rn' Hrn'.
    eapply Forall_impl; [exact Hrn'|]. simpl. intros; lia. }
  destruct (copy_rows h1 rows) as [h2 rns] eqn:Hcopy. simpl in *. subst h2.
  split_and!.
  - exists ((clone h <$> row rn) ++ news). unfold h1. by rewrite app_assoc.
  - by rewrite Hlen.
  - intros [|r] rn0 rn0' Hr Hr'; simpl in *.
    + injection Hr as <-. injection Hr' as <-. exists (length h).
      split_and!; [done|done|]. intros c p Hc.
      pose proof (lookup_lt_Some _ _ _ Hc).
      rewrite lookup_app_l by (unfold h1; rewrite length_app, length_fmap; lia).
      unfold h1. rewrite lookup_app_r by lia.
      replace (length h + c - length h)%nat with c by lia.
      by rewrite list_lookup_fmap, Hc.
    + destruct (Hrows r rn0 rn0' Hr Hr') as (base & Hbase & Hrow & Hcells).
      exists base. split_and!; [lia|done|]. intros c p Hc.
      rewrite (Hcells c p Hc). f_equal. apply clone_app.
      rewrite Forall_lookup in Hall. specialize (Hall r rn0 Hr).
      rewrite Forall_lookup in Hall. by apply (Hall c p).
Qed.

Lemma well_formed_allocated h m :
  well_formed h m → Forall (λ rn, Forall (λ p, (p < length h)%nat) (row rn)) (head m).
Proof.
  intros [_ _ _ Hrows]. eapply Forall_impl; [exact Hrows|].
  intros rn [_ Hcols]. apply Forall_lookup. intros c p Hc.
  apply lookup_lt_is_Some. specialize (Hcols c p Hc).
  destruct (h !! p); [by eexists | done].
Qed.

Lemma row_ok_column h w rn c p :
  row_ok h w rn → row rn !! c = Some p → elem_column h p = Z.of_nat c.
Proof. intros [_ Hcols] Hc. by apply elem_column_ok, Hcols. Qed.

(** The clone of a well-formed matrix is well formed, has the dimensions of
    the original, lies entirely in cells allocated by the call, and holds in
    each cell what the original holds. *)
Lemma CopyMatrix_spec h m :
  well_formed h m →
  (∃ news, (CopyMatrix h m).1 = h ++ news)
  ∧ well_formed (CopyMatrix h m).1 (CopyMatrix h m).2
  ∧ Forall (λ p', (length h ≤ p')%nat) (pointers (CopyMatrix h m).2)
  ∧ ∀ r rn c p,
      head m !! r = Some rn → row rn !! c = Some p →
      ∃ p', cell_ptr (CopyMatrix h m).2 r c = Some p'
            ∧ (p < length h ≤ p')%nat
            ∧ (CopyMatrix h m).1 !! p' = h !! p.
Proof.
  intros Hwf. pose proof (well_formed_allocated h m Hwf) as Halloc.
  destruct (copy_rows_spec h (head m) Halloc) as (Hnews & Hlen & Hrows).
  destruct Hwf as [Hw Hh Hheight Hok].
  unfold CopyMatrix. destruct (copy_rows h (head m)) as [h0 rows] eqn:Hcopy.
  simpl in *.
  assert (∀ r rn', rows !! r = Some rn' → ∃ rn, head m !! r = Some rn) as Hback.
  { intros r rn' Hr. apply lookup_lt_is_Some. rewrite <- Hlen.
    by apply lookup_lt_is_Some. }
  split_and!; [done| | |].
  - split; simpl; [done|done|lia|].
    apply Forall_lookup. intros r rn' Hr'.
    destruct (Hback r rn' Hr') as [rn Hr].
    destruct (Hrows r rn rn' Hr Hr') as (base & _ & Hrow & Hcells).
    pose proof (Forall_lookup_1 _ _ _ _ Hok Hr) as Hrn.
    split.
    + rewrite Hrow, length_seq. by destruct Hrn.
    + intros c p' Hc. rewrite Hrow in Hc. apply lookup_seq in Hc as [-> Hc].
      apply lookup_lt_is_Some in Hc as [p Hp].
      rewrite (Hcells c p Hp). simpl. f_equal. by eapply row_ok_column.
  - apply Forall_forall. intros p' Hp'. unfold pointers in Hp'. simpl in Hp'.
    apply list_elem_of_bind in Hp' as (rn' & Hp' & Hrn').
    apply list_elem_of_lookup in Hrn' as [r Hr'].
    destruct (Hback r rn' Hr') as [rn Hr].
    destruct (Hrows r rn rn' Hr Hr') as (base & Hbase & Hrow & _).
    rewrite Hrow in Hp'. apply elem_of_seq in Hp'. lia.
  - intros r rn c p Hr Hc.
    assert (is_Some (rows !! r)) as [rn' Hr'].
    { apply lookup_lt_is_Some. rewrite Hlen. by eapply lookup_lt_Some. }
    destruct (Hrows r rn rn' Hr Hr') as (base & Hbase & Hrow & Hcells).
    exists (base + c)%nat.
    pose proof (Forall_lookup_1 _ _ _ _ Halloc Hr) as Hps.
    pose proof (Forall_lookup_1 _ _ _ _ Hps Hc) as Hp. simpl in Hp.
    split_and!; [|lia|lia|].
    + erewrite cell_ptr_lookup; [|simpl; lia|exact Hr']. simpl.
      rewrite Hrow. apply lookup_seq. split; [done|]. by eapply lookup_lt_Some.
    + rewrite (Hcells c p Hc). apply lookup_lt_is_Some in Hp as [e He].
      by rewrite He, (clone_allocated _ _ _ He).
Qed.

(** ** hungarian.c: the optimality test and the extraction match the same zeros *)

Lemma count_step_shift (a : list Z) (l : list nat) (acc : Z) :
  foldl (λ num i, if rd a i =? 0 then num else num + 1) (acc + 1) l
  = foldl (λ num i, if rd a i =? 0 then num else num + 1) acc l + 1.
Proof.
  revert acc. induction l as [|j l IH]; intros acc; simpl; [done|].
  destruct (rd a j =? 0); by rewrite IH.
Qed.

Lemma count_insert (a : list Z) (i : nat) (l : list nat) (acc : Z) :
  NoDup l → rd a i = 0 → (i < length a)%nat →
  foldl (λ num j, if rd (<[i := 1]> a) j =? 0 then num else num + 1) acc l
  = foldl (λ num j, if rd a j =? 0 then num else num + 1) acc l
    + (if bool_decide (i ∈ l) then 1 else 0).
Proof.
  intros Hnd Hfree Hlt. revert acc.
  induction l as [|j l IH]; intros acc; simpl; [lia|].
  apply NoDup_cons in Hnd as [Hj Hnd].
  rewrite rd_insert. destruct (decide (i = j)) as [->|Hne].
  - rewrite decide_True by done. rewrite Hfree. simpl.
    rewrite IH by done. rewrite count_step_shift.
    rewrite (bool_decide_eq_false_2 (j ∈ l)) by done.
    rewrite bool_decide_eq_true_2 by apply list_elem_of_here. lia.
  - rewrite decide_False by (intros [? _]; done).
    rewrite IH by done. f_equal.
    destruct (decide (i ∈ l)) as [Hin|Hnin].
    + rewrite !bool_decide_eq_true_2; [done| by apply list_elem_of_further | done].
    + rewrite !bool_decide_eq_false_2; [done| |done].
      intros [?|?]%elem_of_cons; done.
Qed.

Lemma count_covered_insert (a : list Z) (i : nat) (n : Z) :
  rd a i = 0 → (i < length a)%nat → (i < Z.to_nat n)%nat →
  count_covered (<[i := 1]> a) n = count_covered a n + 1.
Proof.
  intros Hfree Hlt Hn. unfold count_covered.
  rewrite count_insert; [|apply NoDup_seq|done|done].
  rewrite bool_decide_eq_true_2; [done|]. apply elem_of_seq. lia.
Qed.

Lemma optimal_scan_covered h r elems cr cc :
  rd cr r ≠ 0 → optimal_scan h r elems cr cc = (cr, cc).
Proof.
  intros Hr. induction elems as [|p elems IH]; simpl; [done|].
  destruct (Z.eqb_spec (rd cr r) 0); [done|].
  by rewrite andb_false_r.
Qed.

(** Over the same stretch of a row, the marking pass and the extraction
    either both find nothing or both take the first free zero. *)
Lemma scan_suffix h orig f r cr cc st elems c0 :
  (∀ j p, elems !! j = Some p →
          elem_column h p = Z.of_nat (c0 + j)
          ∧ elem_value h p = cell h f r (c0 + j)) →
  rd cr r = 0 → (r < length cr)%nat →
  (∀ c, rd cc c ≠ 0 ↔ rdb (e_coveredCols st) c = true) →
  (optimal_scan h r elems cr cc = (cr, cc)
   ∧ extract_scan h orig f r (seq c0 (length elems)) st = st)
  ∨ ∃ c, (c0 ≤ c < c0 + length elems)%nat ∧ rd cc c = 0
         ∧ optimal_scan h r elems cr cc = (<[r := 1]> cr, <[c := 1]> cc)
         ∧ extract_scan h orig f r (seq c0 (length elems)) st
           = {| e_sum := CInt.add (e_sum st) (cell h orig r c);
                e_chosen := e_chosen st ++
                  [{| sel_row := Z.of_nat r; sel_col := Z.of_nat c;
                      sel_value := cell h orig r c |}];
                e_coveredCols := <[c := true]> (e_coveredCols st) |}.
Proof.
  intros Helems Hrow Hlt Hsim. revert c0 Helems.
  induction elems as [|p elems IH]; intros c0 Helems; simpl; [by left|].
  destruct (Helems 0%nat p eq_refl) as [Hcol Hval].
  rewrite Nat.add_0_r in Hcol, Hval. rewrite Hcol, Hval, Nat2Z.id, Hrow. simpl.
  assert ((rd cc c0 =? 0) = negb (rdb (e_coveredCols st) c0)) as Hfree.
  { destruct (Z.eqb_spec (rd cc c0) 0) as [Hz|Hnz].
    - destruct (rdb (e_coveredCols st) c0) eqn:Hcov; [|done].
      apply Hsim in Hcov. done.
    - apply Hsim in Hnz. by rewrite Hnz. }
  rewrite andb_true_r, Hfree.
  destruct ((cell h f r c0 =? 0) && negb (rdb (e_coveredCols st) c0)) eqn:Htest.
  - right. exists c0.
    apply andb_true_iff in Htest as [_ Hcov]. rewrite <- Hfree in Hcov.
    apply Z.eqb_eq in Hcov.
    split; [lia|]. split; [done|]. split; [|done].
    apply optimal_scan_covered. by rewrite rd_insert, decide_True.
  - destruct (IH (S c0)) as [[Ho He]|(c & Hc & Hcfree & Ho & He)].
    + intros j q Hq. specialize (Helems (S j) q Hq).
      by replace (S c0 + j)%nat with (c0 + S j)%nat by lia.
    + by left.
    + right. exists c. split; [lia|]. by split_and!.
Qed.

(** One row of both passes keeps them in step. *)
Lemma scan_sim h orig f r rn cr cc st :
  Z.of_nat (length (head f)) = height f →
  head f !! r = Some rn → row_ok h (width f) rn → width orig = width f →
  cover_sim f r cr cc st →
  cover_sim f (S r) (optimal_scan h r (row rn) cr cc).1 (optimal_scan h r (row rn) cr cc).2
    (extract_scan h orig f r (seq 0 (Z.to_nat (width orig))) st).
Proof.
  intros Hheight Hr [Hlen Hcols] Hworig [Hrl Hcl Hvl Hbelow Hsim Hcr Hcc].
  pose proof (lookup_lt_Some _ _ _ Hr) as Hrlt.
  rewrite Hworig. replace (Z.to_nat (width f)) with (length (row rn)) by lia.
  destruct (scan_suffix h orig f r cr cc st (row rn) 0)
    as [[-> ->]|(c & Hc & Hfree & -> & ->)]; simpl.
  - intros j p Hj. simpl. split; [by apply elem_column_ok, Hcols|].
    unfold cell. by rewrite (cell_ptr_lookup f r j rn Hheight Hr), Hj.
  - by apply Hbelow.
  - lia.
  - done.
  - split; try done. intros i Hi. apply Hbelow. lia.
  - split; simpl.
    + by rewrite length_insert.
    + by rewrite length_insert.
    + by rewrite length_insert.
    + intros i Hi. rewrite rd_insert, decide_False by lia. apply Hbelow. lia.
    + intros c'. rewrite rd_insert, rdb_insert.
      destruct (decide (c = c')) as [->|Hne].
      * rewrite !decide_True by (split; [done|lia]). done.
      * rewrite !decide_False by (intros [? _]; done). apply Hsim.
    + rewrite count_covered_insert; [|by apply Hbelow|lia|lia].
      rewrite length_app. simpl. lia.
    + rewrite count_covered_insert; [|done|lia|lia].
      rewrite length_app. simpl. lia.
Qed.

Lemma rows_sim h orig f rows r cr cc st :
  Z.of_nat (length (head f)) = height f →
  Forall (row_ok h (width f)) (head f) → width orig = width f →
  drop r (head f) = rows →
  cover_sim f r cr cc st →
  cover_sim f (r + length rows)
    (optimal_rows h rows r cr cc).1 (optimal_rows h rows r cr cc).2
    (extract_rows h orig f (seq r (length rows)) st).
Proof.
  intros Hheight Hok Hworig. revert r cr cc st.
  induction rows as [|rn rows IH]; intros r cr cc st Hdrop Hsim; simpl.
  { by rewrite Nat.add_0_r. }
  assert (head f !! r = Some rn) as Hr.
  { rewrite <- (Nat.add_0_r r), <- lookup_drop, Hdrop. done. }
  pose proof (scan_sim h orig f r rn cr cc st Hheight Hr
                (Forall_lookup_1 _ _ _ _ Hok Hr) Hworig Hsim) as Hstep.
  destruct (optimal_scan h r (row rn) cr cc) as [cr' cc']. simpl in Hstep.
  replace (r + S (length rows))%nat with (S r + length rows)%nat by lia.
  apply IH; [|done].
  replace (S r) with (r + 1)%nat by lia. by rewrite <- drop_drop, Hdrop.
Qed.

Lemma count_covered_replicate n k : count_covered (replicate k 0) n = 0.
Proof.
  unfold count_covered. generalize (seq 0 (Z.to_nat n)). intros l.
  induction l as [|i l IH]; simpl; [done|].
  replace (rd (replicate k 0) i) with 0; [done|].
  unfold rd. destruct (replicate k 0 !! i) eqn:Hi; [|done].
  by apply lookup_replicate in Hi as [-> _].
Qed.

Lemma rd_replicate k i : rd (replicate k 0) i = 0.
Proof.
  unfold rd. destruct (replicate k 0 !! i) eqn:Hi; [|done].
  by apply lookup_replicate in Hi as [-> _].
Qed.

Lemma rdb_replicate k i : rdb (replicate k false) i = false.
Proof.
  unfold rdb. destruct (replicate k false !! i) eqn:Hi; [|done].
  by apply lookup_replicate in Hi as [-> _].
Qed.

(** When the optimality test succeeds on a well-formed final matrix, the
    extraction chooses exactly min(H,W) cells. *)
Lemma optimal_extraction_complete h orig f sol :
  well_formed h f → width orig = width f → height orig = height f →
  IsOptimalSolution h f = true →
  ExtractFinalSolution h orig f = Success sol →
  Z.of_nat (length (selection sol)) = Z.min (height f) (width f).
Proof.
  intros [Hw Hh Hheight Hok] Hworig Hhorig Hopt Hex.
  unfold ExtractFinalSolution in Hex. rewrite calloc_Some in Hex by lia.
  destruct (Z.ltb_spec (height orig) 0); [lia|]. injection Hex as <-. simpl.
  unfold IsOptimalSolution in Hopt. rewrite !calloc_Some in Hopt by lia. simpl in Hopt.
  pose proof (rows_sim h orig f (head f) 0
                (replicate (Z.to_nat (height f)) 0) (replicate (Z.to_nat (width f)) 0)
                {| e_sum := 0; e_chosen := [];
                   e_coveredCols := replicate (Z.to_nat (width orig)) false |}
                Hheight Hok Hworig eq_refl) as Hsim.
  pose proof (extract_rows_inv h orig f (Z.to_nat (height orig)) 0 _
                (extract_init_inv (width orig) ltac:(lia))) as Hinv.
  apply extract_inv_valid in Hinv as (_ & _ & Hle); [|lia..].
  replace (length (head f)) with (Z.to_nat (height orig)) in Hsim by lia.
  destruct (optimal_rows h (head f) 0 _ _) as [cr cc]. simpl in *.
  destruct Hsim as [_ _ _ _ _ Hcr Hcc].
  - split; simpl; rewrite ?length_replicate, ?Hworig; try done.
    + intros i _. apply rd_replicate.
    + intros c. rewrite rd_replicate, rdb_replicate. done.
    + apply count_covered_replicate.
    + apply count_covered_replicate.
  - apply orb_true_iff in Hopt as [Ho|Ho]; apply Z.eqb_eq in Ho; lia.
Qed.

Lemma well_formed_modifies ps h h' m :
  modifies ps h h' → well_formed h m → well_formed h' m.
Proof.
  intros (_ & Hcol & _) [Hw Hh Hheight Hok]. split; try done.
  eapply Forall_impl; [exact Hok|]. intros rn [Hlen Hcols]. split; [done|].
  intros c p Hc. rewrite Hcol. by apply Hcols.
Qed.

(** What the loop hands to the extraction: the clone, still well formed,
    changed only in its own cells, and accepted by the optimality test. *)
Lemma hungarian_final_state fuel h m sol h' :
  well_formed h m →
  HungarianAlgorithm fuel h (Some m) = Success (sol, h') →
  modifies (pointers (CopyMatrix h m).2) (CopyMatrix h m).1 h'
  ∧ well_formed h' (CopyMatrix h m).2
  ∧ IsOptimalSolution h' (CopyMatrix h m).2 = true
  ∧ ExtractFinalSolution h' m (CopyMatrix h m).2 = Success sol.
Proof.
  intros Hwf (_ & _ & Hloop & Hex)%HungarianAlgorithm_Success.
  apply hungarian_loop_modifies in Hloop as [Hmod Hopt]. simpl in Hmod.
  destruct (CopyMatrix_spec h m Hwf) as (_ & Hwfc & _).
  assert (modifies (pointers (CopyMatrix h m).2) (CopyMatrix h m).1 h') as Hm.
  { eapply modifies_trans; [apply reduce_modifies | exact Hmod]. }
  split_and!; try done. by eapply well_formed_modifies.
Qed.



(** ** hungarian.c: the caller's matrix *)

(** C9: on a well-formed matrix, the Hungarian solver works on a clone that
    has the dimensions of the original and, cell by cell, a newly allocated
    copy of what the original holds; when the solver returns, every cell that
    existed before the call is what it was, and so is every cell of the
    caller's matrix. *)
Theorem hungarian_leaves_matrix_unchanged fuel h m sol h' :
  wf_matrix h m = true →
  HungarianAlgorithm fuel h (Some m) = Success (sol, h') →
  (width (CopyMatrix h m).2 = width m
   ∧ height (CopyMatrix h m).2 = height m
   ∧ ∀ r rn c p,
       head m !! r = Some rn → row rn !! c = Some p →
       ∃ p', cell_ptr (CopyMatrix h m).2 r c = Some p'
             ∧ (p < length h ≤ p')%nat
             ∧ (CopyMatrix h m).1 !! p' = h !! p)
  ∧ (∀ p e, h !! p = Some e → h' !! p = Some e)
  ∧ (∀ r c, cell h' m r c = cell h m r c).
Proof.
  intros Hwf%wf_matrix_spec Hrun.
  destruct (hungarian_final_state fuel h m sol h' Hwf Hrun) as ((_ & _ & Hframe) & _).
  destruct (CopyMatrix_spec h m Hwf) as ((news & Hnews) & _ & Hfresh & Hcells).
  destruct (CopyMatrix_dims h m) as [Hcw Hch].
  assert (∀ p, (p < length h)%nat → h' !! p = h !! p) as Hold.
  { intros p Hp. rewrite Hframe.
    - rewrite Hnews. by apply lookup_app_l.
    - intros Hin. rewrite Forall_forall in Hfresh. specialize (Hfresh p Hin). lia. }
  split_and!; try done.
  - intros p e He. rewrite Hold; [done|]. by eapply lookup_lt_Some.
  - intros r c. unfold cell. destruct (cell_ptr m r c) as [p|] eqn:Hp; [|done].
    simpl. unfold elem_value. rewrite Hold; [done|].
    apply cell_ptr_pointers in Hp. unfold pointers in Hp.
    apply list_elem_of_bind in Hp as (rn & Hp & Hrn).
    pose proof (well_formed_allocated h m Hwf) as Halloc.
    rewrite Forall_forall in Halloc. specialize (Halloc rn Hrn).
    rewrite Forall_forall in Halloc. by apply Halloc.
Qed.

Lemma hungarian_leaves_matrix_unchanged_witness :
  ∃ sol h', HungarianAlgorithm 0 m_2x2.1 (Some m_2x2.2) = Success (sol, h')
            ∧ (∀ p e, m_2x2.1 !! p = Some e → h' !! p = Some e)
            ∧ (∀ r c, cell h' m_2x2.2 r c = cell m_2x2.1 m_2x2.2 r c).
Proof.
  eexists _, _. split; [by vm_compute|].
  eapply proj2, (hungarian_leaves_matrix_unchanged 0 m_2x2.1 m_2x2.2);
    [reflexivity | by vm_compute].
Defined.

Lemma hungarian_iterations_modify copy n st :
  modifies (pointers copy) st.1.1 (Nat.iter n (hungarian_iteration copy) st).1.1.
Proof.
  induction n as [|n IH]; simpl; [apply modifies_refl|].
  eapply modifies_trans; [exact IH | apply hungarian_iteration_modifies].
Qed.

(** ** The concrete cases of the specification *)

Lemma case_1x1 fuel :
  GreedyAlgorithm m_1x1.1 (Some m_1x1.2)
  = Success {| sum := 5; selection := [{| sel_row := 0; sel_col := 0; sel_value := 5 |}] |}
  ∧ BacktrackAlgorithm m_1x1.1 (Some m_1x1.2)
    = Success {| sum := 5; selection := [{| sel_row := 0; sel_col := 0; sel_value := 5 |}] |}
  ∧ hungarian_solution fuel m_1x1.1 (Some m_1x1.2)
    = Success {| sum := 5; selection := [{| sel_row := 0; sel_col := 0; sel_value := 5 |}] |}.
Proof. split_and!; [by vm_compute..|]. destruct fuel; by vm_compute. Qed.

Lemma case_2x2 fuel :
  GreedyAlgorithm m_2x2.1 (Some m_2x2.2)
  = Success {| sum := 5;
               selection := [{| sel_row := 0; sel_col := 1; sel_value := 2 |};
                             {| sel_row := 1; sel_col := 0; sel_value := 3 |}] |}
  ∧ sum <$> return_solution (BacktrackAlgorithm m_2x2.1 (Some m_2x2.2)) = Some 5
  ∧ sum <$> return_solution (hungarian_solution fuel m_2x2.1 (Some m_2x2.2)) = Some 5.
Proof. split_and!; [by vm_compute..|]. destruct fuel; by vm_compute. Qed.

Lemma case_diagonal fuel :
  sum <$> return_solution (GreedyAlgorithm m_diag.1 (Some m_diag.2)) = Some 27
  ∧ BacktrackAlgorithm m_diag.1 (Some m_diag.2)
    = Success {| sum := 27;
                 selection := [{| sel_row := 0; sel_col := 0; sel_value := 9 |};
                               {| sel_row := 1; sel_col := 1; sel_value := 9 |};
                               {| sel_row := 2; sel_col := 2; sel_value := 9 |}] |}
  ∧ hungarian_solution fuel m_diag.1 (Some m_diag.2)
    = Success {| sum := 27;
                 selection := [{| sel_row := 0; sel_col := 0; sel_value := 9 |};
                               {| sel_row := 1; sel_col := 1; sel_value := 9 |};
                               {| sel_row := 2; sel_col := 2; sel_value := 9 |}] |}.
Proof. split_and!; [by vm_compute..|]. destruct fuel; by vm_compute. Qed.

(** ** backtrack.c: what the search computes when every row can be placed *)

Lemma wrap_small z : CInt.INT_MIN ≤ z ≤ CInt.INT_MAX → CInt.wrap z = z.
Proof.
  unfold CInt.INT_MIN, CInt.INT_MAX, CInt.wrap. intros Hz.
  rewrite Z.mod_small; lia.
Qed.

Lemma Explore_restores h m fuel k currentSum st :
  usedRows (Explore fuel h m k currentSum st) = usedRows st
  ∧ usedColumns (Explore fuel h m k currentSum st) = usedColumns st.
Proof.
  revert k currentSum st.
  induction fuel as [|fuel IH]; intros k currentSum st; rewrite Explore_unfold.
  - destruct (_ =? height m); [|done]. by destruct (_ >? _).
  - destruct (_ =? height m); [by destruct (_ >? _)|].
    generalize (seq 0 (Z.to_nat (width m))). intros cols.
    assert (∀ st', usedRows st' = usedRows st → usedColumns st' = usedColumns st →
              usedRows (foldl (λ st0 (i : nat),
                 if (rd (usedRows st0) k =? 0) && (rd (usedColumns st0) i =? 0) then
                   set_used k 0 i 0
                     (Explore fuel h m (S k) (CInt.add currentSum (cell h m k i))
                        (set_used k 1 i (Z.of_nat k + 1) st0))
                 else st0) st' cols) = usedRows st
              ∧ usedColumns (foldl (λ st0 (i : nat),
                 if (rd (usedRows st0) k =? 0) && (rd (usedColumns st0) i =? 0) then
                   set_used k 0 i 0
                     (Explore fuel h m (S k) (CInt.add currentSum (cell h m k i))
                        (set_used k 1 i (Z.of_nat k + 1) st0))
                 else st0) st' cols) = usedColumns st) as Hloop; [|by apply Hloop].
    induction cols as [|i cols IHc]; intros st' Hur Huc; simpl; [done|].
    apply IHc.
    + destruct (Z.eqb_spec (rd (usedRows st') k) 0) as [Hr|]; simpl; [|done].
      destruct (Z.eqb_spec (rd (usedColumns st') i) 0) as [Hc|]; simpl; [|done].
      destruct (IH (S k) (CInt.add currentSum (cell h m k i))
                  (set_used k 1 i (Z.of_nat k + 1) st')) as [-> _]. simpl.
      by rewrite insert_restore.
    + destruct (Z.eqb_spec (rd (usedRows st') k) 0) as [Hr|]; simpl; [|done].
      destruct (Z.eqb_spec (rd (usedColumns st') i) 0) as [Hc|]; simpl; [|done].
      destruct (IH (S k) (CInt.add currentSum (cell h m k i))
                  (set_used k 1 i (Z.of_nat k + 1) st')) as [_ ->]. simpl.
      by rewrite insert_restore.
Qed.

(** A completion from row [k] is a free column for row [k] followed by a
    completion from row [k+1] once that column is marked. *)
Lemma completion_cons m uc k i cols :
  (i < length uc)%nat → Z.of_nat k < height m →
  completion m uc k (i :: cols)
  ↔ Z.of_nat i < width m ∧ rd uc i = 0
    ∧ completion m (<[i := Z.of_nat k + 1]> uc) (S k) cols.
Proof.
  intros Hi Hk. unfold completion. split.
  - intros (Hlen & [Hnotin Hnd]%NoDup_cons & [[Hw Hfree] Hall]%Forall_cons).
    simpl in Hlen. split_and!; [done|done|lia|done|].
    apply Forall_forall. intros c Hc. rewrite Forall_forall in Hall.
    destruct (Hall c Hc) as [? ?]. split; [done|].
    rewrite rd_insert, decide_False; [done|]. intros [-> _]. done.
  - intros (Hw & Hfree & Hlen & Hnd & Hall). simpl.
    split_and!; [lia| |].
    + apply NoDup_cons. split; [|done]. intros Hin.
      rewrite Forall_forall in Hall. destruct (Hall i Hin) as [_ Hz].
      rewrite rd_insert, decide_True in Hz by done. lia.
    + apply Forall_cons. split; [done|].
      apply Forall_forall. intros c Hc. rewrite Forall_forall in Hall.
      destruct (Hall c Hc) as [? Hz]. split; [done|].
      rewrite rd_insert in Hz. case_decide; [lia|done].
Qed.

(** [Explore] raises [maxSum] to the best sum of a completion, if that is
    larger, and to nothing else. *)
Lemma Explore_maxSum h m B :
  bounded_cells h m B →
  ∀ fuel k currentSum st,
    (Z.to_nat (height m) - k ≤ fuel)%nat → Z.of_nat k ≤ height m →
    length (usedColumns st) = Z.to_nat (width m) →
    (∀ r, (k ≤ r)%nat → rd (usedRows st) r = 0) →
    - (Z.of_nat k * B) ≤ currentSum ≤ Z.of_nat k * B →
    maxSum st ≤ maxSum (Explore fuel h m k currentSum st)
    ∧ (∀ cols, completion m (usedColumns st) k cols →
               currentSum + path_sum h m k cols ≤ maxSum (Explore fuel h m k currentSum st))
    ∧ (maxSum (Explore fuel h m k currentSum st) = maxSum st
       ∨ ∃ cols, completion m (usedColumns st) k cols
                 ∧ maxSum (Explore fuel h m k currentSum st)
                   = currentSum + path_sum h m k cols).
Proof.
  intros [Hcells HB] fuel.
  induction fuel as [|fuel IH]; intros k currentSum st Hfuel Hk Hlen Hrows Hsum;
    rewrite Explore_unfold;
    destruct (Z.eqb_spec (Z.of_nat k) (height m)) as [Heq|Hne]; try lia.
  - (* every row is placed *)
    assert (∀ cols, completion m (usedColumns st) k cols → cols = []) as Hnil.
    { intros cols (Hl & _). destruct cols; [done|]. simpl in Hl. lia. }
    destruct (Z.gtb_spec currentSum (maxSum st)); simpl.
    + split_and!; [lia| |].
      * intros cols ->%Hnil. simpl. lia.
      * right. exists []. split; [|simpl; lia].
        split_and!; [simpl; lia|constructor|constructor].
    + split_and!; [lia| |by left].
      intros cols ->%Hnil. simpl. lia.
  - assert (∀ cols, completion m (usedColumns st) k cols → cols = []) as Hnil.
    { intros cols (Hl & _). destruct cols; [done|]. simpl in Hl. lia. }
    destruct (Z.gtb_spec currentSum (maxSum st)); simpl.
    + split_and!; [lia| |].
      * intros cols ->%Hnil. simpl. lia.
      * right. exists []. split; [|simpl; lia].
        split_and!; [simpl; lia|constructor|constructor].
    + split_and!; [lia| |by left].
      intros cols ->%Hnil. simpl. lia.
  - (* the loop over the columns *)
    match goal with |- context [foldl ?f _ _] => set (body := f) end.
    assert (∀ st' i,
              (i < Z.to_nat (width m))%nat →
              usedRows st' = usedRows st → usedColumns st' = usedColumns st →
              usedRows (body st' i) = usedRows st
              ∧ usedColumns (body st' i) = usedColumns st
              ∧ maxSum st' ≤ maxSum (body st' i)
              ∧ (∀ cols, completion m (usedColumns st) k (i :: cols) →
                         currentSum + path_sum h m k (i :: cols) ≤ maxSum (body st' i))
              ∧ (maxSum (body st' i) = maxSum st'
                 ∨ ∃ cols, completion m (usedColumns st) k cols
                           ∧ maxSum (body st' i) = currentSum + path_sum h m k cols))
      as Hbody.
    { intros st' i Hi Hur Huc.
      unfold body. rewrite Hur, Huc, (Hrows k) by lia. simpl.
      destruct (Z.eqb_spec (rd (usedColumns st) i) 0) as [Hfree|Hused].
      - set (sum1 := CInt.add currentSum (cell h m k i)).
        assert (sum1 = currentSum + cell h m k i) as Hsum1.
        { unfold sum1, CInt.add. apply wrap_small.
          pose proof (Hcells k i). unfold CInt.INT_MIN, CInt.INT_MAX in *. nia. }
        destruct (Explore_restores h m fuel (S k) sum1
                    (set_used k 1 i (Z.of_nat k + 1) st')) as [Hr1 Hc1].
        destruct (IH (S k) sum1 (set_used k 1 i (Z.of_nat k + 1) st'))
          as (Hm1 & Hb1 & Hs1).
        + lia.
        + lia.
        + simpl. by rewrite length_insert, Huc.
        + intros r Hr. simpl.
          rewrite rd_insert, decide_False by lia. rewrite Hur. apply Hrows. lia.
        + pose proof (Hcells k i). nia.
        + simpl in *. rewrite Hr1, Hc1.
          rewrite !insert_restore by (by rewrite ?Hur, ?Huc; try apply Hrows).
          rewrite Huc in Hb1, Hs1.
          split_and!; [done|done|exact Hm1| |].
          * intros cols Hcols. apply completion_cons in Hcols as (_ & _ & Hcols); [|lia..].
            specialize (Hb1 cols Hcols). lia.
          * destruct Hs1 as [->|(cols & Hcols & ->)]; [by left|].
            right. exists (i :: cols). split; [|simpl; lia].
            apply completion_cons; [lia..|]. split_and!; [lia|done|done].
      - split_and!; [done|done|lia| |by left].
        intros cols Hcols. apply completion_cons in Hcols as (_ & ? & _); [|lia..]. done. }
    clearbody body.
    assert (∀ l st',
              Forall (λ i, (i < Z.to_nat (width m))%nat) l →
              usedRows st' = usedRows st → usedColumns st' = usedColumns st →
              maxSum st' ≤ maxSum (foldl body st' l)
              ∧ (∀ i cols, i ∈ l → completion m (usedColumns st) k (i :: cols) →
                           currentSum + path_sum h m k (i :: cols)
                           ≤ maxSum (foldl body st' l))
              ∧ (maxSum (foldl body st' l) = maxSum st'
                 ∨ ∃ cols, completion m (usedColumns st) k cols
                           ∧ maxSum (foldl body st' l)
                             = currentSum + path_sum h m k cols)) as Hloop.
    { induction l as [|i l IHl]; intros st' Hl Hur Huc; simpl.
      { split_and!; [lia| |by left]. intros i cols Hi. by apply elem_of_nil in Hi. }
      apply Forall_cons in Hl as [Hi Hl].
      destruct (Hbody st' i Hi Hur Huc) as (Hur' & Huc' & Hmono & Hbest & Hsome).
      destruct (IHl (body st' i) Hl Hur' Huc') as (Hm2 & Hb2 & Hs2).
      split_and!; [lia| |].
      - intros j cols [->|Hj]%elem_of_cons Hcols.
        + specialize (Hbest cols Hcols). simpl in Hbest. lia.
        + by eapply Hb2.
      - destruct Hs2 as [->|?]; [|by right].
        destruct Hsome as [->|?]; [by left | by right]. }
    destruct (Hloop (seq 0 (Z.to_nat (width m))) st) as (Hm & Hb & Hs); [|done|done|].
    { apply Forall_forall. intros i Hi%elem_of_seq. lia. }
    split_and!; [done| |done].
    intros cols Hcols. destruct cols as [|i cols].
    { destruct Hcols as (Hl & _). simpl in Hl. lia. }
    apply Hb; [|done]. destruct Hcols as (_ & _ & [[Hi _] _]%Forall_cons).
    apply elem_of_seq. lia.
Qed.

Lemma cells_sum_app h m cells1 cells2 :
  cells_sum h m (cells1 ++ cells2) = cells_sum h m cells1 + cells_sum h m cells2.
Proof.
  induction cells1 as [|rc cells1 IH]; simpl; [done|]. rewrite IH. lia.
Qed.

Lemma cells_sum_zip h m k cols :
  cells_sum h m (zip (seq k (length cols)) cols) = path_sum h m k cols.
Proof.
  revert k. induction cols as [|c cols IH]; intros k; simpl; [done|].
  by rewrite IH.
Qed.

Lemma NoDup_range_length (l : list nat) (a n : nat) :
  NoDup l → (∀ x, x ∈ l → (a ≤ x < a + n)%nat) → (length l ≤ n)%nat.
Proof.
  intros Hnd Hall.
  assert (l ⊆+ seq a n) as Hsub.
  { apply NoDup_submseteq; [done|]. intros x Hx. apply elem_of_seq. by apply Hall. }
  apply submseteq_length in Hsub. by rewrite length_seq in Hsub.
Qed.

(** A completion read as a choice of cells. *)
Lemma completion_exclusive h m uc cols :
  0 ≤ height m → completion m uc 0 cols →
  exclusive m (zip (seq 0 (length cols)) cols)
  ∧ Z.of_nat (length (zip (seq 0 (length cols)) cols)) = height m
  ∧ cells_sum h m (zip (seq 0 (length cols)) cols) = path_sum h m 0 cols.
Proof.
  intros Hh (Hlen & Hnd & Hall).
  split_and!.
  - split_and!.
    + rewrite fst_zip by (rewrite length_seq; lia). apply NoDup_seq.
    + rewrite snd_zip by (rewrite length_seq; lia). done.
    + apply Forall_forall. intros [r c] Hrc. simpl. split.
      * apply elem_of_zip_l, elem_of_seq in Hrc. lia.
      * apply elem_of_zip_r in Hrc. rewrite Forall_forall in Hall.
        by destruct (Hall c Hrc).
  - rewrite length_zip, length_seq. lia.
  - apply cells_sum_zip.
Qed.

(** A choice of one cell in each of the rows [k .. k+n-1], in pairwise
    distinct columns, read row by row. *)
Lemma cells_by_row h m n :
  ∀ k cells,
    length cells = n → NoDup (cells.*1) → NoDup (cells.*2) →
    (∀ rc, rc ∈ cells → (k ≤ rc.1 < k + n)%nat) →
    ∃ cols, length cols = n ∧ NoDup cols
            ∧ (∀ c, c ∈ cols → c ∈ cells.*2)
            ∧ path_sum h m k cols = cells_sum h m cells.
Proof.
  induction n as [|n IH]; intros k cells Hlen Hrows Hcols Hrange.
  { destruct cells; [|done]. exists []. split_and!; try done. }
  assert (k ∈ cells.*1) as Hk.
  { destruct (decide (k ∈ cells.*1)) as [|Hnot]; [done|]. exfalso.
    assert (length (cells.*1) ≤ n)%nat as Hle.
    { apply (NoDup_range_length _ (S k)); [done|].
      intros x Hx. assert (x ≠ k) by (by intros ->).
      apply list_elem_of_fmap in Hx as (rc & -> & Hrc).
      specialize (Hrange rc Hrc). lia. }
    rewrite length_fmap in Hle. lia. }
  apply list_elem_of_fmap in Hk as ([k' c] & Hkk & Hin). simpl in Hkk. subst k'.
  apply list_elem_of_split in Hin as (l1 & l2 & ->).
  rewrite fmap_app, fmap_cons in Hrows, Hcols. simpl in Hrows, Hcols.
  rewrite <- Permutation_middle in Hrows, Hcols.
  apply NoDup_cons in Hrows as [Hk Hrows]. apply NoDup_cons in Hcols as [Hc Hcols].
  rewrite <- fmap_app in Hk, Hrows, Hc, Hcols.
  destruct (IH (S k) (l1 ++ l2)) as (cols & Hl & Hnd & Hsub & Hsum); try done.
  { rewrite length_app in *. simpl in Hlen. lia. }
  { intros rc Hrc.
    assert (rc.1 ≠ k) by (intros <-; apply Hk; by apply list_elem_of_fmap_2).
    assert (rc ∈ l1 ++ (k, c) :: l2) as Hrc'.
    { apply elem_of_app in Hrc as [?|?]; apply elem_of_app; [by left|].
      right. by apply list_elem_of_further. }
    specialize (Hrange rc Hrc'). lia. }
  exists (c :: cols). split_and!.
  - simpl. by rewrite Hl.
  - apply NoDup_cons. split; [|done]. intros Hin. by apply Hc, Hsub.
  - intros c' [->|Hc']%elem_of_cons.
    + rewrite fmap_app, fmap_cons. apply elem_of_app. right. apply list_elem_of_here.
    + apply Hsub in Hc'. rewrite fmap_app in Hc'. rewrite fmap_app, fmap_cons.
      apply elem_of_app in Hc' as [?|?]; apply elem_of_app; [by left|].
      right. by apply list_elem_of_further.
  - simpl. rewrite Hsum, !cells_sum_app. simpl. lia.
Qed.

(** Where the exhaustive solver is exact: on a matrix with at least as many
    columns as rows and cells small enough for [int], it returns the largest
    sum of a full row/column-exclusive selection whenever that sum is
    positive, and 0 otherwise. *)
Theorem backtrack_optimal_when_positive h m B s sol :
  0 < height m → height m ≤ width m →
  bounded_cells h m B → is_max_sum h m s →
  BacktrackAlgorithm h (Some m) = Success sol →
  sum sol = Z.max 0 s.
Proof.
  intros Hh Hw Hbound [(cells0 & Hex0 & Hlen0 & Hsum0) Hmax].
  unfold BacktrackAlgorithm.
  destruct (Z.leb_spec (width m) 0); [lia|].
  destruct (Z.leb_spec (height m) 0); [lia|]. simpl.
  rewrite !calloc_Some by lia.
  destruct (CInt.mul _ _ <? 0); [done|]. intros [= <-]. simpl.
  rewrite Z.min_l in Hlen0 by lia.
  destruct (Explore_maxSum h m B Hbound (Z.to_nat (height m)) 0 0
              {| maxSum := 0; selectionValues := []; selectionCount := 0;
                 usedRows := replicate (Z.to_nat (height m)) 0;
                 usedColumns := replicate (Z.to_nat (width m)) 0 |})
    as (Hm & Hb & Hs); simpl in *; try lia.
  { by rewrite length_replicate. }
  { intros r _. apply rd_replicate. }
  destruct Hex0 as (Hrows0 & Hcols0 & Hin0).
  destruct (cells_by_row h m (Z.to_nat (height m)) 0 cells0)
    as (cols0 & Hl0 & Hnd0 & Hsub0 & Hpath0); try done; try lia.
  { intros rc Hrc. rewrite Forall_forall in Hin0. specialize (Hin0 rc Hrc). lia. }
  assert (s ≤ maxSum (Explore (Z.to_nat (height m)) h m 0 0
                        {| maxSum := 0; selectionValues := []; selectionCount := 0;
                           usedRows := replicate (Z.to_nat (height m)) 0;
                           usedColumns := replicate (Z.to_nat (width m)) 0 |})) as Hge.
  { rewrite <- Hsum0, <- Hpath0. apply (Hb cols0).
    split_and!; [lia|done|]. apply Forall_forall. intros c Hc.
    split; [|apply rd_replicate].
    apply Hsub0, list_elem_of_fmap in Hc as (rc & -> & Hrc).
    rewrite Forall_forall in Hin0. by destruct (Hin0 rc Hrc). }
  destruct Hs as [Hs|(cols & Hcols & Hs)]; [lia|].
  destruct (completion_exclusive h m _ cols ltac:(lia) Hcols) as (Hex & Hlen & Hsum).
  specialize (Hmax _ Hex). rewrite Z.min_l in Hmax by lia. specialize (Hmax Hlen). lia.
Qed.

Lemma cells_sum_le h m B cells :
  (∀ r c, cell h m r c ≤ B) → cells_sum h m cells ≤ B * Z.of_nat (length cells).
Proof.
  intros Hcells. induction cells as [|rc cells IH]; simpl; [lia|].
  pose proof (Hcells rc.1 rc.2). lia.
Qed.

Lemma cell_bounded h m B r c :
  0 ≤ B → Forall (λ e, - B ≤ value e ≤ B) h → - B ≤ cell h m r c ≤ B.
Proof.
  intros HB Hall. unfold cell, value_at.
  destruct (cell_ptr m r c) as [p|]; simpl; [|lia].
  unfold elem_value. destruct (h !! p) as [e|] eqn:He; simpl; [|lia].
  by apply (Forall_lookup_1 _ _ _ _ Hall He).
Qed.

Lemma m_diag_bounded : bounded_cells m_diag.1 m_diag.2 9.
Proof.
  split; [|done]. intros r c. apply cell_bounded; [done|].
  repeat constructor; simpl; lia.
Qed.

Lemma m_diag_max : is_max_sum m_diag.1 m_diag.2 27.
Proof.
  split.
  - exists [(0, 0); (1, 1); (2, 2)]%nat. split_and!; [|done|done].
    split_and!; [by apply (bool_decide_unpack _)..|].
    repeat constructor; simpl; done.
  - intros cells _ Hlen. change (Z.of_nat (length cells) = 3) in Hlen.
    pose proof (cells_sum_le m_diag.1 m_diag.2 9 cells
                  (λ r c, proj2 (proj1 m_diag_bounded r c))). lia.
Qed.

Lemma backtrack_optimal_when_positive_witness :
  sum {| sum := 27;
         selection := [{| sel_row := 0; sel_col := 0; sel_value := 9 |};
                       {| sel_row := 1; sel_col := 1; sel_value := 9 |};
                       {| sel_row := 2; sel_col := 2; sel_value := 9 |}] |}
  = Z.max 0 27.
Proof.
  apply (backtrack_optimal_when_positive m_diag.1 m_diag.2 9 27);
    [done | done | apply m_diag_bounded | apply m_diag_max | by vm_compute].
Defined.

(** * More of the code *)

(** ** Cells of a well-formed matrix *)

Lemma well_formed_wf_matrix h m : well_formed h m → wf_matrix h m = true.
Proof.
  intros [Hw Hh Hlen Hrows]. unfold wf_matrix.
  rewrite !andb_true_iff. split_and!.
  - by apply Z.ltb_lt.
  - by apply Z.ltb_lt.
  - by apply bool_decide_eq_true.
  - apply forallb_forall. intros rn Hrn%list_elem_of_In.
    rewrite Forall_forall in Hrows. destruct (Hrows rn Hrn) as [Hl Hc].
    unfold wf_row. rewrite andb_true_iff. split; [by apply bool_decide_eq_true|].
    apply forallb_forall. intros [c p] Hcp%list_elem_of_In.
    apply elem_of_lookup_imap in Hcp as (i & q & [= -> ->] & Hq).
    apply bool_decide_eq_true. by apply Hc.
Qed.

Lemma cell_ptr_inside h m r c :
  well_formed h m → Z.of_nat r < height m → Z.of_nat c < width m →
  ∃ rn p e, head m !! r = Some rn ∧ row rn !! c = Some p ∧ cell_ptr m r c = Some p
            ∧ h !! p = Some e ∧ column e = Z.of_nat c.
Proof.
  intros [Hw Hh Hlen Hrows] Hr Hc.
  destruct (lookup_lt_is_Some_2 (head m) r) as [rn Hrn]; [lia|].
  destruct (Forall_lookup_1 _ _ _ _ Hrows Hrn) as [Hl Hcol].
  destruct (lookup_lt_is_Some_2 (row rn) c) as [p Hp]; [lia|].
  specialize (Hcol c p Hp). destruct (h !! p) as [e|] eqn:He; [|done].
  exists rn, p, e. split_and!; try done.
  - by rewrite (cell_ptr_lookup m r c rn Hlen Hrn).
  - simpl in Hcol. by injection Hcol.
Qed.

Lemma cell_ptr_outside h m r c :
  well_formed h m → height m ≤ Z.of_nat r ∨ width m ≤ Z.of_nat c →
  cell_ptr m r c = None.
Proof.
  intros [Hw Hh Hlen Hrows] Hout. unfold cell_ptr, GetRowNode.
  destruct (Z.ltb_spec (Z.of_nat r) 0); [lia|].
  destruct (Z.leb_spec (height m) (Z.of_nat r)); [done|]. simpl.
  rewrite Nat2Z.id. destruct (head m !! r) as [rn|] eqn:Hrn; [|done]. simpl.
  destruct (Z.ltb_spec (Z.of_nat c) 0); [lia|]. rewrite Nat2Z.id.
  destruct (Forall_lookup_1 _ _ _ _ Hrows Hrn) as [Hl _].
  apply lookup_ge_None. lia.
Qed.

Lemma cell_ptr_Some_inv m r c p :
  cell_ptr m r c = Some p →
  ∃ rn, head m !! r = Some rn ∧ row rn !! c = Some p ∧ Z.of_nat r < height m.
Proof.
  unfold cell_ptr, GetRowNode.
  destruct (Z.ltb_spec (Z.of_nat r) 0); [done|].
  destruct (Z.leb_spec (height m) (Z.of_nat r)); [done|]. simpl.
  rewrite Nat2Z.id. destruct (head m !! r) as [rn|] eqn:Hrn; [|done]. simpl.
  destruct (Z.ltb_spec (Z.of_nat c) 0); [done|]. rewrite Nat2Z.id.
  intros Hp. by exists rn.
Qed.

Lemma NoDup_bind_lookup {A B} (f : A → list B) (l : list A) i j x y a b z :
  NoDup (l ≫= f) →
  l !! i = Some x → l !! j = Some y → f x !! a = Some z → f y !! b = Some z →
  i = j ∧ a = b.
Proof.
  revert i j. induction l as [|w l IH]; intros i j Hnd Hi Hj Ha Hb; [done|].
  rewrite bind_cons in Hnd. apply NoDup_app in Hnd as (Hw & Hdisj & Hl).
  destruct i as [|i], j as [|j]; simplify_eq/=.
  - split; [done|]. exact (NoDup_lookup _ _ _ _ Hw Ha Hb).
  - exfalso. eapply Hdisj.
    + eapply list_elem_of_lookup_2, Ha.
    + apply list_elem_of_bind. exists y. split; [by eapply list_elem_of_lookup_2|].
      by eapply list_elem_of_lookup_2.
  - exfalso. eapply Hdisj.
    + eapply list_elem_of_lookup_2, Hb.
    + apply list_elem_of_bind. exists x. split; [by eapply list_elem_of_lookup_2|].
      by eapply list_elem_of_lookup_2.
  - destruct (IH i j Hl Hi Hj Ha Hb). by subst.
Qed.

(** In a matrix whose elements are pairwise distinct, a cell is reached from
    one position only. *)
Lemma cell_ptr_inj m r c r' c' p :
  NoDup (pointers m) → cell_ptr m r c = Some p → cell_ptr m r' c' = Some p →
  r = r' ∧ c = c'.
Proof.
  intros Hnd (rn & Hr & Hc & _)%cell_ptr_Some_inv (rn' & Hr' & Hc' & _)%cell_ptr_Some_inv.
  by eapply (NoDup_bind_lookup row (head m)).
Qed.

Lemma elem_value_set_same h p v : is_Some (h !! p) → elem_value (set_value h p v) p = v.
Proof.
  intros [e He]. unfold elem_value, set_value.
  by rewrite list_lookup_alter_eq, He.
Qed.

Lemma lookup_set_ne h p q v : p ≠ q → set_value h p v !! q = h !! q.
Proof. intros Hne. unfold set_value. by apply list_lookup_alter_ne. Qed.

Lemma elem_value_set_ne h p q v : p ≠ q → elem_value (set_value h p v) q = elem_value h q.
Proof. intros Hne. unfold elem_value. by rewrite lookup_set_ne. Qed.

Lemma cell_frame h h' m r c :
  (∀ p, p ∈ pointers m → elem_value h' p = elem_value h p) →
  cell h' m r c = cell h m r c.
Proof.
  intros Hsame. unfold cell. destruct (cell_ptr m r c) as [p|] eqn:Hp; [|done].
  simpl. apply Hsame. by eapply cell_ptr_pointers.
Qed.

(** ** matrix_core.c: [CreateMatrix] and [ReplaceValueAtPosition] *)

Lemma initialize_cols_spec h cols :
  initialize_cols h cols
  = (h ++ ((λ c, {| value := DEFAULT_MATRIX_VALUE; column := Z.of_nat c |}) <$> cols),
     seq (length h) (length cols)).
Proof.
  revert h. induction cols as [|c cols IH]; intros h; simpl.
  { by rewrite app_nil_r. }
  rewrite IH, length_app. simpl. rewrite Nat.add_1_r, <- app_assoc. done.
Qed.

Lemma InitializeRowNode_spec h w :
  0 < w →
  InitializeRowNode h w
  = (h ++ ((λ c, {| value := DEFAULT_MATRIX_VALUE; column := Z.of_nat c |})
             <$> seq 0 (Z.to_nat w)),
     Some {| row := seq (length h) (Z.to_nat w) |}).
Proof.
  intros Hw. unfold InitializeRowNode, InitializeRow.
  destruct (Z.leb_spec w 0); [lia|].
  rewrite initialize_cols_spec, length_seq.
  destruct (Z.to_nat w) as [|k] eqn:Hk; [lia|]. done.
Qed.

Lemma create_rows_spec h w n :
  0 < w →
  ∃ h' rows,
    create_rows h w n = (h', Some rows)
    ∧ (∃ news, h' = h ++ news ∧ Forall (λ e, value e = DEFAULT_MATRIX_VALUE) news)
    ∧ length rows = n
    ∧ rows ≫= row = seq (length h) (length h' - length h)
    ∧ Forall (row_ok h' w) rows.
Proof.
  intros Hw. revert h. induction n as [|n IH]; intros h; simpl.
  { exists h, []. split_and!; try done.
    - exists []. by rewrite app_nil_r.
    - by rewrite Nat.sub_diag. }
  rewrite (InitializeRowNode_spec h w Hw).
  set (cells := (λ c, {| value := DEFAULT_MATRIX_VALUE; column := Z.of_nat c |})
                  <$> seq 0 (Z.to_nat w)).
  assert (length cells = Z.to_nat w) as Hcells
    by (unfold cells; by rewrite length_fmap, length_seq).
  destruct (IH (h ++ cells)) as (h2 & rows & -> & (news & -> & Hnews) & Hlen & Hptrs & Hok).
  eexists _, _. split; [reflexivity|]. split_and!.
  - exists (cells ++ news). split; [by rewrite app_assoc|].
    apply Forall_app. split; [|done]. unfold cells. apply Forall_fmap, Forall_forall. done.
  - simpl. by rewrite Hlen.
  - rewrite bind_cons, Hptrs. simpl. rewrite !length_app, Hcells.
    replace (length h + Z.to_nat w + length news - length h)%nat
      with (Z.to_nat w + length news)%nat by lia.
    replace (length h + Z.to_nat w + length news - (length h + Z.to_nat w))%nat
      with (length news) by lia.
    by rewrite seq_app.
  - apply Forall_cons. split; [|done]. split; simpl.
    + rewrite length_seq. lia.
    + intros c p [-> Hc]%lookup_seq.
      rewrite lookup_app_l by (rewrite length_app; lia).
      rewrite lookup_app_r by lia.
      replace (length h + c - length h)%nat with c by lia.
      unfold cells. rewrite list_lookup_fmap, lookup_seq_lt by done. done.
Qed.

(** X1.  [CreateMatrix] refuses a width or height that is not positive and
    leaves the heap alone; otherwise it returns a well-formed matrix of the
    requested dimensions, made of new, pairwise distinct elements that all
    hold [DEFAULT_MATRIX_VALUE], and no cell that existed before is changed. *)
Theorem CreateMatrix_builds_default_matrix h w ht :
  (w ≤ 0 ∨ ht ≤ 0 → CreateMatrix h w ht = (INVALID_MATRIX_OR_INDICES, h, None))
  ∧ (0 < w → 0 < ht →
     ∃ h' m, CreateMatrix h w ht = (SUCCESS, h', Some m)
             ∧ width m = w ∧ height m = ht
             ∧ wf_matrix h' m = true
             ∧ NoDup (pointers m)
             ∧ (∀ r c, cell h' m r c = DEFAULT_MATRIX_VALUE)
             ∧ (∀ p e, h !! p = Some e → h' !! p = Some e)).
Proof.
  unfold CreateMatrix. split.
  - intros Hbad.
    destruct (Z.leb_spec w 0), (Z.leb_spec ht 0); simpl; try done. lia.
  - intros Hw Hh.
    destruct (Z.leb_spec w 0); [lia|]. destruct (Z.leb_spec ht 0); [lia|]. simpl.
    destruct (create_rows_spec h w (Z.to_nat ht) Hw)
      as (h' & rows & -> & (news & -> & Hnews) & Hlen & Hptrs & Hok).
    eexists _, _. split; [reflexivity|]. simpl.
    assert (well_formed (h ++ news) {| head := rows; width := w; height := ht |}) as Hwf.
    { split; simpl; try done. lia. }
    split_and!; try done.
    + by apply well_formed_wf_matrix.
    + unfold pointers. simpl. rewrite Hptrs. apply NoDup_seq.
    + intros r c. unfold cell.
      destruct (cell_ptr _ r c) as [p|] eqn:Hp; [|done]. simpl.
      apply cell_ptr_pointers in Hp. unfold pointers in Hp. simpl in Hp.
      rewrite Hptrs in Hp. apply elem_of_seq in Hp.
      unfold elem_value. rewrite lookup_app_r by lia.
      destruct (news !! _) as [e|] eqn:He; [|done]. simpl.
      by apply (Forall_lookup_1 _ _ _ _ Hnews He).
    + intros p e He. by apply lookup_app_l_Some.
Qed.

Lemma CreateMatrix_builds_default_matrix_witness :
  ∃ h' m, CreateMatrix [] 3 2 = (SUCCESS, h', Some m)
          ∧ width m = 3 ∧ height m = 2
          ∧ wf_matrix h' m = true
          ∧ NoDup (pointers m)
          ∧ (∀ r c, cell h' m r c = DEFAULT_MATRIX_VALUE)
          ∧ (∀ p e, @nil MatrixElement !! p = Some e → h' !! p = Some e).
Proof.
  destruct (CreateMatrix_builds_default_matrix [] 3 2) as [_ Hok].
  apply Hok; lia.
Defined.

(** X2.  On a well-formed matrix of pairwise distinct elements,
    [ReplaceValueAtPosition] answers OUT_OF_BOUNDS exactly for a position
    outside the matrix; inside, the cell reads back the value written, every
    other cell and every cell outside the matrix keep theirs, and the matrix
    stays well formed. *)
Theorem ReplaceValueAtPosition_writes_one_cell h m r c v :
  wf_matrix h m = true → NoDup (pointers m) →
  (ReplaceValueAtPosition h m r c v = Failure OUT_OF_BOUNDS
   ↔ ¬ (0 ≤ r < height m ∧ 0 ≤ c < width m))
  ∧ (0 ≤ r < height m → 0 ≤ c < width m →
     ∃ h', ReplaceValueAtPosition h m r c v = Success h'
           ∧ cell h' m (Z.to_nat r) (Z.to_nat c) = v
           ∧ (∀ r' c', (r', c') ≠ (Z.to_nat r, Z.to_nat c) →
                       cell h' m r' c' = cell h m r' c')
           ∧ wf_matrix h' m = true
           ∧ (∀ q, q ∉ pointers m → h' !! q = h !! q)).
Proof.
  intros Hwf%wf_matrix_spec Hnd.
  assert (0 ≤ r < height m → 0 ≤ c < width m →
          ∃ rn p e, head m !! Z.to_nat r = Some rn ∧ row rn !! Z.to_nat c = Some p
                    ∧ cell_ptr m (Z.to_nat r) (Z.to_nat c) = Some p
                    ∧ h !! p = Some e) as Hin.
  { intros Hr Hc.
    destruct (cell_ptr_inside h m (Z.to_nat r) (Z.to_nat c) Hwf)
      as (rn & p & e & ? & ? & ? & ? & _); [lia..|]. by exists rn, p, e. }
  unfold ReplaceValueAtPosition. split.
  - destruct (Z.ltb_spec r 0), (Z.leb_spec (height m) r), (Z.ltb_spec c 0),
      (Z.leb_spec (width m) c); simpl; try (split; [lia|done]).
    destruct Hin as (rn & p & e & -> & -> & _); [lia..|]. split; [done|lia].
  - intros Hr Hc.
    destruct (Z.ltb_spec r 0), (Z.leb_spec (height m) r), (Z.ltb_spec c 0),
      (Z.leb_spec (width m) c); simpl; try lia.
    destruct Hin as (rn & p & e & -> & -> & Hp & He); [lia..|].
    eexists. split; [reflexivity|].
    pose proof (set_value_modifies (pointers m) h p v
                  (cell_ptr_pointers _ _ _ _ Hp)) as Hmod.
    split_and!.
    + unfold cell. rewrite Hp. simpl. by apply elem_value_set_same.
    + intros r' c' Hne. unfold cell.
      destruct (cell_ptr m r' c') as [q|] eqn:Hq; [|done]. simpl.
      apply elem_value_set_ne. intros <-.
      destruct (cell_ptr_inj m _ _ _ _ _ Hnd Hp Hq) as [Hr' Hc']. by rewrite Hr', Hc' in Hne.
    + by eapply well_formed_wf_matrix, well_formed_modifies.
    + by destruct Hmod as (_ & _ & ?).
Qed.

Lemma ReplaceValueAtPosition_writes_one_cell_witness :
  ∃ h', ReplaceValueAtPosition m_2x2.1 m_2x2.2 1 0 7 = Success h'
        ∧ cell h' m_2x2.2 (Z.to_nat 1) (Z.to_nat 0) = 7
        ∧ (∀ r' c', (r', c') ≠ (Z.to_nat 1, Z.to_nat 0) →
                    cell h' m_2x2.2 r' c' = cell m_2x2.1 m_2x2.2 r' c')
        ∧ wf_matrix h' m_2x2.2 = true
        ∧ (∀ q, q ∉ pointers m_2x2.2 → h' !! q = m_2x2.1 !! q).
Proof.
  destruct (ReplaceValueAtPosition_writes_one_cell m_2x2.1 m_2x2.2 1 0 7) as [_ Hok].
  - reflexivity.
  - by apply (bool_decide_unpack _).
  - apply Hok; by vm_compute.
Defined.

(** ** matrix_io.c: inserting and deleting rows and columns *)

Lemma well_formed_pointers_allocated h m p :
  well_formed h m → p ∈ pointers m → (p < length h)%nat.
Proof.
  intros Hwf Hp. unfold pointers in Hp. apply list_elem_of_bind in Hp as (rn & Hp & Hrn).
  pose proof (well_formed_allocated h m Hwf) as Halloc.
  rewrite Forall_forall in Halloc. specialize (Halloc rn Hrn).
  rewrite Forall_forall in Halloc. by apply Halloc.
Qed.

Lemma row_ok_app h news w rn : row_ok h w rn → row_ok (h ++ news) w rn.
Proof.
  intros [Hl Hc]. split; [done|]. intros c p Hp. specialize (Hc c p Hp).
  destruct (h !! p) as [e|] eqn:He; [|done]. by rewrite (lookup_app_l_Some _ _ _ _ He).
Qed.

Lemma insert_row_cols_spec h newRow cols rowHead :
  insert_row_cols h newRow cols rowHead
  = (h ++ ((λ c, {| value := rd newRow c; column := Z.of_nat c |}) <$> cols),
     rowHead ++ seq (length h) (length cols)).
Proof.
  revert h rowHead. induction cols as [|c cols IH]; intros h rowHead; simpl.
  { by rewrite !app_nil_r. }
  unfold AddElementToRow, new_element. rewrite IH, length_app. simpl.
  by rewrite Nat.add_1_r, <- !app_assoc.
Qed.

Lemma cell_ptr_cons m rn r c :
  cell_ptr {| head := rn :: head m; width := width m; height := height m + 1 |} (S r) c
  = cell_ptr m r c.
Proof.
  unfold cell_ptr, GetRowNode. simpl.
  destruct (Z.ltb_spec (Z.of_nat (S r)) 0); [lia|].
  destruct (Z.ltb_spec (Z.of_nat r) 0); [lia|].
  destruct (Z.leb_spec (height m + 1) (Z.of_nat (S r))),
    (Z.leb_spec (height m) (Z.of_nat r)); simpl; try lia; [done|].
  by rewrite !Nat2Z.id.
Qed.

(** X3.  [InsertRow] answers OUT_OF_BOUNDS and changes nothing when the array
    has not the width of the matrix; otherwise the array becomes row 0, the
    old rows move down by one with their values, the height grows by one,
    the matrix stays well formed with pairwise distinct elements, and
    [DeleteRow] of row 0 gives the old matrix back. *)
Theorem InsertRow_prepends_the_row h m newRow sizeArray :
  wf_matrix h m = true → NoDup (pointers m) →
  Z.of_nat (length newRow) = sizeArray →
  (width m ≠ sizeArray → InsertRow h m newRow sizeArray = (OUT_OF_BOUNDS, h, m))
  ∧ (width m = sizeArray →
     ∃ h' m', InsertRow h m newRow sizeArray = (SUCCESS, h', m')
              ∧ width m' = width m ∧ height m' = height m + 1
              ∧ wf_matrix h' m' = true ∧ NoDup (pointers m')
              ∧ (∀ c, Z.of_nat c < width m → cell h' m' 0 c = rd newRow c)
              ∧ (∀ r c, cell h' m' (S r) c = cell h m r c)
              ∧ DeleteRow m' 0 = Success m).
Proof.
  intros Hwf%wf_matrix_spec Hnd _. unfold InsertRow. split.
  - intros Hne. destruct (Z.eqb_spec (width m) sizeArray); done.
  - intros Heq. destruct (Z.eqb_spec (width m) sizeArray); [|done].
    rewrite insert_row_cols_spec, length_seq. simpl.
    set (cells := (λ c, {| value := rd newRow c; column := Z.of_nat c |})
                    <$> seq 0 (Z.to_nat (width m))).
    assert (length cells = Z.to_nat (width m)) as Hcells
      by (unfold cells; by rewrite length_fmap, length_seq).
    pose proof Hwf as Hwf'. destruct Hwf as [Hw Hh Hlen Hrows].
    eexists _, _. split; [reflexivity|]. simpl.
    assert (∀ c, (c < Z.to_nat (width m))%nat →
                 (h ++ cells) !! (length h + c)%nat
                 = Some {| value := rd newRow c; column := Z.of_nat c |}) as Hnew.
    { intros c Hc. rewrite lookup_app_r by lia.
      replace (length h + c - length h)%nat with c by lia.
      unfold cells. by rewrite list_lookup_fmap, lookup_seq_lt. }
    split_and!; try done.
    + apply well_formed_wf_matrix. split; simpl; [done|lia|lia|].
      apply Forall_cons. split.
      * split; simpl; [rewrite length_seq; lia|].
        intros c p [-> Hc]%lookup_seq. by rewrite Hnew.
      * eapply Forall_impl; [exact Hrows|]. intros rn. apply row_ok_app.
    + unfold pointers. simpl. apply NoDup_app. split_and!; [apply NoDup_seq| |done].
      intros p Hp%elem_of_seq Hold.
      pose proof (well_formed_pointers_allocated h m p Hwf' Hold). lia.
    + intros c Hc. unfold cell.
      erewrite cell_ptr_lookup; [|simpl; lia|reflexivity]. simpl.
      rewrite lookup_seq_lt by lia. simpl. unfold elem_value.
      by rewrite Hnew by lia.
    + intros r c. unfold cell. rewrite cell_ptr_cons.
      destruct (cell_ptr m r c) as [p|] eqn:Hp; [|done]. simpl.
      unfold elem_value. rewrite lookup_app_l; [done|].
      eapply well_formed_pointers_allocated; [exact Hwf'|]. by eapply cell_ptr_pointers.
    + unfold DeleteRow. simpl.
      destruct (Z.leb_spec (height m + 1) 0); [lia|]. simpl.
      destruct m as [hd wd ht]. simpl. do 2 f_equal. lia.
Qed.

Lemma InsertRow_prepends_the_row_witness :
  ∃ h' m', InsertRow m_2x2.1 m_2x2.2 [7; 8] 2 = (SUCCESS, h', m')
           ∧ width m' = width m_2x2.2 ∧ height m' = height m_2x2.2 + 1
           ∧ wf_matrix h' m' = true ∧ NoDup (pointers m')
           ∧ (∀ c, Z.of_nat c < width m_2x2.2 → cell h' m' 0 c = rd [7; 8] c)
           ∧ (∀ r c, cell h' m' (S r) c = cell m_2x2.1 m_2x2.2 r c)
           ∧ DeleteRow m' 0 = Success m_2x2.2.
Proof.
  destruct (InsertRow_prepends_the_row m_2x2.1 m_2x2.2 [7; 8] 2) as [_ Hok].
  - reflexivity.
  - by apply (bool_decide_unpack _).
  - reflexivity.
  - by apply Hok.
Defined.

Lemma insert_column_rows_spec h newColumn idx i rows :
  insert_column_rows h newColumn idx i rows
  = (h ++ ((λ j, {| value := rd newColumn j; column := idx |}) <$> seq i (length rows)),
     imap (λ k rn, {| row := row rn ++ [(length h + k)%nat] |}) rows).
Proof.
  revert h i. induction rows as [|rn rows IH]; intros h i; simpl.
  { by rewrite app_nil_r. }
  unfold AddElementToRow, new_element. rewrite IH, length_app. simpl.
  rewrite Nat.add_0_r, <- app_assoc. simpl. f_equal. f_equal.
  apply imap_ext. intros k rn' _. simpl. do 3 f_equal. lia.
Qed.

Lemma appended_pointers (rows : list MatrixRowNode) b :
  imap (λ k rn, {| row := row rn ++ [(b + k)%nat] |}) rows ≫= row
  ≡ₚ (rows ≫= row) ++ seq b (length rows).
Proof.
  revert b. induction rows as [|rn rows IH]; intros b; [done|].
  rewrite imap_cons, !bind_cons. simpl.
  rewrite (imap_ext _ (λ k rn', {| row := row rn' ++ [(S b + k)%nat] |}))
    by (intros k rn' _; simpl; do 3 f_equal; lia).
  rewrite IH, Nat.add_0_r, <- !app_assoc. f_equiv. simpl.
  apply Permutation_middle.
Qed.

(** X4.  [InsertColumn] answers OUT_OF_BOUNDS and changes nothing when the
    array has not the height of the matrix; otherwise it appends the array
    as the last column: the old cells keep their values, the width grows by
    one, the matrix stays well formed with pairwise distinct elements, and
    [DeleteColumn] of the new column gives the old matrix back. *)
Theorem InsertColumn_appends_the_column h m newColumn sizeArray :
  wf_matrix h m = true → NoDup (pointers m) →
  Z.of_nat (length newColumn) = sizeArray →
  (height m ≠ sizeArray → InsertColumn h m newColumn sizeArray = (OUT_OF_BOUNDS, h, m))
  ∧ (height m = sizeArray →
     ∃ h' m', InsertColumn h m newColumn sizeArray = (SUCCESS, h', m')
              ∧ width m' = width m + 1 ∧ height m' = height m
              ∧ wf_matrix h' m' = true ∧ NoDup (pointers m')
              ∧ (∀ r c, Z.of_nat c < width m → cell h' m' r c = cell h m r c)
              ∧ (∀ r, Z.of_nat r < height m →
                      cell h' m' r (Z.to_nat (width m)) = rd newColumn r)
              ∧ DeleteColumn (Some m') (width m) = Success m).
Proof.
  intros Hwf%wf_matrix_spec Hnd _. unfold InsertColumn. split.
  - intros Hne. destruct (Z.eqb_spec (height m) sizeArray); done.
  - intros Heq. destruct (Z.eqb_spec (height m) sizeArray); [|done].
    rewrite insert_column_rows_spec. simpl.
    set (cells := (λ j, {| value := rd newColumn j; column := width m |})
                    <$> seq 0 (length (head m))).
    set (rows' := imap (λ k rn, {| row := row rn ++ [(length h + k)%nat] |}) (head m)).
    pose proof Hwf as Hwf'. destruct Hwf as [Hw Hh Hlen Hrows].
    eexists _, _. split; [reflexivity|]. simpl.
    assert (∀ r, (r < length (head m))%nat →
                 (h ++ cells) !! (length h + r)%nat
                 = Some {| value := rd newColumn r; column := width m |}) as Hnew.
    { intros r Hr. rewrite lookup_app_r by lia.
      replace (length h + r - length h)%nat with r by lia.
      unfold cells. by rewrite list_lookup_fmap, lookup_seq_lt. }
    assert (∀ r rn, head m !! r = Some rn →
                    rows' !! r = Some {| row := row rn ++ [(length h + r)%nat] |}) as Hrow'.
    { intros r rn Hr. unfold rows'. by rewrite list_lookup_imap, Hr. }
    assert (length rows' = length (head m)) as Hlen' by apply length_imap.
    split_and!; try done.
    + apply well_formed_wf_matrix. split; simpl; [lia|done|lia|].
      apply Forall_lookup. intros r rn' Hr'.
      destruct (lookup_lt_is_Some_2 (head m) r) as [rn Hr].
      { rewrite <- Hlen'. by eapply lookup_lt_Some. }
      rewrite (Hrow' r rn Hr) in Hr'. injection Hr' as <-.
      destruct (Forall_lookup_1 _ _ _ _ Hrows Hr) as [Hl Hc].
      split; simpl.
      * rewrite length_app. simpl. lia.
      * intros c p Hp. apply lookup_app_Some in Hp as [Hp|[Hge Hp]].
        -- specialize (Hc c p Hp). destruct (h !! p) as [e0|] eqn:He; [|done].
           by rewrite (lookup_app_l_Some _ _ _ _ He).
        -- apply list_lookup_singleton_Some in Hp as [Hc0 <-].
           rewrite Hnew by (by eapply lookup_lt_Some). simpl. f_equal. lia.
    + unfold pointers. simpl. fold rows'. unfold rows'. rewrite appended_pointers.
      apply NoDup_app. split_and!; [done| |apply NoDup_seq].
      intros p Hold Hp%elem_of_seq.
      pose proof (well_formed_pointers_allocated h m p Hwf' Hold). lia.
    + intros r c Hc. unfold cell.
      destruct (decide (r < length (head m))%nat) as [Hr|Hr].
      * destruct (lookup_lt_is_Some_2 (head m) r Hr) as [rn Hrn].
        destruct (Forall_lookup_1 _ _ _ _ Hrows Hrn) as [Hl _].
        rewrite (cell_ptr_lookup m r c rn Hlen Hrn).
        erewrite cell_ptr_lookup; [|simpl; lia|apply (Hrow' r rn Hrn)]. simpl.
        rewrite lookup_app_l by lia.
        destruct (row rn !! c) as [p|] eqn:Hp; [|done]. simpl.
        unfold elem_value. rewrite lookup_app_l; [done|].
        eapply well_formed_pointers_allocated; [exact Hwf'|].
        eapply elem_of_pointers; by eapply list_elem_of_lookup_2.
      * rewrite (cell_ptr_outside h m r c Hwf') by lia.
        unfold cell_ptr, GetRowNode. simpl.
        destruct (Z.leb_spec (height m) (Z.of_nat r)); [|lia].
        by rewrite orb_true_r.
    + intros r Hr. unfold cell.
      destruct (lookup_lt_is_Some_2 (head m) r) as [rn Hrn]; [lia|].
      destruct (Forall_lookup_1 _ _ _ _ Hrows Hrn) as [Hl _].
      erewrite cell_ptr_lookup; [|simpl; lia|apply (Hrow' r rn Hrn)]. simpl.
      rewrite lookup_app_r by lia.
      replace (Z.to_nat (width m) - length (row rn))%nat with 0%nat by lia. simpl.
      unfold elem_value. rewrite Hnew by lia. done.
    + unfold DeleteColumn.
      destruct (Z.ltb_spec (width m) 0); [lia|].
      destruct (Z.leb_spec (width m + 1) (width m)); [lia|]. simpl.
      destruct m as [hd wd ht]. simpl in *. f_equal. f_equal; [|lia].
      unfold rows'. clear -Hrows. rewrite fmap_imap.
      rewrite <- (list_fmap_id hd) at 2. rewrite <- imap_const.
      apply imap_ext. intros k [rw] Hk. simpl. f_equal.
      destruct (Forall_lookup_1 _ _ _ _ Hrows Hk) as [Hl _]. simpl in Hl.
      replace (Z.to_nat wd) with (length rw) by lia.
      rewrite (delete_middle rw []). by rewrite app_nil_r.
Qed.

Lemma InsertColumn_appends_the_column_witness :
  ∃ h' m', InsertColumn m_2x2.1 m_2x2.2 [7; 8] 2 = (SUCCESS, h', m')
           ∧ width m' = width m_2x2.2 + 1 ∧ height m' = height m_2x2.2
           ∧ wf_matrix h' m' = true ∧ NoDup (pointers m')
           ∧ (∀ r c, Z.of_nat c < width m_2x2.2 → cell h' m' r c = cell m_2x2.1 m_2x2.2 r c)
           ∧ (∀ r, Z.of_nat r < height m_2x2.2 →
                   cell h' m' r (Z.to_nat (width m_2x2.2)) = rd [7; 8] r)
           ∧ DeleteColumn (Some m') (width m_2x2.2) = Success m_2x2.2.
Proof.
  destruct (InsertColumn_appends_the_column m_2x2.1 m_2x2.2 [7; 8] 2) as [_ Hok].
  - reflexivity.
  - by apply (bool_decide_unpack _).
  - reflexivity.
  - by apply Hok.
Defined.

Lemma cell_ptr_eq m r c :
  cell_ptr m r c
  = if bool_decide (Z.of_nat r < height m) then head m !! r ≫= λ rn, row rn !! c else None.
Proof.
  unfold cell_ptr, GetRowNode, GetElementCol.
  destruct (Z.ltb_spec (Z.of_nat r) 0); [lia|].
  destruct (Z.leb_spec (height m) (Z.of_nat r)); simpl.
  - by rewrite bool_decide_eq_false_2 by lia.
  - rewrite bool_decide_eq_true_2 by lia. rewrite Nat2Z.id.
    destruct (head m !! r) as [rn|]; [|done]. simpl.
    destruct (Z.ltb_spec (Z.of_nat c) 0); [lia|]. by rewrite Nat2Z.id.
Qed.

Lemma pointers_delete_row m i :
  NoDup (pointers m) → NoDup (delete i (head m) ≫= row).
Proof.
  unfold pointers. intros Hnd. destruct (head m !! i) as [rn|] eqn:Hi.
  - rewrite <- (take_drop_middle _ _ _ Hi), bind_app, bind_cons in Hnd.
    rewrite delete_take_drop, bind_app.
    apply NoDup_app in Hnd as (H1 & H2 & H3). apply NoDup_app in H3 as (_ & _ & H3).
    apply NoDup_app. split_and!; [done| |done].
    intros p Hp Hp'. apply (H2 p Hp). apply elem_of_app. by right.
  - rewrite delete_take_drop, take_ge, drop_ge, app_nil_r; [done|..];
      apply lookup_ge_None in Hi; lia.
Qed.

(** X5.  [DeleteRow] answers OUT_OF_BOUNDS exactly for an index outside
    [0, height); otherwise it removes that row: the rows above keep their
    place, the rows below move up by one, the height shrinks by one, and
    the matrix stays well formed unless its only row was deleted. *)
Theorem DeleteRow_removes_the_row h m rowIndex :
  wf_matrix h m = true → NoDup (pointers m) →
  (DeleteRow m rowIndex = Failure OUT_OF_BOUNDS ↔ ¬ (0 ≤ rowIndex < height m))
  ∧ (0 ≤ rowIndex < height m →
     ∃ m', DeleteRow m rowIndex = Success m'
           ∧ width m' = width m ∧ height m' = height m - 1
           ∧ (∀ r c, Z.of_nat r < rowIndex → cell h m' r c = cell h m r c)
           ∧ (∀ r c, rowIndex ≤ Z.of_nat r → cell h m' r c = cell h m (S r) c)
           ∧ NoDup (pointers m')
           ∧ (wf_matrix h m' = true ↔ 1 < height m)).
Proof.
  intros Hwf%wf_matrix_spec Hnd. destruct Hwf as [Hw Hh Hlen Hrows].
  unfold DeleteRow. split.
  - destruct (Z.ltb_spec rowIndex 0), (Z.leb_spec (height m) rowIndex); simpl;
      try (split; [lia|done]).
    destruct (lookup_lt_is_Some_2 (head m) (Z.to_nat rowIndex)) as [rn ->]; [lia|].
    split; [done|lia].
  - intros Hi.
    destruct (Z.ltb_spec rowIndex 0), (Z.leb_spec (height m) rowIndex); simpl; try lia.
    destruct (lookup_lt_is_Some_2 (head m) (Z.to_nat rowIndex)) as [rn Hrn]; [lia|].
    rewrite Hrn. eexists. split; [reflexivity|]. simpl. split_and!; try done.
    + intros r c Hr. unfold cell. rewrite !cell_ptr_eq. simpl.
      rewrite !bool_decide_eq_true_2 by lia.
      by rewrite list_lookup_delete_lt by lia.
    + intros r c Hr. unfold cell. rewrite !cell_ptr_eq. simpl.
      rewrite list_lookup_delete_ge by lia.
      destruct (decide (Z.of_nat r < height m - 1)).
      * by rewrite !bool_decide_eq_true_2 by lia.
      * by rewrite !bool_decide_eq_false_2 by lia.
    + by apply pointers_delete_row.
    + split.
      * intros [_ Hh' _ _]%wf_matrix_spec. simpl in Hh'. lia.
      * intros Hgt. apply well_formed_wf_matrix. split; simpl; [done|lia| |].
        -- rewrite length_delete by (by eexists). lia.
        -- apply Forall_forall. intros rn' Hrn'%list_elem_of_delete_inv.
           rewrite Forall_forall in Hrows. by apply Hrows.
Qed.

Lemma DeleteRow_removes_the_row_witness :
  ∃ m', DeleteRow m_2x2.2 0 = Success m'
        ∧ width m' = width m_2x2.2 ∧ height m' = height m_2x2.2 - 1
        ∧ (∀ r c, Z.of_nat r < 0 → cell m_2x2.1 m' r c = cell m_2x2.1 m_2x2.2 r c)
        ∧ (∀ r c, 0 ≤ Z.of_nat r → cell m_2x2.1 m' r c = cell m_2x2.1 m_2x2.2 (S r) c)
        ∧ NoDup (pointers m')
        ∧ (wf_matrix m_2x2.1 m' = true ↔ 1 < height m_2x2.2).
Proof.
  destruct (DeleteRow_removes_the_row m_2x2.1 m_2x2.2 0) as [_ Hok].
  - reflexivity.
  - by apply (bool_decide_unpack _).
  - by apply Hok.
Defined.

Lemma pointers_delete_column (rows : list MatrixRowNode) k :
  NoDup (rows ≫= row) →
  NoDup (((λ rn, {| row := delete k (row rn) |}) <$> rows) ≫= row).
Proof.
  intros Hnd. eapply sublist_NoDup; [exact Hnd|]. clear Hnd.
  induction rows as [|rn rows IH]; [done|].
  rewrite fmap_cons, !bind_cons. simpl. apply sublist_app; [apply sublist_delete|done].
Qed.

(** X6.  [DeleteColumn] answers OUT_OF_BOUNDS for a NULL matrix and exactly
    for an index outside [0, width); otherwise it removes that column: the
    cells to its left stay, the cells to its right move left by one, the
    width shrinks by one.  The elements that moved keep their old [column]
    field, one more than their new position, so the matrix is well formed
    afterwards only when the column deleted was the last of several. *)
Theorem DeleteColumn_keeps_stale_column_fields h m colIndex :
  wf_matrix h m = true → NoDup (pointers m) →
  DeleteColumn None colIndex = Failure OUT_OF_BOUNDS
  ∧ (DeleteColumn (Some m) colIndex = Failure OUT_OF_BOUNDS ↔ ¬ (0 ≤ colIndex < width m))
  ∧ (0 ≤ colIndex < width m →
     ∃ m', DeleteColumn (Some m) colIndex = Success m'
           ∧ width m' = width m - 1 ∧ height m' = height m
           ∧ (∀ r c, Z.of_nat c < colIndex →
                     cell h m' r c = cell h m r c
                     ∧ cell_column h m' r c = cell_column h m r c)
           ∧ (∀ r c, colIndex ≤ Z.of_nat c →
                     cell h m' r c = cell h m r (S c)
                     ∧ cell_column h m' r c = cell_column h m r (S c))
           ∧ (∀ r c, Z.of_nat r < height m → colIndex ≤ Z.of_nat c < width m - 1 →
                     cell_column h m' r c = Some (Z.of_nat c + 1))
           ∧ NoDup (pointers m')
           ∧ (wf_matrix h m' = true ↔ colIndex = width m - 1 ∧ 1 < width m)).
Proof.
  intros Hwf%wf_matrix_spec Hnd. pose proof Hwf as Hwf'.
  destruct Hwf as [Hw Hh Hlen Hrows].
  unfold DeleteColumn. split; [done|]. split.
  - destruct (Z.ltb_spec colIndex 0), (Z.leb_spec (width m) colIndex); simpl;
      split; (done || lia).
  - intros Hk.
    destruct (Z.ltb_spec colIndex 0), (Z.leb_spec (width m) colIndex); simpl; try lia.
    eexists. split; [reflexivity|]. simpl.
    set (k := Z.to_nat colIndex).
    set (m' := {| head := (λ rn, {| row := delete k (row rn) |}) <$> head m;
                  width := width m - 1; height := height m |}).
    assert (∀ r c, cell_ptr m' r c
                   = if decide (c < k)%nat then cell_ptr m r c else cell_ptr m r (S c))
      as Hptr.
    { intros r c. rewrite !cell_ptr_eq. simpl. case_bool_decide.
      - rewrite list_lookup_fmap. destruct (head m !! r) as [rn|]; simpl.
        + case_decide; [by rewrite list_lookup_delete_lt | by rewrite list_lookup_delete_ge by lia].
        + by case_decide.
      - by case_decide. }
    assert (∀ r c, (c < k)%nat →
                   cell h m' r c = cell h m r c
                   ∧ cell_column h m' r c = cell_column h m r c) as Hleft.
    { intros r c Hc. unfold cell, cell_column. by rewrite Hptr, decide_True. }
    assert (∀ r c, (k ≤ c)%nat →
                   cell h m' r c = cell h m r (S c)
                   ∧ cell_column h m' r c = cell_column h m r (S c)) as Hright.
    { intros r c Hc. unfold cell, cell_column. by rewrite Hptr, decide_False by lia. }
    assert (∀ r c, Z.of_nat r < height m → Z.of_nat c < width m →
                   cell_column h m r c = Some (Z.of_nat c)) as Htag.
    { intros r c Hr Hc. unfold cell_column.
      destruct (cell_ptr_inside h m r c Hwf' Hr Hc) as (rn & p & e & _ & _ & -> & He & Hce).
      simpl. rewrite He. simpl. by rewrite Hce. }
    split_and!; try done.
    + intros r c Hc. apply Hleft. lia.
    + intros r c Hc. apply Hright. lia.
    + intros r c Hr Hc. destruct (Hright r c) as [_ ->]; [lia|].
      rewrite Htag by lia. f_equal. lia.
    + unfold pointers. simpl. by apply pointers_delete_column.
    + split.
      * intros Hwfm'%wf_matrix_spec.
        pose proof (wf_width _ _ Hwfm') as Hw'. simpl in Hw'.
        split; [|lia].
        destruct (decide (colIndex = width m - 1)) as [|Hne]; [done|]. exfalso.
        destruct (cell_ptr_inside h m' 0 k Hwfm') as (_ & p & e & _ & _ & Hp & He & Hce);
          [simpl; lia..|].
        destruct (Hright 0%nat k) as [_ Hcol]; [lia|].
        unfold cell_column in Hcol at 1. rewrite Hp in Hcol. simpl in Hcol.
        rewrite He, Htag in Hcol by lia. simpl in Hcol. injection Hcol as Hcol. lia.
      * intros [-> Hgt]. apply well_formed_wf_matrix. split; simpl; [lia|done| |].
        -- rewrite length_fmap. lia.
        -- apply Forall_fmap, Forall_forall. intros rn Hrn.
           rewrite Forall_forall in Hrows. destruct (Hrows rn Hrn) as [Hl Hc].
           split; simpl.
           ++ rewrite length_delete; [lia|]. apply lookup_lt_is_Some. lia.
           ++ intros c p Hp. pose proof (lookup_lt_Some _ _ _ Hp) as Hlt.
              rewrite length_delete in Hlt by (apply lookup_lt_is_Some; lia).
              rewrite list_lookup_delete_lt in Hp by lia. by apply Hc.
Qed.

Lemma DeleteColumn_keeps_stale_column_fields_witness :
  ∃ m', DeleteColumn (Some m_diag.2) 0 = Success m'
        ∧ width m' = width m_diag.2 - 1 ∧ height m' = height m_diag.2
        ∧ (∀ r c, Z.of_nat c < 0 →
                  cell m_diag.1 m' r c = cell m_diag.1 m_diag.2 r c
                  ∧ cell_column m_diag.1 m' r c = cell_column m_diag.1 m_diag.2 r c)
        ∧ (∀ r c, 0 ≤ Z.of_nat c →
                  cell m_diag.1 m' r c = cell m_diag.1 m_diag.2 r (S c)
                  ∧ cell_column m_diag.1 m' r c = cell_column m_diag.1 m_diag.2 r (S c))
        ∧ (∀ r c, Z.of_nat r < height m_diag.2 → 0 ≤ Z.of_nat c < width m_diag.2 - 1 →
                  cell_column m_diag.1 m' r c = Some (Z.of_nat c + 1))
        ∧ NoDup (pointers m')
        ∧ (wf_matrix m_diag.1 m' = true ↔ 0 = width m_diag.2 - 1 ∧ 1 < width m_diag.2).
Proof.
  destruct (DeleteColumn_keeps_stale_column_fields m_diag.1 m_diag.2 0) as (_ & _ & Hok).
  - reflexivity.
  - by apply (bool_decide_unpack _).
  - by apply Hok.
Defined.

(** ** matrix_io.c: the size of the matrix in a file *)

Lemma count_columns_line line tail n :
  NEWLINE ∉ line →
  count_columns (line ++ NEWLINE :: tail) n = (n + separators line, tail).
Proof.
  revert n. induction line as [|c line IH]; intros n Hnl; simpl.
  { unfold separators. simpl. f_equal. lia. }
  apply not_elem_of_cons in Hnl as [Hc Hnl].
  destruct (Z.eqb_spec c NEWLINE); [done|].
  rewrite IH by done. f_equal. unfold separators. rewrite filter_cons.
  destruct (Z.eqb_spec c SEPARATOR).
  - rewrite decide_True by done. simpl. lia.
  - rewrite decide_False by done. lia.
Qed.

Lemma count_columns_eof line n :
  NEWLINE ∉ line → count_columns line n = (n + separators line, []).
Proof.
  revert n. induction line as [|c line IH]; intros n Hnl; simpl.
  { unfold separators. simpl. f_equal. lia. }
  apply not_elem_of_cons in Hnl as [Hc Hnl].
  destruct (Z.eqb_spec c NEWLINE); [done|].
  rewrite IH by done. f_equal. unfold separators. rewrite filter_cons.
  destruct (Z.eqb_spec c SEPARATOR).
  - rewrite decide_True by done. simpl. lia.
  - rewrite decide_False by done. lia.
Qed.

Lemma count_rows_app l1 l2 n : count_rows (l1 ++ l2) n = count_rows l2 (count_rows l1 n).
Proof. revert n. induction l1 as [|c l1 IH]; intros n; simpl; [done|]. by rewrite IH. Qed.

Lemma count_rows_line line n : NEWLINE ∉ line → count_rows line n = n.
Proof.
  revert n. induction line as [|c line IH]; intros n Hnl; simpl; [done|].
  apply not_elem_of_cons in Hnl as [Hc Hnl].
  destruct (Z.eqb_spec c NEWLINE); [done|]. by apply IH.
Qed.

Lemma count_rows_lines lines n :
  Forall (λ line, NEWLINE ∉ line) lines →
  count_rows (file_of_lines lines) n = n + Z.of_nat (length lines).
Proof.
  revert n. induction lines as [|line lines IH]; intros n Hall; [simpl; lia|].
  apply Forall_cons in Hall as [Hline Hall].
  unfold file_of_lines in *. rewrite bind_cons, !count_rows_app.
  rewrite IH by done. rewrite (count_rows_line line) by done. simpl.
  change (10 =? NEWLINE) with true. simpl. lia.
Qed.

(** X7.  [GetMatrixSizeFromFile] answers CANNOT_OPEN_FILE when the file
    cannot be opened.  Otherwise the width is one more than the number of
    separators in the first line, and the height is the number of lines that
    end with a newline: a last line without its newline is not counted,
    unless it is the only line. *)
Theorem GetMatrixSizeFromFile_counts_newlines first lines last :
  NEWLINE ∉ first → Forall (λ line, NEWLINE ∉ line) lines → NEWLINE ∉ last →
  GetMatrixSizeFromFile None = (CANNOT_OPEN_FILE, None)
  ∧ GetMatrixSizeFromFile (Some (file_of_lines (first :: lines) ++ last))
    = (SUCCESS, Some (separators first + 1, Z.of_nat (length (first :: lines))))
  ∧ GetMatrixSizeFromFile (Some last) = (SUCCESS, Some (separators last + 1, 1)).
Proof.
  intros Hfirst Hlines Hlast. split; [done|]. unfold GetMatrixSizeFromFile. split.
  - unfold file_of_lines. rewrite bind_cons, <- !app_assoc. simpl.
    rewrite count_columns_line by done.
    fold (file_of_lines lines). rewrite count_rows_app, count_rows_lines by done.
    rewrite count_rows_line by done. do 3 f_equal. lia.
  - rewrite count_columns_eof by done. done.
Qed.

Lemma GetMatrixSizeFromFile_counts_newlines_witness :
  GetMatrixSizeFromFile None = (CANNOT_OPEN_FILE, None)
  ∧ GetMatrixSizeFromFile
      (Some (file_of_lines ([49; 59; 50] :: [[51; 59; 52]]) ++ [53; 59; 54]))
    = (SUCCESS, Some (separators [49; 59; 50] + 1,
                      Z.of_nat (length ([49; 59; 50] :: [[51; 59; 52]]))))
  ∧ GetMatrixSizeFromFile (Some [53; 59; 54])
    = (SUCCESS, Some (separators [53; 59; 54] + 1, 1)).
Proof.
  apply GetMatrixSizeFromFile_counts_newlines;
    [by apply (bool_decide_unpack _) | | by apply (bool_decide_unpack _)].
  repeat constructor; by apply (bool_decide_unpack _).
Defined.

(** ** backtrack.c: what the search keeps and what it cannot reach *)

Lemma foldl_invariant {A B} (P : A → Prop) (f : A → B → A) (l : list B) (a : A) :
  (∀ a x, x ∈ l → P a → P (f a x)) → P a → P (foldl f a l).
Proof.
  revert a. induction l as [|x l IH]; intros a Hf Ha; simpl; [done|].
  apply IH.
  - intros a' y Hy. apply Hf. by apply list_elem_of_further.
  - apply Hf; [apply list_elem_of_here | done].
Qed.

Lemma set_used_restore k i v w st :
  rd (usedRows st) k = 0 → rd (usedColumns st) i = 0 →
  set_used k 0 i 0 (set_used k v i w st) = st.
Proof.
  intros Hr Hc. destruct st as [ms sv sc ur uc]. unfold set_used. simpl in *.
  by rewrite !insert_restore.
Qed.

(** A call of [Explore] hands the marks back as it found them, never lowers
    [maxSum], and leaves the whole state alone unless it raises [maxSum]. *)
Lemma Explore_keeps h m fuel :
  ∀ k currentSum st,
    usedRows (Explore fuel h m k currentSum st) = usedRows st
    ∧ usedColumns (Explore fuel h m k currentSum st) = usedColumns st
    ∧ maxSum st ≤ maxSum (Explore fuel h m k currentSum st)
    ∧ (maxSum (Explore fuel h m k currentSum st) = maxSum st
       → Explore fuel h m k currentSum st = st).
Proof.
  induction fuel as [|fuel IH]; intros k currentSum st; rewrite Explore_unfold.
  - destruct (_ =? height m); [|split_and!; done || lia].
    destruct (Z.gtb_spec currentSum (maxSum st)); simpl; split_and!; done || lia.
  - destruct (_ =? height m).
    { destruct (Z.gtb_spec currentSum (maxSum st)); simpl; split_and!; done || lia. }
    apply (foldl_invariant
             (λ st', usedRows st' = usedRows st ∧ usedColumns st' = usedColumns st
                     ∧ maxSum st ≤ maxSum st' ∧ (maxSum st' = maxSum st → st' = st)));
      [|split_and!; done || lia].
    intros st0 i _ (Hur & Huc & Hle & Hsame).
    destruct (Z.eqb_spec (rd (usedRows st0) k) 0) as [Hr|]; simpl;
      [|split_and!; done || lia].
    destruct (Z.eqb_spec (rd (usedColumns st0) i) 0) as [Hc|]; simpl;
      [|split_and!; done || lia].
    destruct (IH (S k) (CInt.add currentSum (cell h m k i))
                (set_used k 1 i (Z.of_nat k + 1) st0)) as (Hr1 & Hc1 & Hm1 & Hs1).
    simpl in *. rewrite Hr1, Hc1.
    rewrite !insert_restore by done.
    split_and!; [done|done|lia|].
    intros Heq. rewrite <- Hsame by lia.
    rewrite Hs1 by lia. by apply set_used_restore.
Qed.

Lemma filter_free_insert_notin (uc : list Z) i v (l : list nat) :
  i ∉ l →
  filter (λ c, rd (<[i := v]> uc) c = 0) l = filter (λ c, rd uc c = 0) l.
Proof.
  induction l as [|c l IH]; intros Hi; [done|].
  apply not_elem_of_cons in Hi as [Hc Hi].
  rewrite !filter_cons, IH by done.
  rewrite rd_insert, (decide_False (P := i = c ∧ _)); [done|]. intros [-> _]. done.
Qed.

Lemma free_columns_insert (uc : list Z) i v w :
  (i < w)%nat → (i < length uc)%nat → rd uc i = 0 → v ≠ 0 →
  S (free_columns (<[i := v]> uc) w) = free_columns uc w.
Proof.
  intros Hw Hlen Hfree Hv. unfold free_columns.
  assert (i ∈ seq 0 w) as Hin by (apply elem_of_seq; lia).
  pose proof (NoDup_seq 0 w) as Hnd. revert Hin Hnd.
  generalize (seq 0 w). intros l.
  induction l as [|c l IH]; intros Hin Hnd; [by apply elem_of_nil in Hin|].
  apply NoDup_cons in Hnd as [Hc Hnd]. rewrite !filter_cons.
  destruct (decide (c = i)) as [->|Hne].
  - rewrite filter_free_insert_notin by done.
    rewrite rd_insert, (decide_True (P := i = i ∧ _)) by done.
    rewrite (decide_False (P := v = 0)) by done.
    rewrite (decide_True (P := rd uc i = 0)) by done. done.
  - apply elem_of_cons in Hin as [->|Hin]; [done|].
    rewrite rd_insert, (decide_False (P := i = c ∧ _)) by (intros [-> _]; done).
    case_decide; simpl; by rewrite IH.
Qed.

(** With fewer free columns than rows left to place, [Explore] never reaches
    the last row and hands the state back unchanged. *)
Lemma Explore_stuck h m fuel :
  ∀ k currentSum st,
    length (usedColumns st) = Z.to_nat (width m) →
    (free_columns (usedColumns st) (Z.to_nat (width m)) + k < Z.to_nat (height m))%nat →
    Explore fuel h m k currentSum st = st.
Proof.
  induction fuel as [|fuel IH]; intros k currentSum st Hlen Hfree; rewrite Explore_unfold;
    destruct (Z.eqb_spec (Z.of_nat k) (height m)); try lia; [done|].
  apply (foldl_invariant (λ st', st' = st)); [|done].
  intros st0 i Hi%elem_of_seq ->.
  destruct (Z.eqb_spec (rd (usedRows st) k) 0) as [Hr|]; simpl; [|done].
  destruct (Z.eqb_spec (rd (usedColumns st) i) 0) as [Hc|]; simpl; [|done].
  rewrite IH.
  - by apply set_used_restore.
  - simpl. by rewrite length_insert.
  - simpl.
    pose proof (free_columns_insert (usedColumns st) i (Z.of_nat k + 1)
                  (Z.to_nat (width m))) as Hins.
    lia.
Qed.

(** X8.  A call of [Explore] on a well-formed matrix, from any row and with
    any marks in arrays of the right size, undoes its own marks: [usedRows]
    and [usedColumns] come back as they were.  It never lowers [maxSum], and
    it replaces the recorded selection only when it raises [maxSum]: a
    placement that merely equals the best sum so far leaves the earlier
    selection in place. *)
Theorem Explore_backtracks h m fuel k currentSum st :
  wf_matrix h m = true → Z.of_nat k ≤ height m →
  length (usedRows st) = Z.to_nat (height m) →
  length (usedColumns st) = Z.to_nat (width m) →
  usedRows (Explore fuel h m k currentSum st) = usedRows st
  ∧ usedColumns (Explore fuel h m k currentSum st) = usedColumns st
  ∧ maxSum st ≤ maxSum (Explore fuel h m k currentSum st)
  ∧ (maxSum (Explore fuel h m k currentSum st) = maxSum st
     → selectionValues (Explore fuel h m k currentSum st) = selectionValues st
       ∧ selectionCount (Explore fuel h m k currentSum st) = selectionCount st).
Proof.
  intros _ _ _ _.
  destruct (Explore_keeps h m fuel k currentSum st) as (Hr & Hc & Hle & Hsame).
  split_and!; [done..|]. intros Heq. by rewrite Hsame.
Qed.

Lemma Explore_backtracks_witness :
  usedRows (Explore 2 m_2x2.1 m_2x2.2 0 0
              {| maxSum := 0; selectionValues := []; selectionCount := 0;
                 usedRows := [0; 0]; usedColumns := [0; 0] |}) = [0; 0]
  ∧ usedColumns (Explore 2 m_2x2.1 m_2x2.2 0 0
                   {| maxSum := 0; selectionValues := []; selectionCount := 0;
                      usedRows := [0; 0]; usedColumns := [0; 0] |}) = [0; 0]
  ∧ 0 ≤ maxSum (Explore 2 m_2x2.1 m_2x2.2 0 0
                  {| maxSum := 0; selectionValues := []; selectionCount := 0;
                     usedRows := [0; 0]; usedColumns := [0; 0] |})
  ∧ (maxSum (Explore 2 m_2x2.1 m_2x2.2 0 0
               {| maxSum := 0; selectionValues := []; selectionCount := 0;
                  usedRows := [0; 0]; usedColumns := [0; 0] |}) = 0
     → selectionValues (Explore 2 m_2x2.1 m_2x2.2 0 0
                          {| maxSum := 0; selectionValues := []; selectionCount := 0;
                             usedRows := [0; 0]; usedColumns := [0; 0] |}) = []
       ∧ selectionCount (Explore 2 m_2x2.1 m_2x2.2 0 0
                           {| maxSum := 0; selectionValues := []; selectionCount := 0;
                              usedRows := [0; 0]; usedColumns := [0; 0] |}) = 0).
Proof.
  apply (Explore_backtracks m_2x2.1 m_2x2.2 2 0 0
           {| maxSum := 0; selectionValues := []; selectionCount := 0;
              usedRows := [0; 0]; usedColumns := [0; 0] |});
    [reflexivity | by vm_compute | reflexivity | reflexivity].
Defined.

(** X9.  On a well-formed matrix whose dimensions have a product that fits
    in [int], the count of the third allocation, [BacktrackAlgorithm]
    returns; the sum it reports is never negative; a sum of 0 always comes
    with the empty selection; and on every such matrix with more rows than
    columns the answer is sum 0 with the empty selection, whatever the cells
    hold. *)
Theorem BacktrackAlgorithm_reports_nothing_below_one h m :
  wf_matrix h m = true →
  height m * width m ≤ CInt.INT_MAX →
  ∃ sol, BacktrackAlgorithm h (Some m) = Success sol
         ∧ 0 ≤ sum sol
         ∧ (sum sol = 0 → selection sol = [])
         ∧ (width m < height m → sum sol = 0).
Proof.
  intros Hwf Hfit. destruct (wf_matrix_spec _ _ Hwf) as [Hw Hh _ _].
  unfold BacktrackAlgorithm.
  destruct (Z.leb_spec (width m) 0); [lia|].
  destruct (Z.leb_spec (height m) 0); [lia|]. simpl.
  rewrite !calloc_Some by lia.
  rewrite mul_fits by done.
  eexists. split; [reflexivity|]. simpl.
  match goal with |- context [Explore ?f h m ?k ?s ?st] =>
    destruct (Explore_keeps h m f k s st) as (_ & _ & Hle & Hsame);
    pose proof (Explore_stuck h m f k s st) as Hstuck
  end.
  simpl in *. split_and!; [done| |].
  - intros Hz. by rewrite Hsame.
  - intros Htall. rewrite Hstuck; [done|by rewrite length_replicate|].
    unfold free_columns.
    pose proof (length_filter (λ c, rd (replicate (Z.to_nat (width m)) 0) c = 0)
                  (seq 0 (Z.to_nat (width m)))) as Hf.
    rewrite length_seq in Hf. lia.
Qed.

Lemma BacktrackAlgorithm_reports_nothing_below_one_witness :
  ∃ sol, BacktrackAlgorithm m_tall.1 (Some m_tall.2) = Success sol
         ∧ 0 ≤ sum sol
         ∧ (sum sol = 0 → selection sol = [])
         ∧ (width m_tall.2 < height m_tall.2 → sum sol = 0).
Proof.
  apply BacktrackAlgorithm_reports_nothing_below_one; [reflexivity | by vm_compute].
Defined.

(** ** greedy.c: which cell each row takes *)

(** The scan of a row, from any running maximum: it keeps what it started
    from when no free element is larger, and otherwise ends on the first of
    the largest free elements. *)
Lemma greedy_scan_max h ur uc ri elems :
  rd ur ri = 0 →
  ∀ mv me,
    (greedy_scan h ur uc ri elems mv me = (mv, me)
     ∧ ∀ q, q ∈ elems → rd uc (Z.to_nat (elem_column h q)) = 0 → elem_value h q ≤ mv)
    ∨ ∃ i p, elems !! i = Some p
             ∧ rd uc (Z.to_nat (elem_column h p)) = 0
             ∧ greedy_scan h ur uc ri elems mv me = (elem_value h p, Some p)
             ∧ mv < elem_value h p
             ∧ ∀ j q, elems !! j = Some q → rd uc (Z.to_nat (elem_column h q)) = 0 →
                      elem_value h q ≤ elem_value h p
                      ∧ ((j < i)%nat → elem_value h q < elem_value h p).
Proof.
  intros Hr. induction elems as [|p elems IH]; intros mv me; simpl.
  { left. split; [done|]. intros q Hq. by apply elem_of_nil in Hq. }
  rewrite Hr. simpl.
  destruct (Z.eqb_spec (rd uc (Z.to_nat (elem_column h p))) 0) as [Hc|Hc]; simpl.
  - destruct (Z.gtb_spec (elem_value h p) mv) as [Hv|Hv].
    + right.
      destruct (IH (elem_value h p) (Some p))
        as [[Heq Hall]|(i & q & Hi & Hfq & Heq & Hlt & Hall)].
      * exists 0%nat, p. split_and!; [done|done|done|lia|].
        intros j q Hj Hfq. destruct j as [|j]; simpl in Hj.
        -- injection Hj as <-. split; lia.
        -- split; [|lia]. apply Hall; [|done]. by eapply list_elem_of_lookup_2.
      * exists (S i), q. split_and!; [done|done|done|lia|].
        intros j q' Hj Hfq'. destruct j as [|j]; simpl in Hj.
        -- injection Hj as <-. split; lia.
        -- destruct (Hall j q' Hj Hfq') as [Hle Hlt']. split; [done|].
           intros Hji. apply Hlt'. lia.
    + destruct (IH mv me) as [[Heq Hall]|(i & q & Hi & Hfq & Heq & Hlt & Hall)].
      * left. split; [done|].
        intros q [->|Hq]%elem_of_cons Hfq; [lia | by apply Hall].
      * right. exists (S i), q. split_and!; [done|done|done|lia|].
        intros j q' Hj Hfq'. destruct j as [|j]; simpl in Hj.
        -- injection Hj as <-. split; lia.
        -- destruct (Hall j q' Hj Hfq') as [Hle Hlt']. split; [done|].
           intros Hji. apply Hlt'. lia.
  - destruct (IH mv me) as [[Heq Hall]|(i & q & Hi & Hfq & Heq & Hlt & Hall)].
    + left. split; [done|].
      intros q [->|Hq]%elem_of_cons Hfq; [done | by apply Hall].
    + right. exists (S i), q. split_and!; [done|done|done|lia|].
      intros j q' Hj Hfq'. destruct j as [|j]; simpl in Hj.
      * injection Hj as <-. done.
      * destruct (Hall j q' Hj Hfq') as [Hle Hlt']. split; [done|].
        intros Hji. apply Hlt'. lia.
Qed.

(** X10.  The scan of one row in [GreedyAlgorithm], for a row not yet used
    whose elements are allocated and carry columns inside [usedColumns]:
    it returns no element exactly when no element in a free column holds more
    than INT_MIN; otherwise it returns an element in a free column whose
    value is the largest among the free ones, and among equal largest values
    the one that comes first in the row. *)
Theorem greedy_scan_takes_first_largest h ur uc ri elems :
  (ri < length ur)%nat →
  Forall (λ p, is_Some (h !! p) ∧ 0 ≤ elem_column h p < Z.of_nat (length uc)) elems →
  rd ur ri = 0 →
  match greedy_scan h ur uc ri elems CInt.INT_MIN None with
  | (v, None) =>
      v = CInt.INT_MIN
      ∧ ∀ q, q ∈ elems → rd uc (Z.to_nat (elem_column h q)) = 0 →
             elem_value h q ≤ CInt.INT_MIN
  | (v, Some p) =>
      v = elem_value h p ∧ CInt.INT_MIN < v
      ∧ ∃ i, elems !! i = Some p
             ∧ rd uc (Z.to_nat (elem_column h p)) = 0
             ∧ ∀ j q, elems !! j = Some q → rd uc (Z.to_nat (elem_column h q)) = 0 →
                      elem_value h q ≤ elem_value h p
                      ∧ ((j < i)%nat → elem_value h q < elem_value h p)
  end.
Proof.
  intros _ _ Hr.
  destruct (greedy_scan_max h ur uc ri elems Hr CInt.INT_MIN None)
    as [[-> Hall]|(i & p & Hi & Hfp & -> & Hlt & Hall)].
  - done.
  - split_and!; [done|done|]. by exists i.
Qed.

Lemma greedy_scan_takes_first_largest_witness :
  match greedy_scan m_2x2.1 [0; 0] [0; 0] 0 [0; 1]%nat CInt.INT_MIN None with
  | (v, None) =>
      v = CInt.INT_MIN
      ∧ ∀ q, q ∈ [0; 1]%nat → rd [0; 0] (Z.to_nat (elem_column m_2x2.1 q)) = 0 →
             elem_value m_2x2.1 q ≤ CInt.INT_MIN
  | (v, Some p) =>
      v = elem_value m_2x2.1 p ∧ CInt.INT_MIN < v
      ∧ ∃ i, [0; 1]%nat !! i = Some p
             ∧ rd [0; 0] (Z.to_nat (elem_column m_2x2.1 p)) = 0
             ∧ ∀ j q, [0; 1]%nat !! j = Some q →
                      rd [0; 0] (Z.to_nat (elem_column m_2x2.1 q)) = 0 →
                      elem_value m_2x2.1 q ≤ elem_value m_2x2.1 p
                      ∧ ((j < i)%nat → elem_value m_2x2.1 q < elem_value m_2x2.1 p)
  end.
Proof.
  apply (greedy_scan_takes_first_largest m_2x2.1 [0; 0] [0; 0] 0).
  - simpl. lia.
  - apply Forall_cons. split; [split; [by eexists | by vm_compute]|].
    apply Forall_cons. split; [split; [by eexists | by vm_compute]|].
    apply Forall_nil_2.
  - reflexivity.
Defined.

Lemma path_sum_snoc h m k cols c :
  path_sum h m k (cols ++ [c]) = path_sum h m k cols + cell h m (k + length cols) c.
Proof.
  revert k. induction cols as [|c' cols IH]; intros k; simpl.
  { rewrite Nat.add_0_r. lia. }
  rewrite IH. replace (S k + length cols)%nat with (k + S (length cols))%nat by lia. lia.
Qed.

Lemma path_sum_bound h m B k cols :
  (∀ r c, - B ≤ cell h m r c ≤ B) →
  - (Z.of_nat (length cols) * B) ≤ path_sum h m k cols ≤ Z.of_nat (length cols) * B.
Proof.
  intros Hcells. revert k. induction cols as [|c cols IH]; intros k; simpl; [lia|].
  pose proof (Hcells k c). pose proof (IH (S k)). lia.
Qed.

Lemma free_column_exists (cols : list nat) (w : nat) :
  (length cols < w)%nat → ∃ c, (c < w)%nat ∧ c ∉ cols.
Proof.
  intros Hlen.
  destruct (decide (Forall (λ c, c ∈ cols) (seq 0 w))) as [Hall|Hn].
  - exfalso. assert (seq 0 w ⊆+ cols) as Hsub.
    { apply NoDup_submseteq; [apply NoDup_seq|]. by apply Forall_forall. }
    apply submseteq_length in Hsub. rewrite length_seq in Hsub. lia.
  - apply not_Forall_Exists in Hn; [|apply _].
    apply Exists_exists in Hn as (c & Hc%elem_of_seq & Hnot). exists c. split; [lia|done].
Qed.

(** One row of the greedy solver, with a column still free and cells inside
    the bound: the row takes a column. *)
Lemma greedy_row_full h m B r rn st cols :
  well_formed h m → Z.of_nat r < width m → bounded_cells h m B →
  head m !! r = Some rn →
  greedy_full h m r st cols →
  ∃ c, greedy_full h m (S r) (greedy_row h rn r st) (cols ++ [c]).
Proof.
  intros Hwf Htall [Hcells HB] Hrn
    [Hlen Hsel Hnd Hrange Hmarks Hrows Huclen Hsum Hchoice].
  pose proof Hwf as [Hw Hh Hrowslen Hrowok].
  pose proof (lookup_lt_Some _ _ _ Hrn) as Hr.
  assert (row_ok h (width m) rn) as [Hrlen Hcol].
  { rewrite Forall_forall in Hrowok. apply Hrowok. by eapply list_elem_of_lookup_2. }
  assert (0 ≤ B) as HB0 by (pose proof (Hcells 0%nat 0%nat); lia).
  assert (∀ c p, row rn !! c = Some p →
            elem_column h p = Z.of_nat c ∧ elem_value h p = cell h m r c) as Hcell.
  { intros c p Hp. split; [by apply elem_column_ok, Hcol|].
    unfold cell. by rewrite (cell_ptr_lookup m r c rn Hrowslen Hrn), Hp. }
  assert (∀ c p, row rn !! c = Some p →
            (rd (g_usedColumns st) (Z.to_nat (elem_column h p)) = 0 ↔ c ∉ cols)) as Hfree.
  { intros c p Hp. destruct (Hcell c p Hp) as [-> _]. rewrite Nat2Z.id.
    specialize (Hmarks c). split.
    - intros Hz Hin. by apply Hmarks in Hin.
    - intros Hnot. destruct (decide (rd (g_usedColumns st) c = 0)); [done|].
      exfalso. by apply Hnot, Hmarks. }
  destruct (greedy_scan_max h (g_usedRows st) (g_usedColumns st) r (row rn)
              (Hrows r ltac:(lia)) CInt.INT_MIN None)
    as [[Heq Hall]|(i & p & Hi & Hfp & Heq & Hlt & Hall)].
  - exfalso.
    destruct (free_column_exists cols (Z.to_nat (width m))) as (c0 & Hc0 & Hnot); [lia|].
    destruct (lookup_lt_is_Some_2 (row rn) c0) as [p0 Hp0]; [lia|].
    specialize (Hall p0 (list_elem_of_lookup_2 _ _ _ Hp0) (proj2 (Hfree _ _ Hp0) Hnot)).
    rewrite (proj2 (Hcell _ _ Hp0)) in Hall.
    pose proof (Hcells r c0). unfold CInt.INT_MIN, CInt.INT_MAX in *. nia.
  - destruct (Hcell _ _ Hi) as [Hci Hvi].
    pose proof (proj1 (Hfree _ _ Hi) Hfp) as Hnotin.
    pose proof (lookup_lt_Some _ _ _ Hi) as Hilt.
    exists i. unfold greedy_row. rewrite Heq. simpl. rewrite Hci, Hvi, Nat2Z.id.
    split; simpl.
    + rewrite length_app. simpl. lia.
    + rewrite Hsel. unfold path_cells. rewrite imap_app. simpl.
      by rewrite Hlen, Nat.add_0_r.
    + apply NoDup_app. split_and!; [done| |apply NoDup_singleton].
      intros x Hx ->%list_elem_of_singleton. done.
    + apply Forall_app. split; [done|]. apply Forall_singleton. lia.
    + intros c. rewrite rd_insert, elem_of_app, list_elem_of_singleton.
      case_decide as Hd.
      * destruct Hd as [-> _]. split; [by right | lia].
      * rewrite Hmarks. split; [by left|]. intros [?| ->]; [done|].
        exfalso. apply Hd. split; [done|lia].
    + intros j Hj. rewrite rd_insert, decide_False by lia. apply Hrows. lia.
    + by rewrite length_insert.
    + rewrite path_sum_snoc, Hsum, Hlen. simpl. unfold CInt.add. apply wrap_small.
      pose proof (path_sum_bound h m B 0 cols Hcells) as Hb. rewrite Hlen in Hb.
      pose proof (Hcells r i). unfold CInt.INT_MIN, CInt.INT_MAX in *. nia.
    + intros r' c1 c' Hc1 Hc' Hnot.
      destruct (decide (r' < length cols)%nat) as [Hlt'|Hge].
      * rewrite lookup_app_l in Hc1 by done.
        rewrite take_app_le in Hnot by lia. by eapply Hchoice.
      * apply lookup_lt_Some in Hc1 as Hlt'. rewrite length_app in Hlt'. simpl in Hlt'.
        assert (r' = length cols) as -> by lia.
        rewrite take_app_length in Hnot.
        rewrite list_lookup_middle in Hc1 by done. injection Hc1 as <-.
        rewrite Hlen.
        destruct (lookup_lt_is_Some_2 (row rn) c') as [q Hq]; [lia|].
        destruct (Hall c' q Hq (proj2 (Hfree _ _ Hq) Hnot)) as [Hle _].
        by rewrite (proj2 (Hcell _ _ Hq)), Hvi in Hle.
Qed.

Lemma greedy_rows_full h m B rows :
  well_formed h m → bounded_cells h m B →
  ∀ r st cols,
    Z.of_nat (r + length rows) ≤ width m →
    (∀ j rn, rows !! j = Some rn → head m !! (r + j)%nat = Some rn) →
    greedy_full h m r st cols →
    ∃ cols', greedy_full h m (r + length rows) (greedy_rows h rows r st) cols'.
Proof.
  intros Hwf Hbound.
  induction rows as [|rn rows IH]; intros r st cols Hfit Hrows Hfull; simpl.
  { exists cols. by rewrite Nat.add_0_r. }
  simpl in Hfit.
  destruct (greedy_row_full h m B r rn st cols) as (c & Hfull'); try done.
  { lia. }
  { specialize (Hrows 0%nat rn eq_refl). by rewrite Nat.add_0_r in Hrows. }
  replace (r + S (length rows))%nat with (S r + length rows)%nat by lia.
  apply (IH (S r) _ (cols ++ [c])); [lia| |done].
  intros j rn' Hj. specialize (Hrows (S j) rn' Hj).
  by replace (S r + j)%nat with (r + S j)%nat by lia.
Qed.

(** The greedy solver on a matrix with no more rows than columns and cells
    inside the bound: every row takes a column. *)
Lemma GreedyAlgorithm_full h m B :
  wf_matrix h m = true → height m ≤ width m → bounded_cells h m B →
  ∃ st cols,
    GreedyAlgorithm h (Some m)
    = Success {| sum := g_maxSum st; selection := g_maxSelection st |}
    ∧ greedy_full h m (Z.to_nat (height m)) st cols.
Proof.
  intros Hwf%wf_matrix_spec Htall Hbound.
  pose proof Hwf as [Hw Hh Hlen Hrows].
  unfold GreedyAlgorithm.
  destruct (Z.leb_spec (width m) 0); [lia|].
  rewrite !calloc_Some by lia.
  destruct (greedy_rows_full h m B (head m) Hwf Hbound 0%nat
              {| g_maxSum := 0; g_maxSelection := [];
                 g_usedRows := replicate (Z.to_nat (height m)) 0;
                 g_usedColumns := replicate (Z.to_nat (width m)) 0 |} [])
    as (cols & Hfull).
  { lia. }
  { intros j rn Hj. done. }
  { split; simpl; try done.
    all: first [ by constructor
               | by rewrite length_replicate
               | by intros i _; apply rd_replicate
               | intros c; rewrite rd_replicate; split; [done|];
                 intros Hc; by apply elem_of_nil in Hc ]. }
  eexists _, cols. split; [reflexivity|].
  replace (0 + length (head m))%nat with (Z.to_nat (height m)) in Hfull by lia.
  exact Hfull.
Qed.

(** X12.  On a well-formed matrix with no more rows than columns, whose
    cells are small enough that no sum leaves the range of [int], the greedy
    solver never reports more than the exhaustive one. *)
Theorem greedy_sum_at_most_backtrack_sum h m B g b :
  wf_matrix h m = true → height m ≤ width m → bounded_cells h m B →
  GreedyAlgorithm h (Some m) = Success g →
  BacktrackAlgorithm h (Some m) = Success b →
  sum g ≤ sum b.
Proof.
  intros Hwf Htall Hbound Hg.
  destruct (GreedyAlgorithm_full h m B Hwf Htall Hbound) as (st & cols & Hg' & Hfull).
  rewrite Hg' in Hg. injection Hg as <-. simpl.
  destruct (wf_matrix_spec _ _ Hwf) as [Hw Hh _ _].
  destruct Hfull as [Hlen _ Hnd Hrange _ _ _ -> _].
  unfold BacktrackAlgorithm.
  destruct (Z.leb_spec (width m) 0); [lia|].
  destruct (Z.leb_spec (height m) 0); [lia|]. simpl.
  rewrite !calloc_Some by lia.
  destruct (CInt.mul _ _ <? 0); [done|]. intros [= <-]. simpl.
  destruct (Explore_maxSum h m B Hbound (Z.to_nat (height m)) 0 0
              {| maxSum := 0; selectionValues := []; selectionCount := 0;
                 usedRows := replicate (Z.to_nat (height m)) 0;
                 usedColumns := replicate (Z.to_nat (width m)) 0 |})
    as (_ & Hb & _); simpl in *; try lia.
  { by rewrite length_replicate. }
  { intros r _. apply rd_replicate. }
  apply (Hb cols). split_and!; [lia|done|].
  eapply Forall_impl; [exact Hrange|]. simpl. intros c Hc. split; [done|apply rd_replicate].
Qed.

Lemma greedy_sum_at_most_backtrack_sum_witness :
  sum {| sum := 27;
         selection := [{| sel_row := 0; sel_col := 0; sel_value := 9 |};
                       {| sel_row := 1; sel_col := 1; sel_value := 9 |};
                       {| sel_row := 2; sel_col := 2; sel_value := 9 |}] |}
  ≤ sum {| sum := 27;
           selection := [{| sel_row := 0; sel_col := 0; sel_value := 9 |};
                         {| sel_row := 1; sel_col := 1; sel_value := 9 |};
                         {| sel_row := 2; sel_col := 2; sel_value := 9 |}] |}.
Proof.
  apply (greedy_sum_at_most_backtrack_sum m_diag.1 m_diag.2 9);
    [reflexivity | by vm_compute | exact m_diag_bounded | by vm_compute | by vm_compute].
Defined.

(** ** hungarian.c: the passes that precede the loop *)

Lemma length_set_value h p v : length (set_value h p v) = length h.
Proof. unfold set_value. by rewrite length_alter. Qed.

(** A loop that rewrites each element of a duplicate-free chain from its own
    value rewrites exactly these elements. *)
Lemma foldl_update_values (g : Z → Z) ps :
  ∀ h, NoDup ps → Forall (λ p, (p < length h)%nat) ps →
  ∀ q, elem_value (foldl (λ h p, set_value h p (g (elem_value h p))) h ps) q
       = if decide (q ∈ ps) then g (elem_value h q) else elem_value h q.
Proof.
  induction ps as [|p ps IH]; intros h Hnd Hall q; cbn [foldl].
  { rewrite decide_False; [done|]. apply not_elem_of_nil. }
  apply NoDup_cons in Hnd as [Hp Hnd]. apply Forall_cons in Hall as [Hlt Hall].
  rewrite IH; [|done|].
  2: { eapply Forall_impl; [exact Hall|]. intros x Hx. simpl.
       by rewrite length_set_value. }
  destruct (decide (q = p)) as [->|Hne].
  - rewrite (decide_False (P := p ∈ ps)) by done.
    rewrite (decide_True (P := p ∈ p :: ps)) by apply list_elem_of_here.
    apply elem_value_set_same. by apply lookup_lt_is_Some_2.
  - rewrite elem_value_set_ne by done. destruct (decide (q ∈ ps)) as [Hin|Hnot].
    + rewrite (decide_True (P := q ∈ p :: ps)) by (by apply list_elem_of_further). done.
    + rewrite (decide_False (P := q ∈ p :: ps)); [done|].
      intros [?|?]%elem_of_cons; done.
Qed.

Lemma foldl_update_length (g : Z → Z) ps h :
  length (foldl (λ h p, set_value h p (g (elem_value h p))) h ps) = length h.
Proof.
  revert h. induction ps as [|p ps IH]; intros h; simpl; [done|].
  by rewrite IH, length_set_value.
Qed.

Lemma foldl_rows_flat {A} (body : A → ptr → A) (rows : list MatrixRowNode) (a : A) :
  foldl (λ a rowNode, foldl body a (row rowNode)) a rows = foldl body a (rows ≫= row).
Proof.
  revert a. induction rows as [|rn rows IH]; intros a; [done|].
  rewrite bind_cons, foldl_app. simpl. apply IH.
Qed.

Lemma foldl_omap {A B C} (f : B → option C) (g : A → C → A) (l : list B) (a : A) :
  foldl (λ a x, match f x with Some y => g a y | None => a end) a l
  = foldl g a (omap f l).
Proof.
  revert a. induction l as [|x l IH]; intros a; simpl; [done|].
  destruct (f x); simpl; apply IH.
Qed.

(** The running minimum of a chain. *)
Lemma min_fold_spec h ps :
  ∀ mn, foldl (min_step h) mn ps ≤ mn
        ∧ (∀ p, p ∈ ps → foldl (min_step h) mn ps ≤ elem_value h p)
        ∧ (foldl (min_step h) mn ps = mn
           ∨ ∃ p, p ∈ ps ∧ foldl (min_step h) mn ps = elem_value h p).
Proof.
  induction ps as [|p ps IH]; intros mn; simpl.
  { split_and!; [lia| |by left]. intros p Hp. by apply elem_of_nil in Hp. }
  destruct (IH (min_step h mn p)) as (Hle & Hall & Hsome).
  assert (min_step h mn p ≤ mn ∧ min_step h mn p ≤ elem_value h p
          ∧ (min_step h mn p = mn ∨ min_step h mn p = elem_value h p)) as (H1 & H2 & H3).
  { unfold min_step. destruct (Z.ltb_spec (elem_value h p) mn); lia. }
  split_and!; [lia| |].
  - intros q [->|Hq]%elem_of_cons; [lia|by apply Hall].
  - destruct Hsome as [Heq|(q & Hq & Heq)].
    + destruct H3 as [H3|H3]; [left; lia|].
      right. exists p. split; [apply list_elem_of_here|lia].
    + right. exists q. split; [by apply list_elem_of_further|done].
Qed.

Lemma min_fold_ext h h' ps mn :
  (∀ p, p ∈ ps → elem_value h' p = elem_value h p) →
  foldl (min_step h') mn ps = foldl (min_step h) mn ps.
Proof.
  revert mn. induction ps as [|p ps IH]; intros mn Hext; simpl; [done|].
  unfold min_step at 2 4. rewrite (Hext p) by apply list_elem_of_here.
  apply IH. intros q Hq. apply Hext. by apply list_elem_of_further.
Qed.

Lemma SubtractRowMinima_groups h m :
  SubtractRowMinima h m = subtract_minima (row <$> head m) h.
Proof.
  unfold SubtractRowMinima, subtract_minima. revert h.
  induction (head m) as [|rn rows IH]; intros h; simpl; [done|]. apply IH.
Qed.

Lemma SubtractColumnMinima_groups h m :
  SubtractColumnMinima h m
  = subtract_minima (column_ptrs m <$> seq 0 (Z.to_nat (width m))) h.
Proof.
  unfold SubtractColumnMinima, subtract_minima. revert h.
  induction (seq 0 (Z.to_nat (width m))) as [|c cols IH]; intros h; simpl; [done|].
  rewrite <- IH. f_equal. unfold column_ptrs.
  rewrite <- foldl_omap. f_equal. by rewrite <- foldl_omap.
Qed.

Lemma subtract_minima_length groups h : length (subtract_minima groups h) = length h.
Proof.
  unfold subtract_minima. revert h.
  induction groups as [|g groups IH]; intros h; simpl; [done|].
  rewrite IH. unfold subtract_at. apply (foldl_update_length (λ v, CInt.sub v _)).
Qed.

(** Each element loses the minimum of its own group, taken before the pass;
    every other element keeps its value. *)
Lemma subtract_minima_spec groups :
  ∀ h, NoDup (mjoin groups) → Forall (λ p, (p < length h)%nat) (mjoin groups) →
  (∀ g q, g ∈ groups → q ∈ g →
     elem_value (subtract_minima groups h) q
     = CInt.sub (elem_value h q) (foldl (min_step h) CInt.INT_MAX g))
  ∧ (∀ q, q ∉ mjoin groups → elem_value (subtract_minima groups h) q = elem_value h q).
Proof.
  induction groups as [|g groups IH]; intros h Hnd Hall.
  { split; [|done]. intros g q Hg. by apply elem_of_nil in Hg. }
  simpl in Hnd, Hall. apply NoDup_app in Hnd as (Hg & Hdisj & Hnd).
  apply Forall_app in Hall as [Hallg Hall].
  change (subtract_minima (g :: groups) h)
    with (subtract_minima groups
            (foldl (subtract_at (foldl (min_step h) CInt.INT_MAX g)) h g)).
  set (mn := foldl (min_step h) CInt.INT_MAX g).
  set (h1 := foldl (subtract_at mn) h g).
  assert (∀ q, elem_value h1 q
               = if decide (q ∈ g) then CInt.sub (elem_value h q) mn else elem_value h q)
    as Hh1.
  { intros q. unfold h1, subtract_at.
    by apply (foldl_update_values (λ v, CInt.sub v mn)). }
  assert (length h1 = length h) as Hlen1.
  { unfold h1, subtract_at. apply (foldl_update_length (λ v, CInt.sub v mn)). }
  destruct (IH h1 Hnd) as [Hin Hout].
  { eapply Forall_impl; [exact Hall|]. intros x Hx. simpl. by rewrite Hlen1. }
  split.
  - intros g' q [->|Hg']%elem_of_cons Hq.
    + rewrite Hout by (by apply Hdisj). rewrite Hh1. by rewrite decide_True.
    + assert (∀ p, p ∈ g' → p ∉ g) as Hsep.
      { intros p Hp Hpg. apply (Hdisj p Hpg). apply list_elem_of_join. eauto. }
      rewrite (Hin g' q Hg' Hq). rewrite Hh1, decide_False by (by apply Hsep).
      f_equal. apply min_fold_ext. intros p Hp.
      rewrite Hh1, decide_False by (by apply Hsep). done.
  - intros q Hq. simpl in Hq. apply not_elem_of_app in Hq as [Hq1 Hq2].
    rewrite Hout by done. rewrite Hh1. by rewrite decide_False.
Qed.

Lemma cell_elem h m r c p : cell_ptr m r c = Some p → cell h m r c = elem_value h p.
Proof. unfold cell. by intros ->. Qed.

Lemma join_fmap_bind {A B} (f : A → list B) (l : list A) : mjoin (f <$> l) = l ≫= f.
Proof. induction l as [|x l IH]; [done|]. rewrite fmap_cons, bind_cons. simpl. by rewrite IH. Qed.

Lemma omap_total_lookup {A B} (f : A → option B) (l : list A) i :
  (∀ x, x ∈ l → is_Some (f x)) → omap f l !! i = l !! i ≫= f.
Proof.
  revert i. induction l as [|x l IH]; intros i Htot; [done|].
  destruct (Htot x) as [y Hy]; [apply list_elem_of_here|].
  simpl. rewrite Hy. destruct i as [|i]; simpl; [done|].
  apply IH. intros x' Hx'. apply Htot. by apply list_elem_of_further.
Qed.

Lemma GetElementCol_lookup rn (c : nat) : GetElementCol (Some rn) (Z.of_nat c) = row rn !! c.
Proof.
  unfold GetElementCol. destruct (Z.ltb_spec (Z.of_nat c) 0); [lia|]. by rewrite Nat2Z.id.
Qed.

(** On a well-formed matrix the walk down column [c] meets the cells
    (0, c), (1, c), ... *)
Lemma column_ptrs_lookup h m r c :
  well_formed h m → Z.of_nat c < width m → column_ptrs m c !! r = cell_ptr m r c.
Proof.
  intros [Hw Hh Hlen Hrows] Hc. unfold column_ptrs.
  rewrite omap_total_lookup.
  - rewrite cell_ptr_eq. case_bool_decide as Hr.
    + destruct (head m !! r) as [rn|]; simpl; [|done]. apply GetElementCol_lookup.
    + rewrite lookup_ge_None_2; [done|]. lia.
  - intros rn Hrn. rewrite GetElementCol_lookup. apply lookup_lt_is_Some_2.
    rewrite Forall_forall in Hrows. destruct (Hrows rn Hrn) as [Hl _]. lia.
Qed.

Lemma column_ptrs_NoDup h m :
  well_formed h m → NoDup (pointers m) →
  NoDup (mjoin (column_ptrs m <$> seq 0 (Z.to_nat (width m)))).
Proof.
  intros Hwf Hnd. rewrite join_fmap_bind. apply NoDup_bind; [| |apply NoDup_seq].
  - intros c1 c2 p Hc1%elem_of_seq Hc2%elem_of_seq
      [r1 Hr1]%list_elem_of_lookup [r2 Hr2]%list_elem_of_lookup.
    rewrite (column_ptrs_lookup h) in Hr1, Hr2 by (done || lia).
    by destruct (cell_ptr_inj _ _ _ _ _ _ Hnd Hr1 Hr2).
  - intros c Hc%elem_of_seq. apply NoDup_alt. intros r1 r2 p Hr1 Hr2.
    rewrite (column_ptrs_lookup h) in Hr1, Hr2 by (done || lia).
    by destruct (cell_ptr_inj _ _ _ _ _ _ Hnd Hr1 Hr2).
Qed.

Lemma column_ptrs_pointers h m c p :
  well_formed h m → Z.of_nat c < width m → p ∈ column_ptrs m c → p ∈ pointers m.
Proof.
  intros Hwf Hc [r Hr]%list_elem_of_lookup.
  rewrite (column_ptrs_lookup h) in Hr by done. by eapply cell_ptr_pointers.
Qed.

Lemma pointers_allocated h m :
  well_formed h m → Forall (λ p, (p < length h)%nat) (pointers m).
Proof.
  intros Hwf. apply Forall_forall. intros p Hp.
  by eapply well_formed_pointers_allocated.
Qed.

(** [NegateAllElements]: every cell changes its sign. *)
Lemma NegateAllElements_cells h m r c :
  well_formed h m → NoDup (pointers m) →
  cell (NegateAllElements h m) m r c = CInt.neg (cell h m r c).
Proof.
  intros Hwf Hnd. unfold NegateAllElements, for_each_element.
  rewrite foldl_rows_flat. fold (pointers m). unfold cell.
  destruct (cell_ptr m r c) as [p|] eqn:Hp; simpl; [|done].
  rewrite (foldl_update_values CInt.neg) by (done || by apply pointers_allocated).
  rewrite decide_True; [done|]. by eapply cell_ptr_pointers.
Qed.

(** [MakeMatrixNonnegative]: the minimum it finds is the smallest cell (or
    INT_MAX), and when that is negative every cell loses it. *)
Lemma MakeMatrixNonnegative_cells h m :
  well_formed h m → NoDup (pointers m) →
  ∃ mn, mn ≤ CInt.INT_MAX
        ∧ (∀ r c, Z.of_nat r < height m → Z.of_nat c < width m → mn ≤ cell h m r c)
        ∧ (mn = CInt.INT_MAX
           ∨ ∃ r c, Z.of_nat r < height m ∧ Z.of_nat c < width m ∧ mn = cell h m r c)
        ∧ ∀ r c, Z.of_nat r < height m → Z.of_nat c < width m →
                 cell (MakeMatrixNonnegative h m) m r c
                 = if mn <? 0 then CInt.sub (cell h m r c) mn else cell h m r c.
Proof.
  intros Hwf Hnd. unfold MakeMatrixNonnegative.
  rewrite foldl_rows_flat. fold (pointers m).
  set (mn := foldl (min_step h) CInt.INT_MAX (pointers m)).
  destruct (min_fold_spec h (pointers m) CInt.INT_MAX) as (Hle & Hall & Hsome).
  fold mn in Hle, Hall, Hsome.
  exists mn. split_and!; [done| | |].
  - intros r c Hr Hc. destruct (cell_ptr_inside h m r c Hwf Hr Hc)
      as (rn & p & e & _ & _ & Hp & _).
    rewrite (cell_elem _ _ _ _ _ Hp). apply Hall. by eapply cell_ptr_pointers.
  - destruct Hsome as [?|(p & Hp & Heq)]; [by left|]. right.
    apply list_elem_of_bind in Hp as (rn & Hprn & [r Hr]%list_elem_of_lookup).
    apply list_elem_of_lookup in Hprn as [c Hc].
    destruct Hwf as [Hw Hh Hlen Hrows].
    assert (row_ok h (width m) rn) as [Hl _].
    { rewrite Forall_forall in Hrows. apply Hrows. by eapply list_elem_of_lookup_2. }
    exists r, c. apply lookup_lt_Some in Hr as Hr'. apply lookup_lt_Some in Hc as Hc'.
    split_and!; [lia|lia|].
    rewrite Heq. symmetry. apply cell_elem.
    by rewrite (cell_ptr_lookup m r c rn Hlen Hr).
  - intros r c Hr Hc. destruct (Z.ltb_spec mn 0); [|done].
    destruct (cell_ptr_inside h m r c Hwf Hr Hc) as (rn & p & e & _ & _ & Hp & _).
    rewrite !(cell_elem _ _ _ _ _ Hp). unfold for_each_element.
    rewrite foldl_rows_flat. fold (pointers m). unfold subtract_at.
    rewrite (foldl_update_values (λ v, CInt.sub v mn))
      by (done || by apply pointers_allocated).
    rewrite decide_True; [done|]. by eapply cell_ptr_pointers.
Qed.

(** [SubtractRowMinima]: every cell loses the minimum of its row. *)
Lemma SubtractRowMinima_cells h m :
  well_formed h m → NoDup (pointers m) →
  ∃ mins : nat → Z,
    ∀ r, Z.of_nat r < height m →
      mins r ≤ CInt.INT_MAX
      ∧ (∀ c, Z.of_nat c < width m → mins r ≤ cell h m r c)
      ∧ (mins r = CInt.INT_MAX ∨ ∃ c, Z.of_nat c < width m ∧ mins r = cell h m r c)
      ∧ ∀ c, Z.of_nat c < width m →
             cell (SubtractRowMinima h m) m r c = CInt.sub (cell h m r c) (mins r).
Proof.
  intros Hwf Hnd. rewrite SubtractRowMinima_groups.
  destruct (subtract_minima_spec (row <$> head m) h) as [Hin _].
  { by rewrite join_fmap_bind. }
  { rewrite join_fmap_bind. by apply pointers_allocated. }
  exists (λ r, foldl (min_step h) CInt.INT_MAX (from_option row [] (head m !! r))).
  intros r Hr. pose proof Hwf as [Hw Hh Hlen Hrows].
  destruct (lookup_lt_is_Some_2 (head m) r) as [rn Hrn]; [lia|]. rewrite Hrn. simpl.
  assert (row_ok h (width m) rn) as [Hl _].
  { rewrite Forall_forall in Hrows. apply Hrows. by eapply list_elem_of_lookup_2. }
  assert (∀ c p, row rn !! c = Some p → cell h m r c = elem_value h p) as Hcell.
  { intros c p Hp. apply cell_elem. by rewrite (cell_ptr_lookup m r c rn Hlen Hrn). }
  destruct (min_fold_spec h (row rn) CInt.INT_MAX) as (Hle & Hall & Hsome).
  split_and!; [done| | |].
  - intros c Hc. destruct (lookup_lt_is_Some_2 (row rn) c) as [p Hp]; [lia|].
    rewrite (Hcell c p Hp). apply Hall. by eapply list_elem_of_lookup_2.
  - destruct Hsome as [?|(p & [c Hp]%list_elem_of_lookup & Heq)]; [by left|]. right.
    exists c. apply lookup_lt_Some in Hp as Hc. split; [lia|].
    by rewrite (Hcell c p Hp).
  - intros c Hc. destruct (lookup_lt_is_Some_2 (row rn) c) as [p Hp]; [lia|].
    rewrite (Hcell c p Hp).
    rewrite (cell_elem _ m r c p) by (by rewrite (cell_ptr_lookup m r c rn Hlen Hrn)).
    apply Hin; [|by eapply list_elem_of_lookup_2].
    apply list_elem_of_fmap. exists rn. split; [done|]. by eapply list_elem_of_lookup_2.
Qed.

(** [SubtractColumnMinima]: every cell loses the minimum of its column. *)
Lemma SubtractColumnMinima_cells h m :
  well_formed h m → NoDup (pointers m) →
  ∃ mins : nat → Z,
    ∀ c, Z.of_nat c < width m →
      mins c ≤ CInt.INT_MAX
      ∧ (∀ r, Z.of_nat r < height m → mins c ≤ cell h m r c)
      ∧ (mins c = CInt.INT_MAX ∨ ∃ r, Z.of_nat r < height m ∧ mins c = cell h m r c)
      ∧ ∀ r, Z.of_nat r < height m →
             cell (SubtractColumnMinima h m) m r c = CInt.sub (cell h m r c) (mins c).
Proof.
  intros Hwf Hnd. rewrite SubtractColumnMinima_groups.
  destruct (subtract_minima_spec (column_ptrs m <$> seq 0 (Z.to_nat (width m))) h)
    as [Hin _].
  { by apply (column_ptrs_NoDup h). }
  { rewrite join_fmap_bind. apply Forall_forall.
    intros p (c & Hp & Hc%elem_of_seq)%list_elem_of_bind.
    eapply well_formed_pointers_allocated; [done|].
    eapply (column_ptrs_pointers h); [done| |done]. lia. }
  exists (λ c, foldl (min_step h) CInt.INT_MAX (column_ptrs m c)).
  intros c Hc.
  assert (∀ r, Z.of_nat r < height m →
            ∃ p, column_ptrs m c !! r = Some p ∧ cell_ptr m r c = Some p) as Hcol.
  { intros r Hr. destruct (cell_ptr_inside h m r c Hwf Hr Hc)
      as (rn & p & e & _ & _ & Hp & _).
    exists p. by rewrite (column_ptrs_lookup h). }
  destruct (min_fold_spec h (column_ptrs m c) CInt.INT_MAX) as (Hle & Hall & Hsome).
  split_and!; [done| | |].
  - intros r Hr. destruct (Hcol r Hr) as (p & Hlk & Hp).
    rewrite (cell_elem _ _ _ _ _ Hp). apply Hall. by eapply list_elem_of_lookup_2.
  - destruct Hsome as [?|(p & [r Hp]%list_elem_of_lookup & Heq)]; [by left|]. right.
    rewrite (column_ptrs_lookup h) in Hp by done.
    destruct (cell_ptr_Some_inv _ _ _ _ Hp) as (rn & _ & _ & Hr).
    exists r. split; [done|]. by rewrite (cell_elem _ _ _ _ _ Hp).
  - intros r Hr. destruct (Hcol r Hr) as (p & Hlk & Hp).
    rewrite !(cell_elem _ _ _ _ _ Hp).
    apply Hin; [|by eapply list_elem_of_lookup_2].
    apply list_elem_of_fmap. exists c. split; [done|]. apply elem_of_seq. lia.
Qed.

(** The four passes together, on cells that leave room for the shift: the
    reduced cell is the original one, negated, plus an amount for its row and
    an amount for its column; no reduced cell is negative, and every row and
    every column holds a zero. *)
Lemma reduce_cells h m B :
  well_formed h m → NoDup (pointers m) →
  (∀ r c, - B ≤ cell h m r c ≤ B) → 2 * B ≤ CInt.INT_MAX →
  ∃ u v : nat → Z,
    (∀ r c, Z.of_nat r < height m → Z.of_nat c < width m →
            cell (reduce h m) m r c = u r + v c - cell h m r c
            ∧ 0 ≤ cell (reduce h m) m r c ≤ 2 * B)
    ∧ (∀ r, Z.of_nat r < height m →
            ∃ c, Z.of_nat c < width m ∧ cell (reduce h m) m r c = 0)
    ∧ (∀ c, Z.of_nat c < width m →
            ∃ r, Z.of_nat r < height m ∧ cell (reduce h m) m r c = 0).
Proof.
  intros Hwf Hnd Hcells HB. unfold reduce.
  pose proof Hwf as [Hw Hh _ _].
  assert (0 ≤ B) as HB0 by (pose proof (Hcells 0%nat 0%nat); lia).
  (* the sign *)
  assert (well_formed (NegateAllElements h m) m) as Hwf1.
  { eapply well_formed_modifies; [apply NegateAllElements_modifies|done]. }
  assert (∀ r c, cell (NegateAllElements h m) m r c = - cell h m r c) as H1.
  { intros r c. rewrite NegateAllElements_cells by done. unfold CInt.neg.
    apply wrap_small. pose proof (Hcells r c).
    unfold CInt.INT_MIN, CInt.INT_MAX in *. lia. }
  set (h1 := NegateAllElements h m) in *.
  (* the shift *)
  destruct (MakeMatrixNonnegative_cells h1 m Hwf1 Hnd)
    as (mn & Hmn_le & Hmn_all & Hmn_some & H2).
  assert (well_formed (MakeMatrixNonnegative h1 m) m) as Hwf2.
  { eapply well_formed_modifies; [apply MakeMatrixNonnegative_modifies|done]. }
  set (h2 := MakeMatrixNonnegative h1 m) in *.
  set (k := if mn <? 0 then mn else 0).
  assert (∀ r c, Z.of_nat r < height m → Z.of_nat c < width m →
            cell h2 m r c = - cell h m r c - k ∧ 0 ≤ cell h2 m r c ≤ 2 * B) as H2'.
  { intros r c Hr Hc. rewrite H2 by done. unfold k.
    pose proof (Hmn_all r c Hr Hc) as Hle. rewrite H1 in Hle |- *.
    pose proof (Hcells r c).
    destruct (Z.ltb_spec mn 0); [|lia].
    assert (- B ≤ mn) as Hlow.
    { destruct Hmn_some as [->|(r' & c' & _ & _ & ->)].
      - unfold CInt.INT_MAX in *. lia.
      - rewrite H1. pose proof (Hcells r' c'). lia. }
    unfold CInt.sub. rewrite wrap_small; unfold CInt.INT_MIN, CInt.INT_MAX in *; lia. }
  (* the rows *)
  destruct (SubtractRowMinima_cells h2 m Hwf2 Hnd) as (rmin & Hrows).
  assert (well_formed (SubtractRowMinima h2 m) m) as Hwf3.
  { eapply well_formed_modifies; [apply SubtractRowMinima_modifies|done]. }
  set (h3 := SubtractRowMinima h2 m) in *.
  assert (∀ r, Z.of_nat r < height m → 0 ≤ rmin r) as Hrmin.
  { intros r Hr. destruct (Hrows r Hr) as (_ & _ & [->|(c & Hc & ->)] & _).
    - done.
    - by destruct (H2' r c Hr Hc) as [_ [? _]]. }
  assert (∀ r c, Z.of_nat r < height m → Z.of_nat c < width m →
            cell h3 m r c = cell h2 m r c - rmin r ∧ 0 ≤ cell h3 m r c ≤ 2 * B) as H3.
  { intros r c Hr Hc. destruct (Hrows r Hr) as (_ & Hall & _ & ->); [|done].
    pose proof (Hall c Hc). pose proof (Hrmin r Hr).
    destruct (H2' r c Hr Hc) as [_ ?].
    unfold CInt.sub. rewrite wrap_small; unfold CInt.INT_MIN, CInt.INT_MAX in *; lia. }
  assert (∀ r, Z.of_nat r < height m →
            ∃ c, Z.of_nat c < width m ∧ cell h3 m r c = 0) as Hzero3.
  { intros r Hr. destruct (Hrows r Hr) as (_ & Hall & [Hmax|(c & Hc & Heq)] & _).
    - exists 0%nat. split; [lia|].
      destruct (H3 r 0%nat Hr ltac:(lia)) as [-> _].
      destruct (H2' r 0%nat Hr ltac:(lia)) as [_ ?].
      pose proof (Hall 0%nat ltac:(lia)). lia.
    - exists c. split; [done|]. destruct (H3 r c Hr Hc) as [-> _]. lia. }
  (* the columns *)
  destruct (SubtractColumnMinima_cells h3 m Hwf3 Hnd) as (cmin & Hcols).
  set (h4 := SubtractColumnMinima h3 m) in *.
  assert (∀ c, Z.of_nat c < width m → 0 ≤ cmin c) as Hcmin.
  { intros c Hc. destruct (Hcols c Hc) as (_ & _ & [->|(r & Hr & ->)] & _).
    - done.
    - by destruct (H3 r c Hr Hc) as [_ [? _]]. }
  assert (∀ r c, Z.of_nat r < height m → Z.of_nat c < width m →
            cell h4 m r c = cell h3 m r c - cmin c ∧ 0 ≤ cell h4 m r c ≤ 2 * B) as H4.
  { intros r c Hr Hc. destruct (Hcols c Hc) as (_ & Hall & _ & ->); [|done].
    pose proof (Hall r Hr). pose proof (Hcmin c Hc).
    destruct (H3 r c Hr Hc) as [_ ?].
    unfold CInt.sub. rewrite wrap_small; unfold CInt.INT_MIN, CInt.INT_MAX in *; lia. }
  exists (λ r, - k - rmin r), (λ c, - cmin c). split_and!.
  - intros r c Hr Hc. destruct (H4 r c Hr Hc) as [Heq Hrange]. split; [|done].
    rewrite Heq. destruct (H3 r c Hr Hc) as [-> _]. destruct (H2' r c Hr Hc) as [-> _]. lia.
  - intros r Hr. destruct (Hzero3 r Hr) as (c & Hc & Hz). exists c. split; [done|].
    destruct (H4 r c Hr Hc) as [-> _].
    destruct (Hcols c Hc) as (_ & Hall & _ & _).
    pose proof (Hall r Hr). pose proof (Hcmin c Hc). lia.
  - intros c Hc. destruct (Hcols c Hc) as (_ & Hall & [Hmax|(r & Hr & Heq)] & _).
    + exists 0%nat. split; [lia|].
      destruct (H4 0%nat c ltac:(lia) Hc) as [-> _].
      destruct (H3 0%nat c ltac:(lia) Hc) as [_ ?].
      pose proof (Hall 0%nat ltac:(lia)). lia.
    + exists r. split; [done|]. destruct (H4 r c Hr Hc) as [-> _]. lia.
Qed.

(** X13.  The passes that precede the loop of [HungarianAlgorithm]
    ([NegateAllElements], [MakeMatrixNonnegative], [SubtractRowMinima],
    [SubtractColumnMinima]) on a well-formed matrix whose elements are
    pairwise distinct and whose cells lie in [-B, B] with 2B inside [int]:
    every reduced cell is the original cell negated plus an amount that
    depends on its row only and an amount that depends on its column only;
    no reduced cell is negative; every row and every column holds a zero. *)
Theorem reduce_leaves_zero_in_every_row_and_column h m B :
  wf_matrix h m = true → NoDup (pointers m) →
  (∀ r c, - B ≤ cell h m r c ≤ B) → 2 * B ≤ CInt.INT_MAX →
  ∃ u v : nat → Z,
    (∀ r c, Z.of_nat r < height m → Z.of_nat c < width m →
            cell (reduce h m) m r c = u r + v c - cell h m r c
            ∧ 0 ≤ cell (reduce h m) m r c)
    ∧ (∀ r, Z.of_nat r < height m →
            ∃ c, Z.of_nat c < width m ∧ cell (reduce h m) m r c = 0)
    ∧ (∀ c, Z.of_nat c < width m →
            ∃ r, Z.of_nat r < height m ∧ cell (reduce h m) m r c = 0).
Proof.
  intros Hwf%wf_matrix_spec Hnd Hcells HB.
  destruct (reduce_cells h m B Hwf Hnd Hcells HB) as (u & v & Hform & Hrow & Hcol).
  exists u, v. split_and!; [|done|done].
  intros r c Hr Hc. destruct (Hform r c Hr Hc) as [? [? _]]. done.
Qed.

Lemma reduce_leaves_zero_in_every_row_and_column_witness :
  ∃ u v : nat → Z,
    (∀ r c, Z.of_nat r < height m_diag.2 → Z.of_nat c < width m_diag.2 →
            cell (reduce m_diag.1 m_diag.2) m_diag.2 r c
            = u r + v c - cell m_diag.1 m_diag.2 r c
            ∧ 0 ≤ cell (reduce m_diag.1 m_diag.2) m_diag.2 r c)
    ∧ (∀ r, Z.of_nat r < height m_diag.2 →
            ∃ c, Z.of_nat c < width m_diag.2
                 ∧ cell (reduce m_diag.1 m_diag.2) m_diag.2 r c = 0)
    ∧ (∀ c, Z.of_nat c < width m_diag.2 →
            ∃ r, Z.of_nat r < height m_diag.2
                 ∧ cell (reduce m_diag.1 m_diag.2) m_diag.2 r c = 0).
Proof.
  apply (reduce_leaves_zero_in_every_row_and_column m_diag.1 m_diag.2 9).
  - reflexivity.
  - by apply (bool_decide_unpack _).
  - exact (proj1 m_diag_bounded).
  - by vm_compute.
Defined.

(** ** hungarian.c: the answer when the reduction passes the optimality test *)

Lemma copy_rows_pointers h rows :
  Forall (λ rn, Forall (λ p, (p < length h)%nat) (row rn)) rows →
  (copy_rows h rows).2 ≫= row = seq (length h) (length (rows ≫= row)).
Proof.
  revert h. induction rows as [|rn rows IH]; intros h Hall; [done|].
  apply Forall_cons in Hall as [Hrn Hall].
  cbn [copy_rows]. rewrite (copy_row_spec h (row rn) Hrn).
  specialize (IH (h ++ (clone h <$> row rn))).
  destruct (copy_rows (h ++ (clone h <$> row rn)) rows) as [h2 rest].
  cbn [fst snd] in *. rewrite !bind_cons. cbn [row].
  rewrite IH.
  - rewrite !length_app, length_fmap. by rewrite seq_app.
  - eapply Forall_impl; [exact Hall|]. intros rn' Hrn'. simpl.
    eapply Forall_impl; [exact Hrn'|]. intros p Hp. simpl in *. rewrite length_app. lia.
Qed.

(** The elements of the copy are pairwise distinct, whatever the original
    shares. *)
Lemma CopyMatrix_NoDup h m : well_formed h m → NoDup (pointers (CopyMatrix h m).2).
Proof.
  intros Hwf. pose proof (copy_rows_pointers h (head m) (well_formed_allocated h m Hwf)) as Hp.
  unfold CopyMatrix, pointers. destruct (copy_rows h (head m)) as [h' rows].
  cbn [fst snd head] in *. rewrite Hp. apply NoDup_seq.
Qed.

Lemma CopyMatrix_cells h m r c :
  well_formed h m → cell (CopyMatrix h m).1 (CopyMatrix h m).2 r c = cell h m r c.
Proof.
  intros Hwf. destruct (CopyMatrix_spec h m Hwf) as (_ & Hwf' & _ & Hcopy).
  destruct (CopyMatrix_dims h m) as [Hw Hh].
  destruct (decide (Z.of_nat r < height m ∧ Z.of_nat c < width m)) as [[Hr Hc]|Hout].
  - destruct (cell_ptr_inside h m r c Hwf Hr Hc) as (rn & p & e & Hrn & Hp & Hcp & _).
    destruct (Hcopy r rn c p Hrn Hp) as (p' & Hcp' & _ & Hlk).
    rewrite (cell_elem _ _ _ _ _ Hcp), (cell_elem _ _ _ _ _ Hcp').
    unfold elem_value. by rewrite Hlk.
  - unfold cell. rewrite (cell_ptr_outside h m r c Hwf) by lia.
    rewrite (cell_ptr_outside _ _ r c Hwf') by lia. done.
Qed.

(** Whatever is written into the copy, the cells of the original stay. *)
Lemma original_cells_kept h m h' :
  well_formed h m →
  modifies (pointers (CopyMatrix h m).2) (CopyMatrix h m).1 h' →
  ∀ r c, cell h' m r c = cell h m r c.
Proof.
  intros Hwf (_ & _ & Hframe) r c.
  destruct (CopyMatrix_spec h m Hwf) as ([news Hnews] & _ & Hfresh & _).
  apply cell_frame. intros p Hp.
  pose proof (well_formed_pointers_allocated h m p Hwf Hp) as Hlt.
  unfold elem_value. rewrite Hframe.
  - by rewrite Hnews, lookup_app_l.
  - intros Hin. rewrite Forall_forall in Hfresh. specialize (Hfresh p Hin). lia.
Qed.

Lemma extract_rows_cons h orig final r rows st :
  extract_rows h orig final (r :: rows) st
  = extract_rows h orig final rows
      (extract_scan h orig final r (seq 0 (Z.to_nat (width orig))) st).
Proof. reflexivity. Qed.

(** The extraction records cells that hold a zero in the final matrix, with
    the value the original holds there. *)
Lemma extract_rows_cells h orig final rows :
  ∀ st cells,
    e_chosen st = selected_cell h orig <$> cells →
    ∃ cells',
      e_chosen (extract_rows h orig final rows st) = selected_cell h orig <$> (cells ++ cells')
      ∧ Forall (λ rc, rc.1 ∈ rows ∧ Z.of_nat rc.2 < width orig
                      ∧ cell h final rc.1 rc.2 = 0) cells'.
Proof.
  induction rows as [|r rows IH]; intros st cells Hst.
  { exists []. by rewrite app_nil_r. }
  rewrite extract_rows_cons.
  destruct (extract_scan_spec h orig final r (seq 0 (Z.to_nat (width orig))) st)
    as [->|(c & Hc%elem_of_seq & _ & Hz & ->)].
  - destruct (IH st cells Hst) as (cells' & Heq & Hall). exists cells'. split; [done|].
    eapply Forall_impl; [exact Hall|]. simpl. intros rc (? & ? & ?).
    split_and!; [by apply list_elem_of_further|done|done].
  - destruct (IH {| e_sum := CInt.add (e_sum st) (cell h orig r c);
                    e_chosen := e_chosen st ++
                      [{| sel_row := Z.of_nat r; sel_col := Z.of_nat c;
                          sel_value := cell h orig r c |}];
                    e_coveredCols := <[c := true]> (e_coveredCols st) |}
                 (cells ++ [(r, c)])) as (cells' & Heq & Hall).
    { simpl. by rewrite Hst, fmap_app. }
    exists ((r, c) :: cells'). split.
    + rewrite Heq. by rewrite <- app_assoc.
    + apply Forall_cons. split.
      * simpl. split_and!; [apply list_elem_of_here|lia|done].
      * eapply Forall_impl; [exact Hall|]. simpl. intros rc (? & ? & ?).
        split_and!; [by apply list_elem_of_further|done|done].
Qed.

Lemma cells_sum_bound h m B cells :
  (∀ r c, - B ≤ cell h m r c ≤ B) →
  - (Z.of_nat (length cells) * B) ≤ cells_sum h m cells ≤ Z.of_nat (length cells) * B.
Proof.
  intros Hcells. induction cells as [|rc cells IH]; simpl; [lia|].
  pose proof (Hcells rc.1 rc.2). lia.
Qed.

(** The running sum of the extraction does not wrap on bounded cells. *)
Lemma sum_from_cells h m B cells :
  (∀ r c, - B ≤ cell h m r c ≤ B) → Z.of_nat (length cells) * B ≤ CInt.INT_MAX →
  CInt.sum_from 0 (values (selected_cell h m <$> cells)) = cells_sum h m cells.
Proof.
  intros Hcells. induction cells as [|rc cells IH] using rev_ind; intros Hlen; [done|].
  assert (0 ≤ B) as HB0 by (pose proof (Hcells 0%nat 0%nat); lia).
  rewrite length_app in Hlen. simpl in Hlen.
  unfold values in *. rewrite !fmap_app. cbn [fmap list_fmap].
  rewrite sum_from_snoc, cells_sum_app. cbn [cells_sum foldr sel_value selected_cell].
  rewrite IH by lia.
  pose proof (cells_sum_bound h m B cells Hcells). pose proof (Hcells rc.1 rc.2).
  unfold CInt.add. rewrite wrap_small; unfold CInt.INT_MIN, CInt.INT_MAX in *; lia.
Qed.

Lemma range_Permutation (l : list nat) (n : nat) :
  NoDup l → Forall (λ x, (x < n)%nat) l → length l = n → l ≡ₚ seq 0 n.
Proof.
  intros Hnd Hall Hlen. apply submseteq_length_Permutation.
  - apply NoDup_submseteq; [done|]. intros x Hx. apply elem_of_seq.
    rewrite Forall_forall in Hall. specialize (Hall x Hx). lia.
  - rewrite length_seq. lia.
Qed.

Lemma sum_over_Permutation g l l' : l ≡ₚ l' → sum_over g l = sum_over g l'.
Proof. induction 1; simpl; lia. Qed.

Lemma cells_sum_potential h m h' f (u v : nat → Z) cells :
  Forall (λ rc, cell h' f rc.1 rc.2 = u rc.1 + v rc.2 - cell h m rc.1 rc.2) cells →
  cells_sum h m cells
  = sum_over u (cells.*1) + sum_over v (cells.*2) - cells_sum h' f cells.
Proof.
  induction 1 as [|rc cells Hrc _ IH]; [done|]. rewrite !fmap_cons.
  change (cells_sum h m (rc :: cells)) with (cell h m rc.1 rc.2 + cells_sum h m cells).
  change (cells_sum h' f (rc :: cells)) with (cell h' f rc.1 rc.2 + cells_sum h' f cells).
  change (sum_over u (rc.1 :: cells.*1)) with (u rc.1 + sum_over u (cells.*1)).
  change (sum_over v (rc.2 :: cells.*2)) with (v rc.2 + sum_over v (cells.*2)).
  lia.
Qed.

Lemma cells_sum_nonneg h m cells :
  Forall (λ rc, 0 ≤ cell h m rc.1 rc.2) cells → 0 ≤ cells_sum h m cells.
Proof. induction 1 as [|rc cells Hrc _ IH]; simpl; lia. Qed.

Lemma cells_sum_zero h m cells :
  Forall (λ rc, cell h m rc.1 rc.2 = 0) cells → cells_sum h m cells = 0.
Proof. induction 1 as [|rc cells Hrc _ IH]; simpl; lia. Qed.

(** On a square matrix, a full exclusive choice of cells adds up to the
    row amounts plus the column amounts minus what the reduced matrix holds
    at these cells. *)
Lemma exclusive_sum_potential h m h' f (u v : nat → Z) cells :
  height m = width m → 0 ≤ height m →
  (∀ r c, Z.of_nat r < height m → Z.of_nat c < width m →
          cell h' f r c = u r + v c - cell h m r c) →
  exclusive m cells → Z.of_nat (length cells) = height m →
  cells_sum h m cells
  = sum_over u (seq 0 (Z.to_nat (height m))) + sum_over v (seq 0 (Z.to_nat (width m)))
    - cells_sum h' f cells.
Proof.
  intros Hsq Hh Hform (Hrows & Hcols & Hin) Hlen.
  rewrite (cells_sum_potential h m h' f u v).
  - f_equal. f_equal.
    + apply sum_over_Permutation, range_Permutation; [done| |rewrite length_fmap; lia].
      apply Forall_fmap. eapply Forall_impl; [exact Hin|]. simpl. intros rc ?. lia.
    + apply sum_over_Permutation, range_Permutation; [done| |rewrite length_fmap; lia].
      apply Forall_fmap. eapply Forall_impl; [exact Hin|]. simpl. intros rc ?. lia.
  - eapply Forall_impl; [exact Hin|]. simpl. intros rc [? ?]. by apply Hform.
Qed.

Lemma cells_sum_ext h h' m cells :
  (∀ r c, cell h' m r c = cell h m r c) → cells_sum h' m cells = cells_sum h m cells.
Proof.
  intros Hext. induction cells as [|rc cells IH]; simpl; [done|]. by rewrite IH, Hext.
Qed.

(** The solver on a square matrix whose reduced copy passes the test at
    once. *)
Lemma hungarian_reduction_optimal fuel h m B :
  well_formed h m → height m = width m →
  bounded_cells h m B → 2 * B ≤ CInt.INT_MAX →
  IsOptimalSolution (reduce (CopyMatrix h m).1 (CopyMatrix h m).2) (CopyMatrix h m).2 = true →
  ∃ sol h', HungarianAlgorithm fuel h (Some m) = Success (sol, h')
            ∧ Z.of_nat (length (selection sol)) = height m
            ∧ valid_selection m (selection sol)
            ∧ is_max_sum h m (sum sol).
Proof.
  intros Hwf Hsq [Hcells HB] H2B Hopt.
  pose proof Hwf as [Hw Hh Hlen Hrows].
  destruct (CopyMatrix_spec h m Hwf) as (_ & Hwf0 & _ & _).
  destruct (CopyMatrix_dims h m) as [Hcw Hch].
  pose proof (CopyMatrix_NoDup h m Hwf) as Hnd.
  pose proof (λ r c, CopyMatrix_cells h m r c Hwf) as Hcc.
  pose proof (original_cells_kept h m) as Hkeep.
  unfold HungarianAlgorithm.
  destruct (CopyMatrix h m) as [h0 copy] eqn:Hcp. cbn [fst snd] in *.
  rewrite Hcw, Hch. rewrite !calloc_Some by lia.
  assert (well_formed (reduce h0 copy) copy) as Hwf1.
  { eapply well_formed_modifies; [apply reduce_modifies|done]. }
  assert (∀ r c, cell (reduce h0 copy) m r c = cell h m r c) as Hkept.
  { apply Hkeep; [done|]. apply reduce_modifies. }
  destruct (reduce_cells h0 copy B Hwf0 Hnd) as (u & v & Hform & _ & _); [|done|].
  { intros r c. rewrite Hcc. apply Hcells. }
  set (h1 := reduce h0 copy) in *.
  assert (hungarian_loop fuel copy
            (h1, replicate (Z.to_nat (height m)) false,
             replicate (Z.to_nat (width m)) false) = Some h1) as ->.
  { destruct fuel; simpl; by rewrite Hopt. }
  destruct (ExtractFinalSolution_valid h1 m copy) as (sol & Hsol & Hvalid & Hsum);
    [lia|lia|].
  rewrite Hsol. exists sol, h1. split; [done|].
  pose proof (optimal_extraction_complete h1 m copy sol Hwf1 ltac:(lia) ltac:(lia)
                Hopt Hsol) as Hcomplete.
  rewrite Hch, Hcw, Z.min_l in Hcomplete by lia.
  split; [done|]. split; [done|].
  (* the selection, as cells of the matrix *)
  unfold ExtractFinalSolution in Hsol. rewrite calloc_Some in Hsol by lia.
  destruct (Z.ltb_spec (height m) 0); [lia|]. injection Hsol as <-.
  cbn [sum selection] in *.
  destruct (extract_rows_cells h1 m copy (seq 0 (Z.to_nat (height m)))
              {| e_sum := 0; e_chosen := [];
                 e_coveredCols := replicate (Z.to_nat (width m)) false |} [])
    as (cells & Hchosen & Hall); [done|].
  rewrite app_nil_l in Hchosen.
  set (st := extract_rows h1 m copy _ _) in *.
  assert (Z.of_nat (length cells) = height m) as Hlencells.
  { by rewrite Hchosen, length_fmap in Hcomplete. }
  assert (exclusive m cells) as Hex.
  { destruct Hvalid as (Hr & Hc & _). rewrite Hchosen in Hr, Hc.
    rewrite <- list_fmap_compose in Hr, Hc. split_and!.
    - apply (NoDup_fmap_1 Z.of_nat). by rewrite <- list_fmap_compose.
    - apply (NoDup_fmap_1 Z.of_nat). by rewrite <- list_fmap_compose.
    - eapply Forall_impl; [exact Hall|]. simpl. intros rc (Hrc%elem_of_seq & ? & _). lia. }
  assert (e_sum st = cells_sum h m cells) as Hsumcells.
  { rewrite Hsum, Hchosen. rewrite (sum_from_cells h1 m B).
    - by apply cells_sum_ext.
    - intros r c. rewrite Hkept. apply Hcells.
    - rewrite Hlencells. lia. }
  assert (∀ r c, Z.of_nat r < height m → Z.of_nat c < width m →
            cell h1 copy r c = u r + v c - cell h m r c) as Hform'.
  { intros r c Hr Hc. destruct (Hform r c) as [-> _]; [lia|lia|]. by rewrite Hcc. }
  assert (cells_sum h1 copy cells = 0) as Hzero.
  { apply cells_sum_zero. eapply Forall_impl; [exact Hall|]. simpl. by intros rc (_ & _ & ?). }
  pose proof (exclusive_sum_potential h m h1 copy u v cells Hsq ltac:(lia) Hform' Hex
                Hlencells) as Hmine.
  split.
  - exists cells. split_and!; [done|lia|done].
  - intros cells' Hex' Hlen'. rewrite Z.min_l in Hlen' by lia.
    rewrite (exclusive_sum_potential h m h1 copy u v cells' Hsq ltac:(lia) Hform' Hex' Hlen').
    assert (0 ≤ cells_sum h1 copy cells') as Hpos.
    { apply cells_sum_nonneg. destruct Hex' as (_ & _ & Hin).
      eapply Forall_impl; [exact Hin|]. simpl. intros rc [? ?].
      destruct (Hform rc.1 rc.2) as [_ [? _]]; [lia|lia|done]. }
    lia.
Qed.

(** X14.  Where [HungarianAlgorithm] is exact: on a well-formed square matrix
    with bounded cells, if the reduced copy passes [IsOptimalSolution] at the
    first test (the loop body never runs), the solver returns, whatever the
    fuel; it selects one cell in every row and every column, and the sum it
    reports is the largest sum of a full row/column-exclusive selection. *)
Theorem hungarian_optimal_when_reduction_suffices fuel h m B :
  wf_matrix h m = true → height m = width m →
  bounded_cells h m B → 2 * B ≤ CInt.INT_MAX →
  IsOptimalSolution (reduce (CopyMatrix h m).1 (CopyMatrix h m).2) (CopyMatrix h m).2 = true →
  ∃ sol h', HungarianAlgorithm fuel h (Some m) = Success (sol, h')
            ∧ Z.of_nat (length (selection sol)) = height m
            ∧ valid_selection m (selection sol)
            ∧ is_max_sum h m (sum sol).
Proof.
  intros Hwf%wf_matrix_spec Hsq Hbound H2B Hopt.
  destruct (hungarian_reduction_optimal fuel h m B Hwf Hsq Hbound H2B Hopt)
    as (sol & h' & Hrun & Hlen & Hvalid & Hmax).
  exists sol, h'. by split_and!.
Qed.

Lemma hungarian_optimal_when_reduction_suffices_witness :
  ∃ sol h', HungarianAlgorithm 0 m_diag.1 (Some m_diag.2) = Success (sol, h')
            ∧ Z.of_nat (length (selection sol)) = height m_diag.2
            ∧ valid_selection m_diag.2 (selection sol)
            ∧ is_max_sum m_diag.1 m_diag.2 (sum sol).
Proof.
  apply (hungarian_optimal_when_reduction_suffices 0 m_diag.1 m_diag.2 9);
    [reflexivity | reflexivity | exact m_diag_bounded | by vm_compute | reflexivity].
Defined.

(** X15.  [IsOptimalSolution] is sound: when it answers true on a
    well-formed matrix, the matrix holds min(height, width) zeros no two of
    which share a row or a column. *)
Theorem IsOptimalSolution_finds_independent_zeros h m :
  wf_matrix h m = true → IsOptimalSolution h m = true →
  ∃ cells, exclusive m cells
           ∧ Z.of_nat (length cells) = Z.min (height m) (width m)
           ∧ Forall (λ rc, cell h m rc.1 rc.2 = 0) cells.
Proof.
  intros Hwf%wf_matrix_spec Hopt. pose proof Hwf as [Hw Hh _ _].
  destruct (ExtractFinalSolution_valid h m m) as (sol & Hsol & Hvalid & _); [lia|lia|].
  pose proof (optimal_extraction_complete h m m sol Hwf eq_refl eq_refl Hopt Hsol)
    as Hcomplete.
  unfold ExtractFinalSolution in Hsol. rewrite calloc_Some in Hsol by lia.
  destruct (Z.ltb_spec (height m) 0); [lia|]. injection Hsol as <-.
  cbn [selection] in *.
  destruct (extract_rows_cells h m m (seq 0 (Z.to_nat (height m)))
              {| e_sum := 0; e_chosen := [];
                 e_coveredCols := replicate (Z.to_nat (width m)) false |} [])
    as (cells & Hchosen & Hall); [done|].
  rewrite app_nil_l in Hchosen. rewrite Hchosen in Hcomplete, Hvalid.
  exists cells. split_and!.
  - destruct Hvalid as (Hr & Hc & _).
    rewrite <- list_fmap_compose in Hr, Hc. split_and!.
    + apply (NoDup_fmap_1 Z.of_nat). by rewrite <- list_fmap_compose.
    + apply (NoDup_fmap_1 Z.of_nat). by rewrite <- list_fmap_compose.
    + eapply Forall_impl; [exact Hall|]. simpl. intros rc (Hrc%elem_of_seq & ? & _). lia.
  - by rewrite length_fmap in Hcomplete.
  - eapply Forall_impl; [exact Hall|]. simpl. by intros rc (_ & _ & ?).
Qed.

Lemma IsOptimalSolution_finds_independent_zeros_witness :
  ∃ cells, exclusive m_stuck.2 cells
           ∧ Z.of_nat (length cells) = Z.min (height m_stuck.2) (width m_stuck.2)
           ∧ Forall (λ rc, cell m_stuck.1 m_stuck.2 rc.1 rc.2 = 0) cells.
Proof.
  apply IsOptimalSolution_finds_independent_zeros; reflexivity.
Defined.

(** ** hungarian.c: a zero the cover never reaches *)

Lemma foldl_nonincreasing {B} (f : Z → B → Z) (l : list B) :
  (∀ a y, f a y ≤ a) → ∀ a, foldl f a l ≤ a.
Proof.
  intros Hf. induction l as [|y l IH]; intros a; simpl; [lia|].
  pose proof (IH (f a y)). pose proof (Hf a y). lia.
Qed.

Lemma foldl_hits {B} (f : Z → B → Z) (l : list B) x b :
  (∀ a y, f a y ≤ a) → x ∈ l → (∀ a, f a x ≤ b) → ∀ a, foldl f a l ≤ b.
Proof.
  intros Hf Hx Hb. induction l as [|y l IH]; intros a; [by apply elem_of_nil in Hx|].
  simpl. apply elem_of_cons in Hx as [<-|Hx].
  - pose proof (foldl_nonincreasing f l Hf (f a x)). pose proof (Hb a). lia.
  - by apply IH.
Qed.

Lemma for_each_index_invariant {A} (P : A → Prop) numRows numCols
    (body : A → nat → nat → A) (a : A) :
  (∀ a r c, Z.of_nat r < numRows → Z.of_nat c < numCols → P a → P (body a r c)) →
  P a → P (for_each_index numRows numCols body a).
Proof.
  intros Hbody Ha. unfold for_each_index.
  apply foldl_invariant; [|done]. intros a1 r Hr%elem_of_seq Ha1.
  apply foldl_invariant; [|done]. intros a2 c Hc%elem_of_seq Ha2.
  apply Hbody; [lia|lia|done].
Qed.

Lemma set_value_id h p v : v = elem_value h p → set_value h p v = h.
Proof.
  intros ->. unfold set_value. apply list_eq. intros i.
  destruct (decide (i = p)) as [->|Hne].
  - rewrite list_lookup_alter_eq. unfold elem_value.
    destruct (h !! p) as [[v c]|]; done.
  - by rewrite list_lookup_alter_ne.
Qed.

Lemma pointers_cell h m p :
  well_formed h m → p ∈ pointers m →
  ∃ r c, Z.of_nat r < height m ∧ Z.of_nat c < width m ∧ cell_ptr m r c = Some p.
Proof.
  intros [Hw Hh Hlen Hrows]
    (rn & [c Hc]%list_elem_of_lookup & [r Hr]%list_elem_of_lookup)%list_elem_of_bind.
  assert (row_ok h (width m) rn) as [Hl _].
  { rewrite Forall_forall in Hrows. apply Hrows. by eapply list_elem_of_lookup_2. }
  exists r, c. apply lookup_lt_Some in Hr as Hr'. apply lookup_lt_Some in Hc as Hc'.
  split_and!; [lia|lia|]. by rewrite (cell_ptr_lookup m r c rn Hlen Hr).
Qed.

(** [CoverZeros] covers neither the row nor the column of an isolated zero. *)
Lemma CoverZeros_isolated h m cr cc r0 c0 :
  isolated_zero h m r0 c0 →
  rdb cr r0 = false → rdb cc c0 = false →
  rdb (CoverZeros h m cr cc).1 r0 = false ∧ rdb (CoverZeros h m cr cc).2 c0 = false.
Proof.
  intros (Hr0 & Hc0 & Hz & Hcol & Hrow) Hcr Hcc. unfold CoverZeros.
  apply (for_each_index_invariant (λ st, rdb st.1 r0 = false ∧ rdb st.2 c0 = false));
    [|done].
  intros [cr1 cc1] r c Hr Hc [Hcr1 Hcc1]. simpl in *.
  destruct (negb (rdb cr1 r) && negb (rdb cc1 c) && (cell h m r c =? 0)) eqn:Hcond;
    [|done].
  apply andb_true_iff in Hcond as [_ Hzero%Z.eqb_eq].
  destruct (existsb _ (seq 0 (Z.to_nat (height m)))) eqn:Hmc.
  - simpl. split; [done|]. rewrite rdb_insert. case_decide as Hd; [|done].
    destruct Hd as [-> _]. exfalso.
    apply existsb_exists in Hmc as (r' & Hr'%list_elem_of_In%elem_of_seq & Hb).
    apply andb_true_iff in Hb as [Hne%negb_true_iff%Nat.eqb_neq Hz'%Z.eqb_eq].
    rewrite (Hcol r Hr Hzero) in Hne. apply Hne, Hcol; [lia|done].
  - destruct (existsb _ (seq 0 (Z.to_nat (width m)))) eqn:Hmr; [|done].
    simpl. split; [|done]. rewrite rdb_insert. case_decide as Hd; [|done].
    destruct Hd as [-> _]. exfalso.
    apply existsb_exists in Hmr as (c' & Hc'%list_elem_of_In%elem_of_seq & Hb).
    apply andb_true_iff in Hb as [Hne%negb_true_iff%Nat.eqb_neq Hz'%Z.eqb_eq].
    rewrite (Hrow c Hc Hzero) in Hne. apply Hne, Hrow; [lia|done].
Qed.

(** With an uncovered zero and no negative cell, the minimum
    [CreateAdditionalZeros] finds is 0 and the matrix stays as it is. *)
Lemma CreateAdditionalZeros_stalls h m cr cc r0 c0 p0 :
  (∀ p, p ∈ pointers m → 0 ≤ elem_value h p ≤ CInt.INT_MAX) →
  Z.of_nat r0 < height m → Z.of_nat c0 < width m →
  cell_ptr m r0 c0 = Some p0 → elem_value h p0 = 0 →
  rdb cr r0 = false → rdb cc c0 = false →
  CreateAdditionalZeros h m cr cc = h.
Proof.
  intros Hrange Hr0 Hc0 Hp0 Hz Hcr Hcc. unfold CreateAdditionalZeros. cbv zeta.
  set (mn := for_each_index (height m) (width m) _ CInt.INT_MAX).
  assert (mn = 0) as Hmn.
  { apply Z.le_antisymm.
    - unfold mn, for_each_index.
      apply (foldl_hits _ _ r0); [| apply elem_of_seq; lia |].
      + intros a r. apply foldl_nonincreasing. intros a' c.
        destruct (negb (rdb cr r) && negb (rdb cc c)); [|lia].
        destruct (cell_ptr m r c) as [p|]; [|lia].
        unfold min_step. destruct (Z.ltb_spec (elem_value h p) a'); lia.
      + intros a. apply (foldl_hits _ _ c0); [| apply elem_of_seq; lia |].
        * intros a' c.
          destruct (negb (rdb cr r0) && negb (rdb cc c)); [|lia].
          destruct (cell_ptr m r0 c) as [p|]; [|lia].
          unfold min_step. destruct (Z.ltb_spec (elem_value h p) a'); lia.
        * intros a'. rewrite Hcr, Hcc, Hp0. simpl.
          unfold min_step. rewrite Hz. destruct (Z.ltb_spec 0 a'); lia.
    - unfold mn. apply (for_each_index_invariant (λ a, 0 ≤ a)); [|done].
      intros a r c _ _ Ha.
      destruct (negb (rdb cr r) && negb (rdb cc c)); [|done].
      destruct (cell_ptr m r c) as [p|] eqn:Hp; [|done].
      pose proof (Hrange p (cell_ptr_pointers _ _ _ _ Hp)).
      unfold min_step. destruct (Z.ltb_spec (elem_value h p) a); lia. }
  clearbody mn. subst mn.
  assert (∀ p, p ∈ pointers m → CInt.INT_MIN ≤ elem_value h p ≤ CInt.INT_MAX) as Hint.
  { intros p Hp. pose proof (Hrange p Hp). unfold CInt.INT_MIN. lia. }
  rewrite (for_each_index_invariant (λ h', h' = h) (height m) (width m) _ h); [| |done].
  - apply (for_each_index_invariant (λ h', h' = h)); [|done].
    intros h' r c _ _ ->.
    destruct (rdb cr r && rdb cc c); [|done].
    destruct (cell_ptr m r c) as [p|] eqn:Hp; [|done].
    apply set_value_id. unfold CInt.add. rewrite Z.add_0_r.
    apply wrap_small, Hint. by eapply cell_ptr_pointers.
  - intros h' r c _ _ ->.
    destruct (negb (rdb cr r) && negb (rdb cc c)); [|done].
    destruct (cell_ptr m r c) as [p|] eqn:Hp; [|done].
    apply set_value_id. unfold CInt.sub. rewrite Z.sub_0_r.
    apply wrap_small, Hint. by eapply cell_ptr_pointers.
Qed.

(** The loop with an isolated zero in a matrix that fails the test: every
    turn leaves the matrix as it was. *)
Lemma hungarian_loop_isolated h m r0 c0 p0 :
  (∀ p, p ∈ pointers m → 0 ≤ elem_value h p ≤ CInt.INT_MAX) →
  isolated_zero h m r0 c0 →
  cell_ptr m r0 c0 = Some p0 →
  IsOptimalSolution h m = false →
  ∀ fuel cr cc, rdb cr r0 = false → rdb cc c0 = false →
                hungarian_loop fuel m (h, cr, cc) = None.
Proof.
  intros Hrange Hiso Hp0 Hopt.
  induction fuel as [|fuel IH]; intros cr cc Hcr Hcc; simpl; rewrite Hopt; [done|].
  destruct (CoverZeros_isolated h m cr cc r0 c0 Hiso Hcr Hcc) as [Hcr' Hcc'].
  destruct (CoverZeros h m cr cc) as [cr' cc'] eqn:Hcov. simpl in *.
  pose proof Hiso as (Hr0 & Hc0 & Hz & _).
  rewrite (cell_elem _ _ _ _ _ Hp0) in Hz.
  rewrite (CreateAdditionalZeros_stalls h m cr' cc' r0 c0 p0) by done.
  by apply IH.
Qed.

(** X16.  The non-termination of [HungarianAlgorithm], in general: on a
    well-formed matrix with bounded cells, if the reduced copy fails
    [IsOptimalSolution] and holds a zero that is alone in its row and alone
    in its column, then [CoverZeros] never covers that zero,
    [CreateAdditionalZeros] finds the minimum 0 and changes nothing, and the
    loop runs for ever: whatever the fuel, the solver does not return. *)
Theorem hungarian_never_ends_on_isolated_zero fuel h m B r0 c0 :
  wf_matrix h m = true →
  (∀ r c, - B ≤ cell h m r c ≤ B) → 2 * B ≤ CInt.INT_MAX →
  IsOptimalSolution (reduce (CopyMatrix h m).1 (CopyMatrix h m).2) (CopyMatrix h m).2
  = false →
  isolated_zero (reduce (CopyMatrix h m).1 (CopyMatrix h m).2) (CopyMatrix h m).2 r0 c0 →
  HungarianAlgorithm fuel h (Some m) = OutOfFuel.
Proof.
  intros Hwf%wf_matrix_spec Hcells H2B Hopt Hiso.
  pose proof Hwf as [Hw Hh _ _].
  apply HungarianAlgorithm_OutOfFuel; [lia|lia|].
  destruct (CopyMatrix_spec h m Hwf) as (_ & Hwf0 & _ & _).
  pose proof (CopyMatrix_NoDup h m Hwf) as Hnd.
  pose proof (λ r c, CopyMatrix_cells h m r c Hwf) as Hcc.
  set (h0 := (CopyMatrix h m).1) in *. set (copy := (CopyMatrix h m).2) in *.
  assert (well_formed (reduce h0 copy) copy) as Hwf1.
  { eapply well_formed_modifies; [apply reduce_modifies|done]. }
  destruct (reduce_cells h0 copy B Hwf0 Hnd) as (u & v & Hform & _ & _); [|done|].
  { intros r c. rewrite Hcc. apply Hcells. }
  pose proof Hiso as (Hr0 & Hc0 & _).
  destruct (cell_ptr_inside (reduce h0 copy) copy r0 c0 Hwf1 Hr0 Hc0)
    as (rn & p0 & e & _ & _ & Hp0 & _).
  apply (hungarian_loop_isolated (reduce h0 copy) copy r0 c0 p0); try done.
  - intros p Hp. destruct (pointers_cell _ _ _ Hwf1 Hp) as (r & c & Hr & Hc & Hcp).
    rewrite <- (cell_elem _ _ _ _ _ Hcp). destruct (Hform r c Hr Hc) as [_ ?]. lia.
  - apply rdb_replicate.
  - apply rdb_replicate.
Qed.

Lemma hungarian_never_ends_on_isolated_zero_witness :
  HungarianAlgorithm 7 m_stuck.1 (Some m_stuck.2) = OutOfFuel.
Proof.
  apply (hungarian_never_ends_on_isolated_zero 7 m_stuck.1 m_stuck.2 1 2 2).
  - reflexivity.
  - intros r c. apply cell_bounded; [done|]. repeat constructor; simpl; lia.
  - by vm_compute.
  - reflexivity.
  - assert (height (CopyMatrix m_stuck.1 m_stuck.2).2 = 3) as Hh by reflexivity.
    assert (width (CopyMatrix m_stuck.1 m_stuck.2).2 = 3) as Hw by reflexivity.
    split_and!; [by vm_compute..| |].
    + intros r Hr Hz. rewrite Hh in Hr.
      destruct r as [|[|[|r]]]; [by vm_compute in Hz|by vm_compute in Hz|done|lia].
    + intros c Hc Hz. rewrite Hw in Hc.
      destruct c as [|[|[|c]]]; [by vm_compute in Hz|by vm_compute in Hz|done|lia].
Defined.

(** ** backtrack.c: where the search is exact *)

(** X17.  On a well-formed matrix with no more rows than columns, cells
    small enough for [int] and dimensions whose product, the count of the
    third allocation, fits in [int], [BacktrackAlgorithm] returns, and the
    sum it reports is the largest sum of a full row/column-exclusive
    selection when that sum is positive, and 0 otherwise. *)
Theorem BacktrackAlgorithm_exact_on_wide_matrices h m B s :
  wf_matrix h m = true → height m ≤ width m →
  height m * width m ≤ CInt.INT_MAX →
  bounded_cells h m B → is_max_sum h m s →
  ∃ sol, BacktrackAlgorithm h (Some m) = Success sol ∧ sum sol = Z.max 0 s.
Proof.
  intros Hwf%wf_matrix_spec Hwide Hfit Hbound Hmax. destruct Hwf as [Hw Hh _ _].
  destruct (BacktrackAlgorithm_returns h m Hw Hh Hfit) as (sol & Hsol).
  exists sol. split; [done|].
  by apply (backtrack_optimal_when_positive h m B s sol).
Qed.

Lemma BacktrackAlgorithm_exact_on_wide_matrices_witness :
  ∃ sol, BacktrackAlgorithm m_diag.1 (Some m_diag.2) = Success sol ∧ sum sol = Z.max 0 27.
Proof.
  apply (BacktrackAlgorithm_exact_on_wide_matrices m_diag.1 m_diag.2 9 27);
    [reflexivity | by vm_compute | by vm_compute | exact m_diag_bounded | exact m_diag_max].
Defined.

(** ** hungarian.c: what [CoverZeros] covers *)

(** X18.  [CoverZeros] on a well-formed matrix with cover arrays of the
    right size: the arrays keep their size, no covered line is uncovered, a
    column is newly covered only if it holds two zeros in different rows, and
    a row is newly covered only if it holds two zeros in different columns.
    A line with a single zero is never covered. *)
Theorem CoverZeros_covers_only_lines_with_two_zeros h m cr cc :
  wf_matrix h m = true →
  length cr = Z.to_nat (height m) → length cc = Z.to_nat (width m) →
  length (CoverZeros h m cr cc).1 = length cr
  ∧ length (CoverZeros h m cr cc).2 = length cc
  ∧ (∀ r, rdb cr r = true → rdb (CoverZeros h m cr cc).1 r = true)
  ∧ (∀ c, rdb cc c = true → rdb (CoverZeros h m cr cc).2 c = true)
  ∧ (∀ r, rdb (CoverZeros h m cr cc).1 r = true →
          rdb cr r = true
          ∨ ∃ c1 c2, c1 ≠ c2 ∧ Z.of_nat c1 < width m ∧ Z.of_nat c2 < width m
                     ∧ cell h m r c1 = 0 ∧ cell h m r c2 = 0)
  ∧ (∀ c, rdb (CoverZeros h m cr cc).2 c = true →
          rdb cc c = true
          ∨ ∃ r1 r2, r1 ≠ r2 ∧ Z.of_nat r1 < height m ∧ Z.of_nat r2 < height m
                     ∧ cell h m r1 c = 0 ∧ cell h m r2 c = 0).
Proof.
  intros _ _ _. unfold CoverZeros.
  apply (for_each_index_invariant
           (λ st, length st.1 = length cr ∧ length st.2 = length cc
                  ∧ (∀ r, rdb cr r = true → rdb st.1 r = true)
                  ∧ (∀ c, rdb cc c = true → rdb st.2 c = true)
                  ∧ (∀ r, rdb st.1 r = true →
                          rdb cr r = true
                          ∨ ∃ c1 c2, c1 ≠ c2 ∧ Z.of_nat c1 < width m
                                     ∧ Z.of_nat c2 < width m
                                     ∧ cell h m r c1 = 0 ∧ cell h m r c2 = 0)
                  ∧ (∀ c, rdb st.2 c = true →
                          rdb cc c = true
                          ∨ ∃ r1 r2, r1 ≠ r2 ∧ Z.of_nat r1 < height m
                                     ∧ Z.of_nat r2 < height m
                                     ∧ cell h m r1 c = 0 ∧ cell h m r2 c = 0)));
    [|by split_and!; auto].
  intros [cr1 cc1] r c Hr Hc (Hlr & Hlc & Hmr & Hmc & Hnr & Hnc). simpl in *.
  destruct (negb (rdb cr1 r) && negb (rdb cc1 c) && (cell h m r c =? 0)) eqn:Hcond;
    [|by split_and!].
  apply andb_true_iff in Hcond as [_ Hzero%Z.eqb_eq].
  destruct (existsb _ (seq 0 (Z.to_nat (height m)))) eqn:Hcol.
  - simpl. split_and!; [done|by rewrite length_insert|done| | done |].
    + intros c' Hc'. rewrite rdb_insert. case_decide; [done|by apply Hmc].
    + intros c'. rewrite rdb_insert. case_decide as Hd; [|by apply Hnc].
      destruct Hd as [-> _]. intros _. right.
      apply existsb_exists in Hcol as (r' & Hr'%list_elem_of_In%elem_of_seq & Hb).
      apply andb_true_iff in Hb as [Hne%negb_true_iff%Nat.eqb_neq Hz'%Z.eqb_eq].
      exists r', r. split_and!; [done|lia|done|done|done].
  - destruct (existsb _ (seq 0 (Z.to_nat (width m)))) eqn:Hrow; [|by split_and!].
    simpl. split_and!; [by rewrite length_insert|done| |done| |done].
    + intros r' Hr'. rewrite rdb_insert. case_decide; [done|by apply Hmr].
    + intros r'. rewrite rdb_insert. case_decide as Hd; [|by apply Hnr].
      destruct Hd as [-> _]. intros _. right.
      apply existsb_exists in Hrow as (c' & Hc'%list_elem_of_In%elem_of_seq & Hb).
      apply andb_true_iff in Hb as [Hne%negb_true_iff%Nat.eqb_neq Hz'%Z.eqb_eq].
      exists c', c. split_and!; [done|lia|done|done|done].
Qed.

Lemma CoverZeros_covers_only_lines_with_two_zeros_witness :
  length (CoverZeros m_cycle.1 m_cycle.2 [false; false; false] [false; false; false]).1
  = length [false; false; false]
  ∧ length (CoverZeros m_cycle.1 m_cycle.2 [false; false; false] [false; false; false]).2
    = length [false; false; false]
  ∧ (∀ r, rdb [false; false; false] r = true →
          rdb (CoverZeros m_cycle.1 m_cycle.2 [false; false; false]
                 [false; false; false]).1 r = true)
  ∧ (∀ c, rdb [false; false; false] c = true →
          rdb (CoverZeros m_cycle.1 m_cycle.2 [false; false; false]
                 [false; false; false]).2 c = true)
  ∧ (∀ r, rdb (CoverZeros m_cycle.1 m_cycle.2 [false; false; false]
                 [false; false; false]).1 r = true →
          rdb [false; false; false] r = true
          ∨ ∃ c1 c2, c1 ≠ c2 ∧ Z.of_nat c1 < width m_cycle.2
                     ∧ Z.of_nat c2 < width m_cycle.2
                     ∧ cell m_cycle.1 m_cycle.2 r c1 = 0
                     ∧ cell m_cycle.1 m_cycle.2 r c2 = 0)
  ∧ (∀ c, rdb (CoverZeros m_cycle.1 m_cycle.2 [false; false; false]
                 [false; false; false]).2 c = true →
          rdb [false; false; false] c = true
          ∨ ∃ r1 r2, r1 ≠ r2 ∧ Z.of_nat r1 < height m_cycle.2
                     ∧ Z.of_nat r2 < height m_cycle.2
                     ∧ cell m_cycle.1 m_cycle.2 r1 c = 0
                     ∧ cell m_cycle.1 m_cycle.2 r2 c = 0).
Proof.
  apply (CoverZeros_covers_only_lines_with_two_zeros m_cycle.1 m_cycle.2);
    reflexivity.
Defined.

(** ** hungarian.c: what [CreateAdditionalZeros] writes *)

Lemma cond_scan_flat {A} (cond : nat → bool) (cp : nat → option ptr)
    (upd : A → ptr → A) (cols : list nat) (a : A) :
  foldl (λ a col, if cond col then match cp col with Some e => upd a e | None => a end
                  else a) a cols
  = foldl upd a (omap (λ col, if cond col then cp col else None) cols).
Proof.
  revert a. induction cols as [|c cols IH]; intros a; simpl; [done|].
  destruct (cond c); [destruct (cp c)|]; simpl; apply IH.
Qed.

Lemma for_each_index_flat {A} (m : Matrix) (cond : nat → nat → bool)
    (upd : A → ptr → A) (a : A) :
  for_each_index (height m) (width m)
    (λ a row col, if cond row col
                  then match cell_ptr m row col with Some e => upd a e | None => a end
                  else a) a
  = foldl upd a (visited_ptrs m cond).
Proof.
  unfold for_each_index, visited_ptrs.
  generalize (seq 0 (Z.to_nat (height m))). intros rows. revert a.
  induction rows as [|r rows IH]; intros a; [done|].
  rewrite bind_cons, foldl_app. cbn [foldl].
  rewrite (cond_scan_flat (cond r) (cell_ptr m r) upd). apply IH.
Qed.

Lemma elem_of_visited_ptrs m cond p :
  p ∈ visited_ptrs m cond
  ↔ ∃ r c, Z.of_nat r < height m ∧ Z.of_nat c < width m
           ∧ cond r c = true ∧ cell_ptr m r c = Some p.
Proof.
  unfold visited_ptrs. rewrite list_elem_of_bind. split.
  - intros (r & (c & Hc%elem_of_seq & Hp)%list_elem_of_omap & Hr%elem_of_seq).
    destruct (cond r c) eqn:Hcond; [|done]. exists r, c. split_and!; [lia|lia|done|done].
  - intros (r & c & Hr & Hc & Hcond & Hp). exists r. split; [|apply elem_of_seq; lia].
    apply list_elem_of_omap. exists c. split; [apply elem_of_seq; lia|]. by rewrite Hcond.
Qed.

Lemma NoDup_omap {A B} (f : A → option B) (l : list A) :
  (∀ x y z, f x = Some z → f y = Some z → x = y) → NoDup l → NoDup (omap f l).
Proof.
  intros Hinj. induction 1 as [|x l Hx Hnd IH]; simpl; [constructor|].
  destruct (f x) as [z|] eqn:Hfx; [|done].
  apply NoDup_cons. split; [|done].
  intros (y & Hy & Hfy)%list_elem_of_omap.
  by rewrite (Hinj x y z Hfx Hfy) in Hx.
Qed.

Lemma visited_ptrs_NoDup m cond : NoDup (pointers m) → NoDup (visited_ptrs m cond).
Proof.
  intros Hnd. unfold visited_ptrs. apply NoDup_bind; [| |apply NoDup_seq].
  - intros r1 r2 p _ _ (c1 & _ & H1)%list_elem_of_omap (c2 & _ & H2)%list_elem_of_omap.
    destruct (cond r1 c1); [|done]. destruct (cond r2 c2); [|done].
    by destruct (cell_ptr_inj _ _ _ _ _ _ Hnd H1 H2).
  - intros r _. apply NoDup_omap; [|apply NoDup_seq].
    intros c1 c2 p H1 H2.
    destruct (cond r c1); [|done]. destruct (cond r c2); [|done].
    by destruct (cell_ptr_inj _ _ _ _ _ _ Hnd H1 H2).
Qed.

(** A pass that rewrites the cells [cond] picks, each from its own value. *)
Lemma for_each_index_update h m (cond : nat → nat → bool) (g : Z → Z) r c :
  well_formed h m → NoDup (pointers m) →
  Z.of_nat r < height m → Z.of_nat c < width m →
  cell (for_each_index (height m) (width m)
          (λ h row col,
             if cond row col
             then match cell_ptr m row col with
                  | Some element => set_value h element (g (elem_value h element))
                  | None => h
                  end
             else h) h) m r c
  = if cond r c then g (cell h m r c) else cell h m r c.
Proof.
  intros Hwf Hnd Hr Hc.
  rewrite (for_each_index_flat m cond (λ h p, set_value h p (g (elem_value h p)))).
  destruct (cell_ptr_inside h m r c Hwf Hr Hc) as (rn & p & e & _ & _ & Hp & _).
  rewrite !(cell_elem _ _ _ _ _ Hp).
  rewrite (foldl_update_values g).
  - destruct (cond r c) eqn:Hcond.
    + rewrite decide_True; [done|]. apply elem_of_visited_ptrs. by exists r, c.
    + rewrite decide_False; [done|].
      intros (r' & c' & _ & _ & Hcond' & Hp')%elem_of_visited_ptrs.
      destruct (cell_ptr_inj _ _ _ _ _ _ Hnd Hp Hp') as [-> ->]. congruence.
  - by apply visited_ptrs_NoDup.
  - apply Forall_forall. intros q (r' & c' & _ & _ & _ & Hq)%elem_of_visited_ptrs.
    eapply well_formed_pointers_allocated; [done|]. by eapply cell_ptr_pointers.
Qed.

(** X19.  [CreateAdditionalZeros] on a well-formed matrix whose elements are
    pairwise distinct: the minimum it finds is the smallest cell covered by
    no line (INT_MAX when every cell is covered); every cell covered by no
    line loses it, every cell covered by both its row and its column gains
    it, and every cell covered by exactly one line keeps its value. *)
Theorem CreateAdditionalZeros_shifts_by_uncovered_minimum h m cr cc :
  wf_matrix h m = true → NoDup (pointers m) →
  length cr = Z.to_nat (height m) → length cc = Z.to_nat (width m) →
  ∃ mn,
    mn ≤ CInt.INT_MAX
    ∧ (∀ r c, Z.of_nat r < height m → Z.of_nat c < width m →
              rdb cr r = false → rdb cc c = false → mn ≤ cell h m r c)
    ∧ (mn = CInt.INT_MAX
       ∨ ∃ r c, Z.of_nat r < height m ∧ Z.of_nat c < width m
                ∧ rdb cr r = false ∧ rdb cc c = false ∧ mn = cell h m r c)
    ∧ ∀ r c, Z.of_nat r < height m → Z.of_nat c < width m →
             cell (CreateAdditionalZeros h m cr cc) m r c
             = if negb (rdb cr r) && negb (rdb cc c) then CInt.sub (cell h m r c) mn
               else if rdb cr r && rdb cc c then CInt.add (cell h m r c) mn
               else cell h m r c.
Proof.
  intros Hwf%wf_matrix_spec Hnd _ _. unfold CreateAdditionalZeros. cbv zeta.
  set (mn := for_each_index (height m) (width m) _ CInt.INT_MAX).
  exists mn. split_and!.
  - unfold mn, for_each_index. apply foldl_nonincreasing. intros a r.
    apply foldl_nonincreasing. intros a' c.
    destruct (negb (rdb cr r) && negb (rdb cc c)); [|lia].
    destruct (cell_ptr m r c) as [p|]; [|lia].
    unfold min_step. destruct (Z.ltb_spec (elem_value h p) a'); lia.
  - intros r c Hr Hc Hcr Hcc.
    destruct (cell_ptr_inside h m r c Hwf Hr Hc) as (rn & p & e & _ & _ & Hp & _).
    rewrite (cell_elem _ _ _ _ _ Hp). unfold mn, for_each_index.
    apply (foldl_hits _ _ r); [| apply elem_of_seq; lia |].
    + intros a r'. apply foldl_nonincreasing. intros a' c'.
      destruct (negb (rdb cr r') && negb (rdb cc c')); [|lia].
      destruct (cell_ptr m r' c') as [q|]; [|lia].
      unfold min_step. destruct (Z.ltb_spec (elem_value h q) a'); lia.
    + intros a. apply (foldl_hits _ _ c); [| apply elem_of_seq; lia |].
      * intros a' c'.
        destruct (negb (rdb cr r) && negb (rdb cc c')); [|lia].
        destruct (cell_ptr m r c') as [q|]; [|lia].
        unfold min_step. destruct (Z.ltb_spec (elem_value h q) a'); lia.
      * intros a'. rewrite Hcr, Hcc, Hp. simpl.
        unfold min_step. destruct (Z.ltb_spec (elem_value h p) a'); lia.
  - unfold mn.
    apply (for_each_index_invariant
             (λ a, a = CInt.INT_MAX
                   ∨ ∃ r c, Z.of_nat r < height m ∧ Z.of_nat c < width m
                            ∧ rdb cr r = false ∧ rdb cc c = false ∧ a = cell h m r c));
      [|by left].
    intros a r c Hr Hc Ha.
    destruct (rdb cr r) eqn:Hcr; [done|]. destruct (rdb cc c) eqn:Hcc; [done|]. simpl.
    destruct (cell_ptr m r c) as [p|] eqn:Hp; [|done].
    unfold min_step. destruct (Z.ltb_spec (elem_value h p) a); [|done].
    right. exists r, c. split_and!; try done. by rewrite (cell_elem _ _ _ _ _ Hp).
  - intros r c Hr Hc. clearbody mn.
    set (h1 := for_each_index (height m) (width m) _ h).
    assert (well_formed h1 m) as Hwf1.
    { eapply well_formed_modifies; [|exact Hwf]. unfold h1.
      apply for_each_index_modifies. intros h' r' c'. cbv beta.
      destruct (_ && _); [|apply modifies_refl].
      destruct (cell_ptr m r' c') as [p|] eqn:Hp; [|apply modifies_refl].
      eapply subtract_at_modifies, cell_ptr_pointers, Hp. }
    assert (cell h1 m r c
            = if negb (rdb cr r) && negb (rdb cc c) then CInt.sub (cell h m r c) mn
              else cell h m r c) as H1.
    { unfold h1.
      apply (for_each_index_update h m (λ r c, negb (rdb cr r) && negb (rdb cc c))
               (λ v, CInt.sub v mn)); done. }
    rewrite (for_each_index_update h1 m (λ r c, rdb cr r && rdb cc c)
               (λ v, CInt.add v mn)) by done.
    rewrite H1. by destruct (rdb cr r), (rdb cc c).
Qed.

Lemma CreateAdditionalZeros_shifts_by_uncovered_minimum_witness :
  ∃ mn,
    mn ≤ CInt.INT_MAX
    ∧ (∀ r c, Z.of_nat r < height m_2x2.2 → Z.of_nat c < width m_2x2.2 →
              rdb [true; false] r = false → rdb [true; false] c = false →
              mn ≤ cell m_2x2.1 m_2x2.2 r c)
    ∧ (mn = CInt.INT_MAX
       ∨ ∃ r c, Z.of_nat r < height m_2x2.2 ∧ Z.of_nat c < width m_2x2.2
                ∧ rdb [true; false] r = false ∧ rdb [true; false] c = false
                ∧ mn = cell m_2x2.1 m_2x2.2 r c)
    ∧ ∀ r c, Z.of_nat r < height m_2x2.2 → Z.of_nat c < width m_2x2.2 →
             cell (CreateAdditionalZeros m_2x2.1 m_2x2.2 [true; false] [true; false])
               m_2x2.2 r c
             = if negb (rdb [true; false] r) && negb (rdb [true; false] c)
               then CInt.sub (cell m_2x2.1 m_2x2.2 r c) mn
               else if rdb [true; false] r && rdb [true; false] c
                    then CInt.add (cell m_2x2.1 m_2x2.2 r c) mn
                    else cell m_2x2.1 m_2x2.2 r c.
Proof.
  apply (CreateAdditionalZeros_shifts_by_uncovered_minimum m_2x2.1 m_2x2.2);
    [reflexivity | by apply (bool_decide_unpack _) | reflexivity | reflexivity].
Defined.

(** ** hungarian.c: which zeros [ExtractFinalSolution] takes *)

Lemma extract_scan_leftmost h orig final r st :
  ∀ n a,
    (extract_scan h orig final r (seq a n) st = st
     ∧ ∀ c, (a ≤ c < a + n)%nat →
            ¬ (cell h final r c = 0 ∧ rdb (e_coveredCols st) c = false))
    ∨ ∃ c, (a ≤ c < a + n)%nat
           ∧ cell h final r c = 0 ∧ rdb (e_coveredCols st) c = false
           ∧ (∀ c', (a ≤ c' < c)%nat →
                    ¬ (cell h final r c' = 0 ∧ rdb (e_coveredCols st) c' = false))
           ∧ extract_scan h orig final r (seq a n) st
             = {| e_sum := CInt.add (e_sum st) (cell h orig r c);
                  e_chosen := e_chosen st ++ [selected_cell h orig (r, c)];
                  e_coveredCols := <[c := true]> (e_coveredCols st) |}.
Proof.
  induction n as [|n IH]; intros a; simpl.
  { left. split; [done|]. intros c Hc. lia. }
  destruct (Z.eqb_spec (cell h final r a) 0) as [Hz|Hnz]; simpl.
  - destruct (rdb (e_coveredCols st) a) eqn:Hcov; simpl.
    + destruct (IH (S a)) as [[Heq Hnone]|(c & Hc & Hzc & Hfc & Hbefore & Heq)].
      * left. split; [done|]. intros c Hc [Hzc Hfc].
        destruct (decide (c = a)) as [->|]; [congruence|].
        apply (Hnone c); [lia|done].
      * right. exists c. split_and!; [lia|lia|done|done| |done].
        intros c' Hc' [Hzc' Hfc'].
        destruct (decide (c' = a)) as [->|]; [congruence|].
        apply (Hbefore c'); [lia|done].
    + right. exists a. split_and!; [lia|lia|done|done| |done]. intros c' Hc'. lia.
  - destruct (IH (S a)) as [[Heq Hnone]|(c & Hc & Hzc & Hfc & Hbefore & Heq)].
    + left. split; [done|]. intros c Hc [Hzc Hfc].
      destruct (decide (c = a)) as [->|]; [done|].
      apply (Hnone c); [lia|done].
    + right. exists c. split_and!; [lia|lia|done|done| |done].
      intros c' Hc' [Hzc' Hfc'].
      destruct (decide (c' = a)) as [->|]; [done|].
      apply (Hbefore c'); [lia|done].
Qed.

Lemma column_free_covered h orig final r st cells c :
  extract_first h orig final r st cells →
  column_free cells r c ↔ rdb (e_coveredCols st) c = false.
Proof.
  intros [_ _ Hbelow _ _ Hcov _]. split.
  - intros Hfree. destruct (rdb (e_coveredCols st) c) eqn:Hc; [|done]. exfalso.
    apply Hcov, list_elem_of_fmap in Hc as ([r' c'] & Heq & Hin). simpl in Heq. subst c'.
    rewrite Forall_forall in Hbelow. destruct (Hbelow _ Hin) as [Hlt _]. simpl in Hlt.
    by apply (Hfree r' c Hin Hlt).
  - intros Hc r' c' Hin _ ->.
    assert (rdb (e_coveredCols st) c = true) as Htrue; [|congruence].
    apply Hcov, list_elem_of_fmap. by exists (r', c).
Qed.

Lemma column_free_snoc cells r c0 r' c :
  (r' ≤ r)%nat → column_free (cells ++ [(r, c0)]) r' c ↔ column_free cells r' c.
Proof.
  intros Hle. unfold column_free. split.
  - intros Hfree r1 c1 Hin. apply (Hfree r1 c1), elem_of_app. by left.
  - intros Hfree r1 c1 [Hin|Hin%list_elem_of_singleton]%elem_of_app Hlt.
    + by apply (Hfree r1 c1).
    + injection Hin as -> ->. lia.
Qed.

Lemma leftmost_free_zero_snoc h final orig cells r c0 r' c :
  (r' ≤ r)%nat →
  leftmost_free_zero h final orig (cells ++ [(r, c0)]) r' c
  ↔ leftmost_free_zero h final orig cells r' c.
Proof.
  intros Hle. unfold leftmost_free_zero. rewrite column_free_snoc by done.
  split; intros (? & ? & ? & Hleft); split_and!; try done.
  - intros c' Hc' [? ?]. apply (Hleft c' Hc'). split; [done|]. by apply column_free_snoc.
  - intros c' Hc' [? Hf]. apply (Hleft c' Hc'). split; [done|].
    by apply column_free_snoc in Hf.
Qed.

(** One row of the extraction. *)
Lemma extract_scan_first h orig final r st cells :
  extract_first h orig final r st cells →
  ∃ cells',
    extract_first h orig final (S r)
      (extract_scan h orig final r (seq 0 (Z.to_nat (width orig))) st) cells'.
Proof.
  intros Hinv.
  pose proof (λ c, column_free_covered h orig final r st cells c Hinv) as Hfree.
  pose proof Hinv as [Hchosen Hsum Hbelow Hsorted Hlen Hcov Hfirst].
  assert (∀ c, (r, c) ∉ cells) as Hnotin.
  { intros c Hin. rewrite Forall_forall in Hbelow. destruct (Hbelow _ Hin) as [? _].
    simpl in *. lia. }
  destruct (extract_scan_leftmost h orig final r st (Z.to_nat (width orig)) 0)
    as [[-> Hnone]|(c0 & Hc0 & Hz0 & Hf0 & Hbefore & ->)].
  - exists cells. split; try done.
    + eapply Forall_impl; [exact Hbelow|]. simpl. intros rc [? ?]. split; [lia|done].
    + intros r' c Hr'. destruct (decide (r' = r)) as [->|Hne]; [|apply Hfirst; lia].
      split; [by intros ?%Hnotin|].
      intros (Hc & Hz & Hf & _). exfalso. apply (Hnone c); [lia|].
      split; [done|]. by apply Hfree.
  - exists (cells ++ [(r, c0)]). split; cbn [e_sum e_chosen e_coveredCols].
    + by rewrite Hchosen, fmap_app.
    + unfold values in *. rewrite fmap_app. cbn [fmap list_fmap].
      rewrite sum_from_snoc. cbn [sel_value selected_cell]. by rewrite <- Hsum.
    + apply Forall_app. split.
      * eapply Forall_impl; [exact Hbelow|]. simpl. intros rc [? ?]. split; [lia|done].
      * apply Forall_singleton. simpl. lia.
    + intros i j rc1 rc2 Hi Hj Hij.
      apply lookup_lt_Some in Hj as Hjlt. rewrite length_app in Hjlt. simpl in Hjlt.
      rewrite lookup_app_l in Hi by lia.
      destruct (decide (j < length cells)%nat) as [Hjl|Hjl].
      * rewrite lookup_app_l in Hj by done. by eapply Hsorted.
      * rewrite lookup_app_r in Hj by lia.
        replace (j - length cells)%nat with 0%nat in Hj by lia.
        injection Hj as <-. simpl.
        rewrite Forall_forall in Hbelow.
        by destruct (Hbelow rc1 (list_elem_of_lookup_2 _ _ _ Hi)).
    + by rewrite length_insert.
    + intros c. rewrite rdb_insert, fmap_app, elem_of_app. simpl.
      rewrite list_elem_of_singleton. case_decide as Hd.
      * destruct Hd as [-> _]. split; [by right|done].
      * rewrite Hcov. split; [by left|]. intros [?| ->]; [done|].
        exfalso. apply Hd. split; [done|lia].
    + intros r' c Hr'. rewrite leftmost_free_zero_snoc by lia.
      rewrite elem_of_app, list_elem_of_singleton.
      destruct (decide (r' = r)) as [->|Hne].
      * split.
        -- intros [?%Hnotin|Heq]; [done|]. injection Heq as ->.
           split_and!; [lia|done|by apply Hfree|].
           intros c' Hc' [Hz' Hf']. apply (Hbefore c'); [lia|]. split; [done|].
           by apply Hfree.
        -- intros (Hc & Hz & Hf & Hleft). right. f_equal.
           destruct (Nat.lt_trichotomy c c0) as [Hlt|[->|Hgt]]; [|done|].
           ++ exfalso. apply (Hbefore c); [lia|]. split; [done|]. by apply Hfree.
           ++ exfalso. apply (Hleft c0 Hgt). split; [done|]. by apply Hfree.
      * rewrite <- Hfirst by lia. split; [|by left].
        intros [?|Heq]; [done|]. injection Heq as -> _. done.
Qed.

Lemma extract_rows_first h orig final n :
  ∀ r st cells,
    extract_first h orig final r st cells →
    ∃ cells',
      extract_first h orig final (r + n) (extract_rows h orig final (seq r n) st) cells'.
Proof.
  induction n as [|n IH]; intros r st cells Hinv.
  { exists cells. by rewrite Nat.add_0_r. }
  cbn [seq]. rewrite extract_rows_cons.
  destruct (extract_scan_first h orig final r st cells Hinv) as (cells1 & Hinv1).
  destruct (IH (S r) _ cells1 Hinv1) as (cells' & Hinv').
  exists cells'. by replace (r + S n)%nat with (S r + n)%nat by lia.
Qed.

(** X20.  [ExtractFinalSolution], given the original matrix and a final
    matrix of the same size, both well formed: it goes through the rows in
    order and in each row takes the first zero of the final matrix, from the
    left, whose column no row above has taken; a row without such a zero
    gives nothing.  The values recorded are those of the original matrix at
    the cells taken, and the result is their sum. *)
Theorem ExtractFinalSolution_takes_leftmost_free_zeros h orig final :
  wf_matrix h orig = true → wf_matrix h final = true →
  width final = width orig → height final = height orig →
  ∃ cells,
    ExtractFinalSolution h orig final
    = Success {| sum := CInt.sum_from 0 (values (selected_cell h orig <$> cells));
                 selection := selected_cell h orig <$> cells |}
    ∧ (∀ i j rc1 rc2, cells !! i = Some rc1 → cells !! j = Some rc2 →
                      (i < j)%nat → (rc1.1 < rc2.1)%nat)
    ∧ (∀ r c, (r, c) ∈ cells
              ↔ Z.of_nat r < height orig ∧ leftmost_free_zero h final orig cells r c).
Proof.
  intros Hwf%wf_matrix_spec _ _ _. destruct Hwf as [Hw Hh _ _].
  unfold ExtractFinalSolution. rewrite calloc_Some by lia.
  destruct (Z.ltb_spec (height orig) 0); [lia|].
  destruct (extract_rows_first h orig final (Z.to_nat (height orig)) 0
              {| e_sum := 0; e_chosen := [];
                 e_coveredCols := replicate (Z.to_nat (width orig)) false |} [])
    as (cells & [Hchosen Hsum Hbelow Hsorted _ _ Hfirst]).
  { split; simpl; try done.
    - by rewrite length_replicate.
    - intros c. rewrite rdb_replicate. split; [done|]. intros Hc. by apply elem_of_nil in Hc.
    - intros r' c Hr'. lia. }
  simpl in *. exists cells. split_and!.
  - by rewrite Hsum, Hchosen.
  - done.
  - intros r c. split.
    + intros Hin. rewrite Forall_forall in Hbelow. destruct (Hbelow _ Hin) as [Hr _].
      simpl in Hr. split; [lia|]. apply Hfirst; [lia|done].
    + intros [Hr Hleft]. apply Hfirst; [lia|done].
Qed.

Lemma ExtractFinalSolution_takes_leftmost_free_zeros_witness :
  ∃ cells,
    ExtractFinalSolution m_stuck.1 m_stuck.2 m_stuck.2
    = Success {| sum := CInt.sum_from 0 (values (selected_cell m_stuck.1 m_stuck.2 <$> cells));
                 selection := selected_cell m_stuck.1 m_stuck.2 <$> cells |}
    ∧ (∀ i j rc1 rc2, cells !! i = Some rc1 → cells !! j = Some rc2 →
                      (i < j)%nat → (rc1.1 < rc2.1)%nat)
    ∧ (∀ r c, (r, c) ∈ cells
              ↔ Z.of_nat r < height m_stuck.2
                ∧ leftmost_free_zero m_stuck.1 m_stuck.2 m_stuck.2 cells r c).
Proof.
  apply ExtractFinalSolution_takes_leftmost_free_zeros; reflexivity.
Defined.

(** ** backtrack.c: what [CopySelectedValues] records *)

Lemma copy_selected_omap h m uc idxs :
  ∀ written,
    copy_selected h m uc idxs written
    = written ++
      omap (λ i, if rd uc i =? 0 then None
                 else Some {| sel_row := Z.of_nat i; sel_col := rd uc i - 1;
                              sel_value :=
                                value_at h (GetElementCol (GetRowNode (Some m) (Z.of_nat i))
                                                          (rd uc i - 1)) |}) idxs.
Proof.
  induction idxs as [|i idxs IH]; intros written; simpl.
  { by rewrite app_nil_r. }
  destruct (rd uc i =? 0); simpl; [apply IH|].
  rewrite IH. by rewrite <- app_assoc.
Qed.

Lemma row_of_None cols c : c ∉ cols → row_of cols c = None.
Proof.
  induction cols as [|x cols IH]; intros Hc; simpl; [done|].
  apply not_elem_of_cons in Hc as [Hne Hc].
  rewrite decide_False by done. by rewrite IH.
Qed.

Lemma row_of_lookup cols c r : NoDup cols → row_of cols c = Some r ↔ cols !! r = Some c.
Proof.
  intros Hnd. revert r. induction Hnd as [|x cols Hx Hnd IH]; intros r; simpl; [done|].
  destruct (decide (x = c)) as [->|Hne].
  - split.
    + by intros [= <-].
    + destruct r as [|r]; [done|]. simpl. intros Hin%list_elem_of_lookup_2. done.
  - destruct r as [|r]; simpl.
    + split; [|by intros [= ->]]. by destruct (row_of cols c).
    + rewrite <- IH. destruct (row_of cols c); simpl; split; congruence.
Qed.

(** The mark of a column after a placement: the row that took it, plus
    one. *)
Lemma mark_path_rd cols :
  ∀ uc k c,
    NoDup cols → Forall (λ x, (x < length uc)%nat) cols →
    rd (mark_path uc k cols) c
    = match row_of cols c with
      | Some r => Z.of_nat (k + r) + 1
      | None => rd uc c
      end.
Proof.
  induction cols as [|x cols IH]; intros uc k c Hnd Hall; simpl; [done|].
  apply NoDup_cons in Hnd as [Hx Hnd]. apply Forall_cons in Hall as [Hlt Hall].
  rewrite IH; [|done|].
  2: { eapply Forall_impl; [exact Hall|]. intros y Hy. simpl. by rewrite length_insert. }
  destruct (decide (x = c)) as [->|Hne].
  - rewrite row_of_None by done. rewrite rd_insert, decide_True by done.
    f_equal. lia.
  - destruct (row_of cols c) as [r|]; simpl.
    + f_equal. lia.
    + rewrite rd_insert, decide_False; [done|]. by intros [? _].
Qed.

Lemma omap_ext_in {A B} (f g : A → option B) (l : list A) :
  (∀ x, x ∈ l → f x = g x) → omap f l = omap g l.
Proof.
  induction l as [|x l IH]; intros Hext; [done|].
  assert (omap f l = omap g l) as Heq.
  { apply IH. intros y Hy. apply Hext. by apply list_elem_of_further. }
  simpl. rewrite (Hext x) by apply list_elem_of_here.
  destruct (g x); [f_equal|]; exact Heq.
Qed.

(** What [CopySelectedValues] writes at the end of a placement. *)
Lemma copy_selected_transposed h m cols :
  NoDup cols → Forall (λ c, Z.of_nat c < width m) cols →
  copy_selected h m (mark_path (replicate (Z.to_nat (width m)) 0) 0 cols)
    (seq 0 (Z.to_nat (height m))) []
  = transposed h m cols.
Proof.
  intros Hnd Hall. rewrite copy_selected_omap, app_nil_l. unfold transposed.
  apply omap_ext_in. intros i _.
  rewrite mark_path_rd; [|done|].
  2: { eapply Forall_impl; [exact Hall|]. intros c Hc. simpl in *.
       rewrite length_replicate. lia. }
  destruct (row_of cols i) as [r|]; simpl.
  - destruct (Z.eqb_spec (Z.of_nat r + 1) 0); [lia|].
    unfold selected_cell, cell, cell_ptr. simpl.
    by replace (Z.of_nat r + 1 - 1) with (Z.of_nat r) by lia.
  - by rewrite rd_replicate.
Qed.

(** [Explore] either leaves the state alone or ends on the sum of a
    placement, with the selection [CopySelectedValues] wrote at the end of
    that placement. *)
Lemma Explore_selection h m B :
  bounded_cells h m B →
  ∀ fuel k currentSum st,
    Z.of_nat k ≤ height m →
    length (usedColumns st) = Z.to_nat (width m) →
    - (Z.of_nat k * B) ≤ currentSum ≤ Z.of_nat k * B →
    Explore fuel h m k currentSum st = st
    ∨ ∃ cols, completion m (usedColumns st) k cols
              ∧ maxSum (Explore fuel h m k currentSum st)
                = currentSum + path_sum h m k cols
              ∧ selectionValues (Explore fuel h m k currentSum st)
                = copy_selected h m (mark_path (usedColumns st) k cols)
                    (seq 0 (Z.to_nat (height m))) [].
Proof.
  intros [Hcells HB] fuel.
  assert (∀ k currentSum st,
            Z.of_nat k = height m →
            (if currentSum >? maxSum st
             then CopySelectedValues h m (set_maxSum currentSum st) else st) = st
            ∨ ∃ cols, completion m (usedColumns st) k cols
                      ∧ maxSum (if currentSum >? maxSum st
                                then CopySelectedValues h m (set_maxSum currentSum st)
                                else st)
                        = currentSum + path_sum h m k cols
                      ∧ selectionValues
                          (if currentSum >? maxSum st
                           then CopySelectedValues h m (set_maxSum currentSum st) else st)
                        = copy_selected h m (mark_path (usedColumns st) k cols)
                            (seq 0 (Z.to_nat (height m))) []) as Hleaf.
  { intros k currentSum st Heq. destruct (currentSum >? maxSum st); [|by left].
    right. exists []. split_and!; simpl; [|lia|done].
    split_and!; [simpl; lia|constructor|constructor]. }
  induction fuel as [|fuel IH]; intros k currentSum st Hk Hlen Hsum;
    rewrite Explore_unfold;
    destruct (Z.eqb_spec (Z.of_nat k) (height m)) as [Heq|Hne];
    [by apply Hleaf|by left|by apply Hleaf|].
  match goal with |- context [foldl ?f st ?l] =>
    pose proof (foldl_invariant
      (λ st0, usedRows st0 = usedRows st ∧ usedColumns st0 = usedColumns st
              ∧ (st0 = st
                 ∨ ∃ cols, completion m (usedColumns st) k cols
                           ∧ maxSum st0 = currentSum + path_sum h m k cols
                           ∧ selectionValues st0
                             = copy_selected h m (mark_path (usedColumns st) k cols)
                                 (seq 0 (Z.to_nat (height m))) []))
      f l st) as Hfold
  end.
  destruct Hfold as (_ & _ & Hres); [|by split_and!; auto|exact Hres].
  intros st0 i Hi%elem_of_seq (Hur & Huc & Hst0). cbv beta.
  destruct (Z.eqb_spec (rd (usedRows st0) k) 0) as [Hr|]; simpl; [|done].
  destruct (Z.eqb_spec (rd (usedColumns st0) i) 0) as [Hc|]; simpl; [|done].
  set (sum1 := CInt.add currentSum (cell h m k i)).
  assert (sum1 = currentSum + cell h m k i) as Hsum1.
  { unfold sum1, CInt.add. apply wrap_small.
    pose proof (Hcells k i). unfold CInt.INT_MIN, CInt.INT_MAX in *. nia. }
  set (st1 := set_used k 1 i (Z.of_nat k + 1) st0).
  destruct (Explore_keeps h m fuel (S k) sum1 st1) as (Hr1 & Hc1 & _ & _).
  destruct (IH (S k) sum1 st1) as [Hsame|(cols & Hcols & Hmax & Hsel)].
  { lia. }
  { unfold st1. simpl. by rewrite length_insert, Huc. }
  { pose proof (Hcells k i). nia. }
  - rewrite Hsame. unfold st1. rewrite set_used_restore by done. simpl.
    rewrite !insert_restore by done. by split_and!.
  - split_and!.
    + simpl. rewrite Hr1. unfold st1. simpl. by rewrite insert_restore.
    + simpl. rewrite Hc1. unfold st1. simpl. by rewrite insert_restore.
    + right. unfold st1 in Hcols, Hsel. simpl in Hcols, Hsel. rewrite Huc in Hcols, Hsel.
      exists (i :: cols). split_and!.
      * apply completion_cons; [lia|lia|]. split_and!; [lia|by rewrite <- Huc|done].
      * simpl. rewrite Hmax. lia.
      * simpl. exact Hsel.
Qed.

(** X21.  What [BacktrackAlgorithm] hands back when the best sum is
    positive, on a well-formed matrix with no more rows than columns,
    bounded cells and dimensions whose product, the count of the third
    allocation, fits in [int]: there is a placement, row [r] in column
    [cols[r]], whose cells add up to the reported sum, and that sum is the
    largest possible; but the selection recorded is that placement with rows
    and columns exchanged: for each column [c] below the height taken by row
    [r], the entry has row [c], column [r] and the value of the cell at
    [(c, r)]. *)
Theorem BacktrackAlgorithm_records_transposed_cells h m B s :
  wf_matrix h m = true → height m ≤ width m →
  height m * width m ≤ CInt.INT_MAX →
  bounded_cells h m B → is_max_sum h m s → 0 < s →
  ∃ cols,
    length cols = Z.to_nat (height m) ∧ NoDup cols
    ∧ Forall (λ c, Z.of_nat c < width m) cols
    ∧ path_sum h m 0 cols = s
    ∧ BacktrackAlgorithm h (Some m)
      = Success {| sum := s; selection := transposed h m cols |}.
Proof.
  intros Hwf%wf_matrix_spec Hwide Hfit Hbound Hmax Hpos. destruct Hwf as [Hw Hh _ _].
  destruct (BacktrackAlgorithm_returns h m Hw Hh Hfit) as (sol & Hsol).
  pose proof (backtrack_optimal_when_positive h m B s sol Hh Hwide Hbound Hmax Hsol)
    as Hsum.
  rewrite Z.max_r in Hsum by lia.
  revert Hsol. unfold BacktrackAlgorithm.
  destruct (Z.leb_spec (width m) 0); [lia|].
  destruct (Z.leb_spec (height m) 0); [lia|]. simpl.
  rewrite !calloc_Some by lia.
  rewrite mul_fits by done. intros [= <-]. simpl in Hsum.
  destruct (Explore_selection h m B Hbound (Z.to_nat (height m)) 0 0
              {| maxSum := 0; selectionValues := []; selectionCount := 0;
                 usedRows := replicate (Z.to_nat (height m)) 0;
                 usedColumns := replicate (Z.to_nat (width m)) 0 |})
    as [Hsame|(cols & Hcols & Hmaxsum & Hsel)]; simpl; try lia.
  { by rewrite length_replicate. }
  - rewrite Hsame in Hsum. simpl in Hsum. lia.
  - simpl in *. destruct Hcols as (Hlen & Hnd & Hall).
    assert (Forall (λ c, Z.of_nat c < width m) cols) as Hrange.
    { eapply Forall_impl; [exact Hall|]. by intros c [? _]. }
    exists cols. split_and!; [lia|done|done|lia|].
    rewrite Hsum, Hsel. by rewrite copy_selected_transposed.
Qed.

Lemma BacktrackAlgorithm_records_transposed_cells_witness :
  ∃ cols,
    length cols = Z.to_nat (height m_diag.2) ∧ NoDup cols
    ∧ Forall (λ c, Z.of_nat c < width m_diag.2) cols
    ∧ path_sum m_diag.1 m_diag.2 0 cols = 27
    ∧ BacktrackAlgorithm m_diag.1 (Some m_diag.2)
      = Success {| sum := 27; selection := transposed m_diag.1 m_diag.2 cols |}.
Proof.
  apply (BacktrackAlgorithm_records_transposed_cells m_diag.1 m_diag.2 9 27);
    [reflexivity | by vm_compute | by vm_compute
     | exact m_diag_bounded | exact m_diag_max | done].
Defined.

(** ** matrix_io.c: filling a matrix from the tokens of a file *)

Lemma ReplaceValueAtPosition_inside h m r c v :
  well_formed h m → NoDup (pointers m) →
  0 ≤ r < height m → 0 ≤ c < width m →
  ∃ h', ReplaceValueAtPosition h m r c v = Success h'
        ∧ cell h' m (Z.to_nat r) (Z.to_nat c) = v
        ∧ (∀ r' c', (r', c') ≠ (Z.to_nat r, Z.to_nat c) → cell h' m r' c' = cell h m r' c')
        ∧ well_formed h' m.
Proof.
  intros Hwf Hnd Hr Hc.
  destruct (cell_ptr_inside h m (Z.to_nat r) (Z.to_nat c) Hwf)
    as (rn & p & e & Hrn & Hp & Hcp & He & _); [lia..|].
  unfold ReplaceValueAtPosition.
  destruct (Z.ltb_spec r 0), (Z.leb_spec (height m) r), (Z.ltb_spec c 0),
    (Z.leb_spec (width m) c); simpl; try lia.
  rewrite Hrn, Hp. eexists. split; [reflexivity|]. split_and!.
  - unfold cell. rewrite Hcp. simpl. by apply elem_value_set_same.
  - intros r' c' Hne. unfold cell.
    destruct (cell_ptr m r' c') as [q|] eqn:Hq; [|done]. simpl.
    apply elem_value_set_ne. intros <-.
    destruct (cell_ptr_inj m _ _ _ _ _ Hnd Hcp Hq) as [Hr' Hc']. by rewrite Hr', Hc' in Hne.
  - eapply well_formed_modifies; [|exact Hwf].
    eapply set_value_modifies, cell_ptr_pointers, Hcp.
Qed.

Lemma position_unique (w r c r' c' : nat) :
  (c < w)%nat → (c' < w)%nat → (r * w + c = r' * w + c')%nat → r = r' ∧ c = c'.
Proof.
  intros Hc Hc' Heq.
  destruct (Nat.lt_trichotomy r r') as [Hlt|[->|Hgt]]; [nia|lia|nia].
Qed.

(** One token. *)
Lemma populate_step h0 m st done value :
  NoDup (pointers m) → populate_inv h0 m st done → p_row st < height m →
  ∃ h',
    ReplaceValueAtPosition (p_heap st) m (p_row st) (p_col st) value = Success h'
    ∧ populate_inv h0 m
        (if p_col st + 1 =? width m
         then {| p_heap := h'; p_row := p_row st + 1; p_col := 0 |}
         else {| p_heap := h'; p_row := p_row st; p_col := p_col st + 1 |})
        (done ++ [value]).
Proof.
  intros Hnd [Hwf Hcol Hrow _ Hcount Hwritten Hrest] Hlt.
  destruct (ReplaceValueAtPosition_inside (p_heap st) m (p_row st) (p_col st) value)
    as (h' & Hrep & Hnew & Hold & Hwf'); [done|done|lia|lia|].
  exists h'. split; [done|].
  assert (length done = (Z.to_nat (p_row st) * Z.to_nat (width m)
                         + Z.to_nat (p_col st))%nat) as Hpos by nia.
  assert (∀ r c v, Z.of_nat c < width m →
            (done ++ [value]) !! (r * Z.to_nat (width m) + c)%nat = Some v →
            cell h' m r c = v) as Hwritten'.
  { intros r c v Hc Hlk.
    destruct (decide (r * Z.to_nat (width m) + c < length done)%nat) as [Hin|Hout].
    - rewrite lookup_app_l in Hlk by done. rewrite Hold; [by apply Hwritten|].
      intros [= -> ->]. lia.
    - apply lookup_lt_Some in Hlk as Hlen. rewrite length_app in Hlen. simpl in Hlen.
      rewrite lookup_app_r in Hlk by lia.
      replace (r * Z.to_nat (width m) + c - length done)%nat with 0%nat in Hlk by lia.
      injection Hlk as <-.
      destruct (position_unique (Z.to_nat (width m)) r c
                  (Z.to_nat (p_row st)) (Z.to_nat (p_col st))) as [-> ->]; [lia..|].
      done. }
  assert (∀ r c, Z.of_nat c < width m →
            (length (done ++ [value]) ≤ r * Z.to_nat (width m) + c)%nat →
            cell h' m r c = cell h0 m r c) as Hrest'.
  { intros r c Hc Hlen. rewrite length_app in Hlen. simpl in Hlen.
    rewrite Hold; [apply Hrest; [done|lia]|]. intros [= -> ->]. lia. }
  destruct (Z.eqb_spec (p_col st + 1) (width m)); split; simpl; try done; try lia.
  - rewrite length_app. simpl. lia.
  - rewrite length_app. simpl. lia.
Qed.

Lemma populate_tokens_spec h0 m tokens :
  NoDup (pointers m) →
  ∀ st done,
    populate_inv h0 m st done →
    (Z.of_nat (length done + length tokens) ≤ width m * height m →
     ∃ st', populate_tokens m tokens st = Success st'
            ∧ populate_inv h0 m st' (done ++ tokens))
    ∧ (width m * height m < Z.of_nat (length done + length tokens) →
       populate_tokens m tokens st = Failure OUT_OF_BOUNDS).
Proof.
  intros Hnd. induction tokens as [|value tokens IH]; intros st done Hinv.
  { split.
    - intros _. exists st. by rewrite app_nil_r.
    - intros Hover. exfalso. destruct Hinv as [_ Hcol Hrow Hbound Hcount _ _].
      simpl in Hover. nia. }
  pose proof Hinv as [_ Hcol Hrow Hbound Hcount _ _].
  cbn [populate_tokens length].
  destruct (Z.leb_spec (height m) (p_row st)) as [Hend|Hlt]; simpl.
  - split; [|done]. intros Hfit. exfalso. nia.
  - destruct (Z.leb_spec (width m) (p_col st)); [lia|]. simpl.
    destruct (populate_step h0 m st done value Hnd Hinv Hlt) as (h' & -> & Hinv').
    destruct (IH _ (done ++ [value]) Hinv') as [Hfit Hover].
    rewrite length_app, <- app_assoc in *. simpl in *.
    replace (length done + 1 + length tokens)%nat
      with (length done + S (length tokens))%nat in * by lia.
    destruct (p_col st + 1 =? width m); split; done.
Qed.

Lemma populate_lines_spec h0 m lines :
  NoDup (pointers m) →
  ∀ st done,
    populate_inv h0 m st done →
    (Z.of_nat (length done + length (mjoin lines)) ≤ width m * height m →
     ∃ st', populate_lines m lines st = Success st'
            ∧ populate_inv h0 m st' (done ++ mjoin lines))
    ∧ (width m * height m < Z.of_nat (length done + length (mjoin lines)) →
       populate_lines m lines st = Failure OUT_OF_BOUNDS).
Proof.
  intros Hnd. induction lines as [|line lines IH]; intros st done Hinv.
  { split.
    - intros _. exists st. simpl. by rewrite app_nil_r.
    - intros Hover. exfalso. destruct Hinv as [_ Hcol Hrow Hbound Hcount _ _].
      simpl in Hover. nia. }
  cbn [populate_lines mjoin list_join]. rewrite length_app.
  destruct (populate_tokens_spec h0 m line Hnd st done Hinv) as [Hfit Hover].
  destruct (decide (Z.of_nat (length done + length line) ≤ width m * height m))
    as [Hle|Hgt].
  - destruct (Hfit Hle) as (st1 & -> & Hinv1).
    destruct (IH st1 (done ++ line) Hinv1) as [Hfit' Hover'].
    rewrite length_app, <- app_assoc in *.
    rewrite Nat.add_assoc. split; done.
  - rewrite Hover by lia. split; [|done]. intros Hfit'. lia.
Qed.

(** X22.  [PopulateMatrixFromFile] on a well-formed matrix with pairwise
    distinct elements, given the integer tokens of the file line by line: the
    tokens fill the matrix row by row whatever the line breaks are, token
    number [r * width + c] going to the cell at [(r, c)]; cells beyond the
    last token keep their value; with more tokens than cells the answer is
    OUT_OF_BOUNDS.  A NULL matrix gives NULL_POINTER and a file that cannot
    be opened CANNOT_OPEN_FILE. *)
Theorem PopulateMatrixFromFile_fills_row_by_row h m lines :
  wf_matrix h m = true → NoDup (pointers m) →
  (Z.of_nat (length (mjoin lines)) ≤ width m * height m →
   ∃ h', PopulateMatrixFromFile h (Some m) (Some lines) = Success h'
         ∧ wf_matrix h' m = true
         ∧ (∀ r c v, Z.of_nat c < width m →
                     mjoin lines !! (r * Z.to_nat (width m) + c)%nat = Some v →
                     cell h' m r c = v)
         ∧ (∀ r c, Z.of_nat c < width m →
                   (length (mjoin lines) ≤ r * Z.to_nat (width m) + c)%nat →
                   cell h' m r c = cell h m r c))
  ∧ (width m * height m < Z.of_nat (length (mjoin lines)) →
     PopulateMatrixFromFile h (Some m) (Some lines) = Failure OUT_OF_BOUNDS)
  ∧ PopulateMatrixFromFile h None (Some lines) = Failure NULL_POINTER
  ∧ PopulateMatrixFromFile h (Some m) None = Failure CANNOT_OPEN_FILE.
Proof.
  intros Hwf%wf_matrix_spec Hnd.
  destruct (populate_lines_spec h m lines Hnd {| p_heap := h; p_row := 0; p_col := 0 |} [])
    as [Hfit Hover].
  { pose proof Hwf as [Hw Hh _ _]. split; simpl; try done; try lia. }
  simpl in Hfit, Hover. unfold PopulateMatrixFromFile. split_and!; [| |done|done].
  - intros Hle. destruct (Hfit Hle) as (st' & -> & [Hwf' _ _ _ _ Hwritten Hrest]).
    exists (p_heap st'). split_and!; [done|by apply well_formed_wf_matrix|done|done].
  - intros Hgt. by rewrite (Hover Hgt).
Qed.

Lemma PopulateMatrixFromFile_fills_row_by_row_witness :
  (Z.of_nat (length (mjoin [[7; 8; 9]; [10]])) ≤ width m_2x2.2 * height m_2x2.2 →
   ∃ h', PopulateMatrixFromFile m_2x2.1 (Some m_2x2.2) (Some [[7; 8; 9]; [10]]) = Success h'
         ∧ wf_matrix h' m_2x2.2 = true
         ∧ (∀ r c v, Z.of_nat c < width m_2x2.2 →
                     mjoin [[7; 8; 9]; [10]] !! (r * Z.to_nat (width m_2x2.2) + c)%nat
                     = Some v →
                     cell h' m_2x2.2 r c = v)
         ∧ (∀ r c, Z.of_nat c < width m_2x2.2 →
                   (length (mjoin [[7; 8; 9]; [10]])
                    ≤ r * Z.to_nat (width m_2x2.2) + c)%nat →
                   cell h' m_2x2.2 r c = cell m_2x2.1 m_2x2.2 r c))
  ∧ (width m_2x2.2 * height m_2x2.2 < Z.of_nat (length (mjoin [[7; 8; 9]; [10]])) →
     PopulateMatrixFromFile m_2x2.1 (Some m_2x2.2) (Some [[7; 8; 9]; [10]])
     = Failure OUT_OF_BOUNDS)
  ∧ PopulateMatrixFromFile m_2x2.1 None (Some [[7; 8; 9]; [10]]) = Failure NULL_POINTER
  ∧ PopulateMatrixFromFile m_2x2.1 (Some m_2x2.2) None = Failure CANNOT_OPEN_FILE.
Proof.
  apply (PopulateMatrixFromFile_fills_row_by_row m_2x2.1 m_2x2.2 [[7; 8; 9]; [10]]);
    [reflexivity | by apply (bool_decide_unpack _)].
Defined.

(** ** greedy.c: every matrix shape *)

(** Once every column is taken, a row changes nothing. *)
Lemma greedy_row_exhausted h m r r' rn st cols :
  well_formed h m → rn ∈ head m →
  greedy_full h m r st cols → length cols = Z.to_nat (width m) →
  greedy_row h rn r' st = st.
Proof.
  intros [Hw Hh Hlen Hrows] Hrn [Hl _ Hnd Hrange Hmarks _ Huclen _ _] Hall.
  apply greedy_row_unchanged.
  destruct (greedy_scan_spec h (g_usedRows st) (g_usedColumns st) r' (row rn)
              CInt.INT_MIN None) as [->|(p & Hp & _ & _ & Hfree)]; [done|]. exfalso.
  assert (row_ok h (width m) rn) as [Hrl Hcol].
  { rewrite Forall_forall in Hrows. by apply Hrows. }
  apply list_elem_of_lookup in Hp as [c Hc].
  rewrite (elem_column_ok _ _ _ (Hcol _ _ Hc)), Nat2Z.id in Hfree.
  apply lookup_lt_Some in Hc as Hclt.
  assert (c ∈ cols) as Hin.
  { assert (cols ≡ₚ seq 0 (Z.to_nat (width m))) as Hperm.
    { apply range_Permutation; [done| |done].
      eapply Forall_impl; [exact Hrange|]. simpl. intros x ?. lia. }
    rewrite Hperm. apply elem_of_seq. lia. }
  by apply Hmarks in Hin.
Qed.

Lemma greedy_rows_exhausted h m rows :
  well_formed h m → (∀ rn, rn ∈ rows → rn ∈ head m) →
  ∀ r r' st cols,
    greedy_full h m r st cols → length cols = Z.to_nat (width m) →
    greedy_rows h rows r' st = st.
Proof.
  intros Hwf. induction rows as [|rn rows IH]; intros Hsub r r' st cols Hfull Hall;
    simpl; [done|].
  rewrite (greedy_row_exhausted h m r r' rn st cols); try done.
  - apply (IH (λ rn' Hrn', Hsub rn' (list_elem_of_further _ _ _ Hrn')) r _ st cols);
      done.
  - apply Hsub, list_elem_of_here.
Qed.

(** The greedy solver on any well-formed matrix with cells inside the bound:
    the first min(H, W) rows each take a column, the rows below find every
    column taken. *)
Lemma GreedyAlgorithm_general h m B :
  wf_matrix h m = true → bounded_cells h m B →
  ∃ st cols,
    GreedyAlgorithm h (Some m)
    = Success {| sum := g_maxSum st; selection := g_maxSelection st |}
    ∧ greedy_full h m (Z.to_nat (Z.min (height m) (width m))) st cols.
Proof.
  intros Hwf%wf_matrix_spec Hbound.
  pose proof Hwf as [Hw Hh Hlen Hrows].
  unfold GreedyAlgorithm.
  destruct (Z.leb_spec (width m) 0); [lia|].
  rewrite !calloc_Some by lia.
  set (n := Z.to_nat (Z.min (height m) (width m))).
  rewrite <- (take_drop n (head m)), greedy_rows_app.
  destruct (greedy_rows_full h m B (take n (head m)) Hwf Hbound 0%nat
              {| g_maxSum := 0; g_maxSelection := [];
                 g_usedRows := replicate (Z.to_nat (height m)) 0;
                 g_usedColumns := replicate (Z.to_nat (width m)) 0 |} [])
    as (cols & Hfull).
  { rewrite length_take. lia. }
  { intros j rn Hj. apply lookup_take_Some in Hj as [Hj _]. done. }
  { split; simpl; try done.
    all: first [ by constructor
               | by rewrite length_replicate
               | by intros i _; apply rd_replicate
               | intros c; rewrite rd_replicate; split; [done|];
                 intros Hc; by apply elem_of_nil in Hc ]. }
  assert (length (take n (head m)) = n) as Hn by (rewrite length_take; lia).
  rewrite Hn in *. simpl in Hfull.
  set (st1 := greedy_rows h (take n (head m)) 0 _) in *.
  assert (greedy_rows h (drop n (head m)) (0 + n) st1 = st1) as ->.
  { destruct (decide (height m ≤ width m)) as [Hle|Hgt].
    - rewrite drop_ge; [done|]. lia.
    - apply (greedy_rows_exhausted h m _ Hwf (subseteq_drop n (head m)) n _ st1 cols);
        [done|]. destruct Hfull as [-> _ _ _ _ _ _ _ _]. lia. }
  eexists st1, cols. split; [reflexivity|]. exact Hfull.
Qed.

(** X11.  On a well-formed matrix whose cells are small enough that no sum
    leaves the range of [int], [GreedyAlgorithm] selects exactly one cell in
    each of the first min(height, width) rows, in row order and in pairwise
    distinct columns, and nothing in the rows below; the cell of a row is the
    largest of that row among the columns the rows above did not take; the
    values recorded are those of the cells and the sum reported is their
    sum. *)
Theorem GreedyAlgorithm_takes_row_maxima h m B :
  wf_matrix h m = true → bounded_cells h m B →
  ∃ cols,
    GreedyAlgorithm h (Some m)
    = Success {| sum := path_sum h m 0 cols; selection := path_cells h m 0 cols |}
    ∧ Z.of_nat (length cols) = Z.min (height m) (width m)
    ∧ NoDup cols
    ∧ Forall (λ c, Z.of_nat c < width m) cols
    ∧ row_maxima h m cols.
Proof.
  intros Hwf Hbound.
  destruct (GreedyAlgorithm_general h m B Hwf Hbound) as (st & cols & -> & Hfull).
  destruct (wf_matrix_spec _ _ Hwf) as [Hw Hh _ _].
  destruct Hfull as [Hlen Hsel Hnd Hrange _ _ _ Hsum Hchoice].
  exists cols. rewrite Hsel, Hsum. split_and!; try done. lia.
Qed.

Lemma GreedyAlgorithm_takes_row_maxima_witness :
  ∃ cols,
    GreedyAlgorithm m_tall.1 (Some m_tall.2)
    = Success {| sum := path_sum m_tall.1 m_tall.2 0 cols;
                 selection := path_cells m_tall.1 m_tall.2 0 cols |}
    ∧ Z.of_nat (length cols) = Z.min (height m_tall.2) (width m_tall.2)
    ∧ NoDup cols
    ∧ Forall (λ c, Z.of_nat c < width m_tall.2) cols
    ∧ row_maxima m_tall.1 m_tall.2 cols.
Proof.
  apply (GreedyAlgorithm_takes_row_maxima m_tall.1 m_tall.2 5); [reflexivity|].
  split; [|by vm_compute]. intros r c. apply cell_bounded; [done|].
  repeat constructor; simpl; lia.
Defined.

(** ** The two exact solvers side by side *)

(** X23.  Where the two exact solvers agree: on a well-formed square matrix
    with bounded cells whose reduced copy passes [IsOptimalSolution] at the
    first test, the sum [BacktrackAlgorithm] reports is the sum
    [HungarianAlgorithm] reports when that is not negative, and 0
    otherwise. *)
Theorem backtrack_sum_is_hungarian_sum_or_zero fuel h m B hs bs :
  wf_matrix h m = true → height m = width m →
  bounded_cells h m B → 2 * B ≤ CInt.INT_MAX →
  IsOptimalSolution (reduce (CopyMatrix h m).1 (CopyMatrix h m).2) (CopyMatrix h m).2 = true →
  hungarian_solution fuel h (Some m) = Success hs →
  BacktrackAlgorithm h (Some m) = Success bs →
  sum bs = Z.max 0 (sum hs).
Proof.
  intros Hwf%wf_matrix_spec Hsq Hbound H2B Hopt Hhs Hbs.
  destruct (hungarian_reduction_optimal fuel h m B Hwf Hsq Hbound H2B Hopt)
    as (sol & h' & Hrun & _ & _ & Hmax).
  unfold hungarian_solution in Hhs. rewrite Hrun in Hhs. injection Hhs as <-.
  destruct Hwf as [Hw Hh _ _].
  apply (backtrack_optimal_when_positive h m B (sum sol) bs); [done|lia|done|done|done].
Qed.

Lemma backtrack_sum_is_hungarian_sum_or_zero_witness :
  sum {| sum := 27;
         selection := [{| sel_row := 0; sel_col := 0; sel_value := 9 |};
                       {| sel_row := 1; sel_col := 1; sel_value := 9 |};
                       {| sel_row := 2; sel_col := 2; sel_value := 9 |}] |}
  = Z.max 0 (sum {| sum := 27;
                    selection := [{| sel_row := 0; sel_col := 0; sel_value := 9 |};
                                  {| sel_row := 1; sel_col := 1; sel_value := 9 |};
                                  {| sel_row := 2; sel_col := 2; sel_value := 9 |}] |}).
Proof.
  apply (backtrack_sum_is_hungarian_sum_or_zero 0 m_diag.1 m_diag.2 9);
    [reflexivity | reflexivity | exact m_diag_bounded | by vm_compute | reflexivity
    | by vm_compute | by vm_compute].
Defined.

(** ** hungarian.c: the optimality test and the extraction make the same scan *)

Lemma optimal_iff_extraction_full h orig f sol :
  well_formed h f → width orig = width f → height orig = height f →
  ExtractFinalSolution h orig f = Success sol →
  IsOptimalSolution h f = true
  ↔ Z.of_nat (length (selection sol)) = Z.min (height f) (width f).
Proof.
  intros [Hw Hh Hheight Hok] Hworig Hhorig Hex.
  unfold ExtractFinalSolution in Hex. rewrite calloc_Some in Hex by lia.
  destruct (Z.ltb_spec (height orig) 0); [lia|]. injection Hex as <-. simpl.
  unfold IsOptimalSolution. rewrite !calloc_Some by lia. simpl.
  pose proof (rows_sim h orig f (head f) 0
                (replicate (Z.to_nat (height f)) 0) (replicate (Z.to_nat (width f)) 0)
                {| e_sum := 0; e_chosen := [];
                   e_coveredCols := replicate (Z.to_nat (width orig)) false |}
                Hheight Hok Hworig eq_refl) as Hsim.
  pose proof (extract_rows_inv h orig f (Z.to_nat (height orig)) 0 _
                (extract_init_inv (width orig) ltac:(lia))) as Hinv.
  apply extract_inv_valid in Hinv as (_ & _ & Hle); [|lia..].
  replace (length (head f)) with (Z.to_nat (height orig)) in Hsim by lia.
  destruct (optimal_rows h (head f) 0 _ _) as [cr cc]. simpl in *.
  destruct Hsim as [_ _ _ _ _ Hcr Hcc].
  - split; simpl; rewrite ?length_replicate, ?Hworig; try done.
    + intros i _. apply rd_replicate.
    + intros c. rewrite rd_replicate, rdb_replicate. done.
    + apply count_covered_replicate.
    + apply count_covered_replicate.
  - rewrite orb_true_iff, !Z.eqb_eq. lia.
Qed.

(** X24.  [IsOptimalSolution] and [ExtractFinalSolution] make the same scan:
    on a well-formed matrix the test answers true exactly when the
    extraction, run on that matrix, takes a cell in min(height, width) rows.
    The test therefore asks whether the leftmost-free-zero scan is full, not
    whether a full set of independent zeros exists. *)
Theorem IsOptimalSolution_iff_extraction_is_full h m :
  wf_matrix h m = true →
  ∃ sol, ExtractFinalSolution h m m = Success sol
         ∧ (IsOptimalSolution h m = true
            ↔ Z.of_nat (length (selection sol)) = Z.min (height m) (width m)).
Proof.
  intros Hwf%wf_matrix_spec. pose proof Hwf as [Hw Hh _ _].
  destruct (ExtractFinalSolution_valid h m m) as (sol & Hsol & _); [lia|lia|].
  exists sol. split; [done|]. by apply (optimal_iff_extraction_full h m m).
Qed.

Lemma IsOptimalSolution_iff_extraction_is_full_witness :
  ∃ sol, ExtractFinalSolution m_stuck.1 m_stuck.2 m_stuck.2 = Success sol
         ∧ (IsOptimalSolution m_stuck.1 m_stuck.2 = true
            ↔ Z.of_nat (length (selection sol))
              = Z.min (height m_stuck.2) (width m_stuck.2)).
Proof. apply IsOptimalSolution_iff_extraction_is_full. reflexivity. Defined.
